(** * Truth Engine: ingestion, enrichment and search over [fact_checks]

    A shallow embedding of the Python scripts of the repository:

    - [init_db.py], [update_schema.py] : the [fact_checks] table ([Store]);
    - [ingest_notes.py]                : Source Data Fetcher ([Fetcher]),
                                         Filter & Dedup and Batch Loader ([Ingest]);
    - [enrich_pairs.py]                : the Enrichment Loop ([Enrich]);
    - [app.py], [check_truth.py]       : the Query Service ([Query]).

    The PostgreSQL table is a list of records in heap order together with the
    value of its SERIAL sequence; a Python [float] is a binary64
    [PrimFloat.float]; the file system is a map from paths to files and
    directories; the embedding model, the pgvector distance operator, the
    content API and the remote archive are parameters of the sections that
    use them. *)

From Stdlib Require Import ZArith List String Ascii Bool Lia Floats Sorted.
From stdpp Require Import base option list strings gmap pretty.

(* ===================================================================== *)
(** ** The store: table [fact_checks] *)
(* ===================================================================== *)

Module Store.

(** [list[float]] on the Python side, [vector(384)] in the table. *)
Definition vector : Type := list float.

(** One row of [fact_checks], columns as created by [init_db.py] plus the
    [tweet_format] column added by [update_schema.py].  The [id] column is
    called [row_id], the name [enrich_pairs.py] gives it. *)
Record fact_check : Type := mk_fact_check {
  row_id       : Z;                 (* id SERIAL PRIMARY KEY *)
  tweet_id     : Z;                 (* BIGINT UNIQUE NOT NULL *)
  tweet_url    : option string;     (* TEXT *)
  tweet_text   : option string;     (* TEXT *)
  tweet_vector : option vector;     (* vector(384) *)
  note_text    : string;            (* TEXT NOT NULL *)
  note_vector  : option vector;     (* vector(384) *)
  created_at   : Z;                 (* TIMESTAMP DEFAULT CURRENT_TIMESTAMP *)
  tweet_format : option string      (* TEXT, added by ALTER TABLE *)
}.

(** The table in heap order and the last value handed out by
    [fact_checks_id_seq]. *)
Record database : Type := mk_database {
  rows   : list fact_check;
  id_seq : Z
}.

Definition empty_db : database := {| rows := []; id_seq := 0 |}.

(** Sentinels of [enrich_pairs.py] and [app.py]. *)
Definition MISSING_OR_DELETED : string := "MISSING_OR_DELETED".
Definition Missing : string := "Missing".

(** First row carrying a given [tweet_id] / [id]. *)
Definition by_tweet_id (tid : Z) (l : list fact_check) : option fact_check :=
  List.find (fun r => Z.eqb (tweet_id r) tid) l.

Definition by_row_id (i : Z) (l : list fact_check) : option fact_check :=
  List.find (fun r => Z.eqb (row_id r) i) l.

(** The constraints the schema declares: [id] is a primary key drawn from
    the sequence, [tweet_id] is unique. *)
Record well_formed (db : database) : Prop := {
  wf_row_ids   : NoDup (map row_id (rows db));
  wf_tweet_ids : NoDup (map tweet_id (rows db));
  wf_seq       : forall i, In i (map row_id (rows db)) -> (0 < i <= id_seq db)%Z;
  wf_seq_start : (0 <= id_seq db)%Z
}.

End Store.

(* ===================================================================== *)
(** ** [ingest_notes.py]: Filter & Dedup and the Batch Loader *)
(* ===================================================================== *)

Module Ingest.
Import Store.

Definition BATCH_SIZE : nat := 1000.

(** [psycopg2.extras.execute_values(..., page_size=100)]: the default page. *)
Definition page_size : nat := 100.

(** A row of [notes-00000.tsv]: the columns the script reads, read as
    integers and text, and the rest. *)
Record note : Type := mk_note {
  noteId  : Z;
  tweetId : Z;
  summary : option string;          (* NaN when the cell is empty *)
  other_columns : list string
}.

(** A row of [noteStatusHistory-00000.tsv]. *)
Record note_status : Type := mk_note_status {
  status_noteId : Z;
  currentStatus : string
}.

Definition is_helpful (s : note_status) : bool :=
  String.eqb (currentStatus s) "CURRENTLY_RATED_HELPFUL".

(** [load_and_filter_notes], after the two [pd.read_csv]:
    [status_df[status_df["currentStatus"] == ...]] then
    [notes_df.merge(helpful_status[["noteId"]], on="noteId", how="inner")].
    An inner merge keeps the order of the left keys and yields one output
    row per matching right row. *)
Definition load_and_filter_notes
    (notes_df : list note) (status_df : list note_status) : list note :=
  let helpful_status := List.filter is_helpful status_df in
  flat_map
    (fun n => map (fun _ => n)
                  (List.filter (fun s => Z.eqb (status_noteId s) (noteId n))
                               helpful_status))
    notes_df.

(** [DataFrame.drop_duplicates(subset=['tweetId'], keep='first')]. *)
Fixpoint drop_duplicates_from (seen : list Z) (df : list note) : list note :=
  match df with
  | [] => []
  | n :: df' =>
      if existsb (Z.eqb (tweetId n)) seen
      then drop_duplicates_from seen df'
      else n :: drop_duplicates_from (tweetId n :: seen) df'
  end.

Definition drop_duplicates (df : list note) : list note :=
  drop_duplicates_from [] df.

(** Filter & Dedup as [main] runs it (lines 221-231); the early return on an
    empty frame yields no rows to load. *)
Definition filter_and_dedup
    (notes_df : list note) (status_df : list note_status) : list note :=
  let helpful_notes := load_and_filter_notes notes_df status_df in
  if Nat.eqb (length helpful_notes) 0 then []
  else drop_duplicates helpful_notes.

(** The tuples handed to [insert_batch]. *)
Record values_row : Type := mk_values {
  v_tweet_id    : Z;
  v_tweet_url   : string;
  v_note_text   : string;
  v_note_vector : vector
}.

(** [f"https://twitter.com/i/web/status/{tid}"]. *)
Definition tweet_url_of (tid : Z) : string :=
  "https://twitter.com/i/web/status/" +:+ pretty tid.

(** [ON CONFLICT (tweet_id) DO UPDATE SET tweet_url, note_text, note_vector]:
    the other columns of the existing row are kept. *)
Definition do_update (v : values_row) (r : fact_check) : fact_check :=
  {| row_id := row_id r;
     tweet_id := tweet_id r;
     tweet_url := Some (v_tweet_url v);
     tweet_text := tweet_text r;
     tweet_vector := tweet_vector r;
     note_text := v_note_text v;
     note_vector := Some (v_note_vector v);
     created_at := created_at r;
     tweet_format := tweet_format r |}.

(** The row [INSERT] proposes: the four given columns, the defaults for [id]
    and [created_at], NULL elsewhere. *)
Definition new_row (new_id now : Z) (v : values_row) : fact_check :=
  {| row_id := new_id;
     tweet_id := v_tweet_id v;
     tweet_url := Some (v_tweet_url v);
     tweet_text := None;
     tweet_vector := None;
     note_text := v_note_text v;
     note_vector := Some (v_note_vector v);
     created_at := now;
     tweet_format := None |}.

(** Insert-or-update of one proposed row against the heap. *)
Fixpoint upsert (new_id now : Z) (v : values_row) (l : list fact_check)
  : list fact_check :=
  match l with
  | [] => [new_row new_id now v]
  | r :: l' =>
      if Z.eqb (tweet_id r) (v_tweet_id v)
      then do_update v r :: l'
      else r :: upsert new_id now v l'
  end.

(** One [INSERT ... VALUES ... ON CONFLICT DO UPDATE] statement.  Every
    proposed row draws [nextval] before the conflict check; a row whose key
    was already inserted or updated by this same statement raises ("ON
    CONFLICT DO UPDATE command cannot affect row a second time").  The
    result is the new heap, or [None] for the raised error, and the
    sequence, which is never rolled back. *)
Fixpoint insert_statement (now : Z) (vals : list values_row) (touched : list Z)
    (l : list fact_check) (seq : Z) : option (list fact_check) * Z :=
  match vals with
  | [] => (Some l, seq)
  | v :: vals' =>
      let seq' := (seq + 1)%Z in
      if existsb (Z.eqb (v_tweet_id v)) touched then (None, seq')
      else insert_statement now vals' (v_tweet_id v :: touched)
                            (upsert seq' now v l) seq'
  end.

(** [range(0, total, size)] and the slices [seq[start:start+size]]. *)
Definition slice {A} (start stop : nat) (l : list A) : list A :=
  firstn (stop - start) (skipn start l).

Definition chunks {A} (size : nat) (l : list A) : list (list A) :=
  map (fun k => slice (k * size) (Nat.min (k * size + size) (length l)) l)
      (seq 0 ((length l + size - 1) / size)).

(** [execute_values]: one statement per page, all in the open transaction. *)
Fixpoint execute_pages (now : Z) (pages : list (list values_row))
    (l : list fact_check) (seq : Z) : option (list fact_check) * Z :=
  match pages with
  | [] => (Some l, seq)
  | p :: pages' =>
      match insert_statement now p [] l seq with
      | (Some l', seq') => execute_pages now pages' l' seq'
      | (None, seq') => (None, seq')
      end
  end.

Definition insert_batch (now : Z) (batch_data : list values_row)
    (l : list fact_check) (seq : Z) : option (list fact_check) * Z :=
  execute_pages now (chunks page_size batch_data) l seq.

(** How a run of the loader ends: every batch committed, or an exception
    after the last commit (the open transaction is lost). *)
Inductive run_result : Type :=
  | Committed (db : database)
  | Crashed (db : database).

Definition result_db (r : run_result) : database :=
  match r with Committed db | Crashed db => db end.

Section Loader.
(** [SentenceTransformer.encode] on one text; [generate_embeddings_batch]
    encodes a list of texts element-wise. *)
Variable encode : string -> vector.

Definition generate_embeddings_batch (texts : list string) : list vector :=
  map encode texts.

(** [batch_df["summary"].fillna("")]. *)
Definition fillna (s : option string) : string := default ""%string s.

(** Lines 255-270 of [main]: the tuples of one batch. *)
Definition batch_data_of (batch_df : list note) : list values_row :=
  let tweet_ids := map tweetId batch_df in
  let summaries := map (fun n => fillna (summary n)) batch_df in
  let tweet_urls := map tweet_url_of tweet_ids in
  let note_vectors := generate_embeddings_batch summaries in
  map (fun '(tid, url, txt, vec) => mk_values tid url txt vec)
      (zip (zip (zip tweet_ids tweet_urls) summaries) note_vectors).

(** The batch loop of [main] (lines 251-276).  [now k] is
    CURRENT_TIMESTAMP of the transaction of batch [k]. *)
Fixpoint load_batches (now : nat -> Z) (k : nat) (batches : list (list note))
    (db : database) : run_result :=
  match batches with
  | [] => Committed db
  | b :: batches' =>
      match insert_batch (now k) (batch_data_of b) (rows db) (id_seq db) with
      | (Some l', seq') =>
          load_batches now (S k) batches' {| rows := l'; id_seq := seq' |}
      | (None, seq') => Crashed {| rows := rows db; id_seq := seq' |}
      end
  end.

(** The Batch Loader on the deduplicated frame. *)
Definition batch_loader (now : nat -> Z) (helpful_notes : list note)
    (db : database) : run_result :=
  load_batches now 0 (chunks BATCH_SIZE helpful_notes) db.

(** [main] from the loaded frames on. *)
Definition main (now : nat -> Z) (notes_df : list note)
    (status_df : list note_status) (db : database) : run_result :=
  batch_loader now (filter_and_dedup notes_df status_df) db.
End Loader.

End Ingest.

(* ===================================================================== *)
(** ** [enrich_pairs.py]: the Enrichment Loop *)
(* ===================================================================== *)

Module Enrich.
Import Store.

Definition BATCH_SIZE : nat := 100.

(** The JSON object of a [tweet-result] reply, as far as the script looks
    into it: [data.get("text", "")], ["video" in data], [data["photos"]]. *)
Record tweet_result : Type := mk_tweet_result {
  json_text   : option string;
  json_video  : bool;
  json_photos : option (list string)
}.

(** What [requests.get] and the two calls after it can do. *)
Inductive http_reply : Type :=
  | NotFound                          (* status_code == 404 *)
  | RequestFailed                     (* any exception inside the [try] *)
  | Success (data : tweet_result).    (* 2xx with a JSON body *)

(** [s.split(c)[-1]]: the text after the last [c]. *)
Fixpoint last_field (c : ascii) (cur s : string) : string :=
  match s with
  | EmptyString => cur
  | String a s' =>
      if Ascii.eqb a c then last_field c EmptyString s'
      else last_field c (cur +:+ String a EmptyString) s'
  end.

(** [s.split(c)[0]]: the text before the first [c]. *)
Fixpoint first_field (c : ascii) (s : string) : string :=
  match s with
  | EmptyString => EmptyString
  | String a s' =>
      if Ascii.eqb a c then EmptyString else String a (first_field c s')
  end.

Definition is_ascii_digit (a : ascii) : bool :=
  let n := nat_of_ascii a in (48 <=? n)%nat && (n <=? 57)%nat.

Fixpoint all_digits (s : string) : bool :=
  match s with
  | EmptyString => true
  | String a s' => is_ascii_digit a && all_digits s'
  end.

(** [str.isdigit] on ASCII text: at least one character, all of them digits. *)
Definition isdigit (s : string) : bool :=
  match s with
  | EmptyString => false
  | _ => all_digits s
  end.

(** [tweet_url.split("/")[-1].split("?")[0]]. *)
Definition tweet_id_of_url (tweet_url : string) : string :=
  first_field "?" (last_field "/" EmptyString tweet_url).

Definition classify_format (data : tweet_result) : string :=
  if json_video data then "Video"
  else match json_photos data with
       | Some (_ :: _) => "Photo"
       | _ => "Text"
       end.

(** [fetch_tweet_details]; [requests_get] answers for the tweet id put into
    the API URL.  A NULL [tweet_url] makes [.split] raise inside the first
    [try], whose bare [except] returns [None]. *)
Definition fetch_tweet_details (requests_get : string -> http_reply)
    (tweet_url : option string) : option (string * string) :=
  match tweet_url with
  | None => None
  | Some url =>
      let tweet_id := tweet_id_of_url url in
      if negb (isdigit tweet_id) then None
      else match requests_get tweet_id with
           | NotFound => Some ("MISSING"%string, "Unknown"%string)
           | RequestFailed => None
           | Success data =>
               let text := default ""%string (json_text data) in
               Some (text, classify_format data)
           end
  end.

(** The WHERE clause of [get_null_rows]. *)
Definition needs_enrichment (r : fact_check) : bool :=
  match tweet_text r with
  | Some _ => false
  | None =>
      match tweet_format r with
      | None => true
      | Some f => negb (String.eqb f Missing)
      end
  end.

(** [get_null_rows]: the selected [(id, tweet_url)] pairs, at most [limit],
    taken in heap order. *)
Definition get_null_rows (db : database) (limit : nat)
  : list (Z * option string) :=
  firstn limit
    (map (fun r => (row_id r, tweet_url r))
         (List.filter needs_enrichment (rows db))).

Definition set_missing (r : fact_check) : fact_check :=
  {| row_id := row_id r;
     tweet_id := tweet_id r;
     tweet_url := tweet_url r;
     tweet_text := Some MISSING_OR_DELETED;
     tweet_vector := tweet_vector r;
     note_text := note_text r;
     note_vector := note_vector r;
     created_at := created_at r;
     tweet_format := Some Missing |}.

Definition set_enriched (text : string) (vec : vector) (fmt : string)
    (r : fact_check) : fact_check :=
  {| row_id := row_id r;
     tweet_id := tweet_id r;
     tweet_url := tweet_url r;
     tweet_text := Some text;
     tweet_vector := Some vec;
     note_text := note_text r;
     note_vector := note_vector r;
     created_at := created_at r;
     tweet_format := Some fmt |}.

(** [UPDATE fact_checks SET ... WHERE id = %s]. *)
Definition update_where_id (i : Z) (f : fact_check -> fact_check)
    (db : database) : database :=
  {| rows := map (fun r => if Z.eqb (row_id r) i then f r else r) (rows db);
     id_seq := id_seq db |}.

(** [update_row]: without a vector the row is marked missing and the passed
    text is ignored. *)
Definition update_row (db : database) (i : Z) (tweet_text : string)
    (tweet_vector : option vector) (tweet_format : string) : database :=
  match tweet_vector with
  | None => update_where_id i set_missing db
  | Some vec => update_where_id i (set_enriched tweet_text vec tweet_format) db
  end.

(** The variables of [main]. *)
Record loop_state : Type := mk_loop_state {
  db              : database;
  total_processed : nat;
  total_success   : nat;
  total_missing   : nat
}.

Definition start (d : database) : loop_state :=
  {| db := d; total_processed := 0; total_success := 0; total_missing := 0 |}.

Section Loop.
(** [model.encode], and the content API: [api n] answers the [n]-th
    attempt of the run ([n] is [total_processed] after its increment). *)
Variable encode : string -> vector.
Variable api : nat -> string -> http_reply.

(** The body of [for row_id, tweet_url in rows] (lines 137-162). *)
Definition process_row (st : loop_state) (row : Z * option string)
  : loop_state :=
  let '(i, url) := row in
  let n := S (total_processed st) in
  match fetch_tweet_details (api n) url with
  | Some (tweet_text, tweet_format) =>
      if String.eqb tweet_text "MISSING"
      then {| db := update_row (db st) i "MISSING" None Missing;
              total_processed := n;
              total_success := total_success st;
              total_missing := S (total_missing st) |}
      else
        let tweet_vector := encode tweet_text in
        {| db := update_row (db st) i tweet_text (Some tweet_vector)
                            tweet_format;
           total_processed := n;
           total_success := S (total_success st);
           total_missing := total_missing st |}
  | None =>
      {| db := db st;
         total_processed := n;
         total_success := total_success st;
         total_missing := total_missing st |}
  end.

(** One pass of [while True] once [rows] is known to be non-empty. *)
Definition enrich_pass (st : loop_state) : loop_state :=
  fold_left process_row (get_null_rows (db st) BATCH_SIZE) st.

(** [main]'s loop, cut after [fuel] work-selection queries: [None] when
    the cut is reached before the loop breaks. *)
Fixpoint main_loop (fuel : nat) (st : loop_state) : option loop_state :=
  match fuel with
  | O => None
  | S fuel' =>
      match get_null_rows (db st) BATCH_SIZE with
      | [] => Some st
      | _ :: _ => main_loop fuel' (enrich_pass st)
      end
  end.

Definition main (fuel : nat) (d : database) : option loop_state :=
  main_loop fuel (start d).
End Loop.

End Enrich.

(* ===================================================================== *)
(** ** [app.py], [check_truth.py]: the Query Service *)
(* ===================================================================== *)

Module Query.
Import Store.

(** [SIMILARITY_THRESHOLD] of [app.py] and of [check_truth.py], and the
    latter's [TOP_K]; [LIMIT 5] is written into the SQL of [app.py]. *)
Definition SIMILARITY_THRESHOLD : float := 0x1.999999999999ap-2%float. (* 0.4 *)
Definition NOTE_SIMILARITY_THRESHOLD : float := 0.5%float.
Definition CLAIM_LIMIT : nat := 5.
Definition TOP_K : nat := 3.

(** The order of [float8] under ORDER BY: NaN equals NaN and sorts after
    every other value. *)
Definition float8_le (a b : float) : bool :=
  if PrimFloat.is_nan b then true
  else if PrimFloat.is_nan a then false
  else PrimFloat.leb a b.

(** ORDER BY ... ASC on a nullable [float8]: NULLS LAST. *)
Definition nullable_le (a b : option float) : bool :=
  match a, b with
  | _, None => true
  | None, Some _ => false
  | Some x, Some y => float8_le x y
  end.

(** ORDER BY as an insertion sort on a key; SQL leaves the order of rows
    with equal keys open. *)
Section OrderBy.
Context {A K : Type}.
Variable le : K -> K -> bool.
Variable key : A -> K.

Fixpoint insert_sorted (x : A) (l : list A) : list A :=
  match l with
  | [] => [x]
  | y :: l' =>
      if le (key y) (key x) then y :: insert_sorted x l'
      else x :: y :: l'
  end.

Definition order_by (l : list A) : list A :=
  fold_right insert_sorted [] l.
End OrderBy.

(** One element of ["results"] in the JSON reply of [/api/search]. *)
Record search_hit : Type := mk_hit {
  hit_tweet_id   : Z;
  hit_tweet_url  : option string;
  hit_tweet_text : option string;
  hit_note_text  : string;
  distance       : float;
  similarity     : float;
  is_match       : bool
}.

(** [tweet_text if tweet_text and tweet_text != "MISSING_OR_DELETED" else
    None]: NULL and the empty string are falsy. *)
Definition shown_text (tweet_text : option string) : option string :=
  match tweet_text with
  | None => None
  | Some t =>
      if negb (String.eqb t EmptyString) && negb (String.eqb t MISSING_OR_DELETED)
      then Some t else None
  end.

Section Search.
(** [model.encode] and pgvector's cosine distance operator [<=>]. *)
Variable encode : string -> vector.
Variable cosine_distance : vector -> vector -> float.

(** The SELECT of [search]: rows with a [tweet_vector], each with its
    distance to the query, ordered by distance, at most 5.  The scan is
    exact; through the HNSW index PostgreSQL may pick other rows, under the
    same WHERE, ORDER BY and LIMIT. *)
Definition search_query (d : database) (query_embedding : vector)
  : list (fact_check * float) :=
  firstn CLAIM_LIMIT
    (order_by float8_le snd
       (omap (fun r => match tweet_vector r with
                       | Some v => Some (r, cosine_distance v query_embedding)
                       | None => None
                       end)
             (rows d))).

Definition hit_of (row : fact_check * float) : search_hit :=
  let '(r, dist) := row in
  {| hit_tweet_id := tweet_id r;
     hit_tweet_url := tweet_url r;
     hit_tweet_text := shown_text (tweet_text r);
     hit_note_text := note_text r;
     distance := dist;
     similarity := (1 - dist)%float;
     is_match := (dist <? SIMILARITY_THRESHOLD)%float |}.

(** [search(q)]: the ["results"] list. *)
Definition search (d : database) (q : string) : list search_hit :=
  let query_embedding := encode q in
  map hit_of (search_query d query_embedding).

(** [search_notes]: [(note_text, tweet_url, distance)] over every row; a
    NULL [note_vector] gives a NULL distance. *)
Definition search_notes (d : database) (embedding : vector) (top_k : nat)
  : list (string * option string * option float) :=
  firstn top_k
    (order_by nullable_le snd
       (map (fun r => (note_text r, tweet_url r,
                       (fun v => cosine_distance v embedding) <$> note_vector r))
            (rows d))).
End Search.

(** What [display_results] prints. *)
Inductive display : Type :=
  | NoMatches
  | Relevant (shown : list (nat * float * string * option string))
      (* result number, percentage, note text, source *)
  | ClosestTopic (note_text : string) (tweet_url : option string)
  | TypeError.    (* a NULL distance compared with a float *)

(** The [for] loop of [display_results]: results numbered from [i], those
    with [distance > SIMILARITY_THRESHOLD] skipped. *)
Fixpoint relevant_from (i : nat)
    (results : list (string * option string * option float))
  : option (list (nat * float * string * option string)) :=
  match results with
  | [] => Some []
  | (note_text, tweet_url, Some dist) :: results' =>
      rest ← relevant_from (S i) results';
      if (NOTE_SIMILARITY_THRESHOLD <? dist)%float then Some rest
      else Some ((i, ((1 - dist) * 100)%float, note_text, tweet_url) :: rest)
  | (_, _, None) :: _ => None
  end.

Definition display_results
    (results : list (string * option string * option float)) : display :=
  match results with
  | [] => NoMatches
  | (note_text, tweet_url, best_distance) :: _ =>
      match best_distance with
      | None => TypeError
      | Some best =>
          if (best <? NOTE_SIMILARITY_THRESHOLD)%float
          then match relevant_from 1 results with
               | Some shown => Relevant shown
               | None => TypeError
               end
          else ClosestTopic note_text tweet_url
      end
  end.

(** [get_stats] of [app.py]: the WHERE clause of the second COUNT and the
    two counts, [total] and [enriched]. *)
Definition counted_enriched (r : fact_check) : bool :=
  match tweet_text r with
  | Some t => negb (String.eqb t MISSING_OR_DELETED)
  | None => false
  end.

Definition get_stats (d : database) : nat * nat :=
  (length (rows d), length (List.filter counted_enriched (rows d))).

End Query.

(* ===================================================================== *)
(** ** [ingest_notes.py]: the Source Data Fetcher *)
(* ===================================================================== *)

Module Fetcher.

Definition DATA_DIR : string := "data".
Definition BASE_URL : string := "https://ton.twimg.com/birdwatch-public-data".

(** [DATASETS.items()], in insertion order: base name and subdirectory. *)
Definition DATASETS : list (string * string) :=
  [("notes-00000", "notes");
   ("noteStatusHistory-00000", "noteStatusHistory")]%string.

(** What reading a member of an archive comes to: its data; an error when
    the member is opened (it is encrypted, or compressed in a way [zipfile]
    does not know); or an error after [written] has been copied (damaged
    data, a wrong checksum). *)
Inductive member_data : Type :=
  | Data (data : string)
  | OpenError
  | ReadError (written : string).

(** What a file holds: bytes a ZIP reader rejects, or an archive with its
    members (name and data) in [namelist()] order. *)
Inductive blob : Type :=
  | Bytes (data : string)
  | Zip (members : list (string * member_data)).

(** What a path names: a regular file, or a directory. *)
Inductive node : Type :=
  | File (content : blob)
  | Dir.

(** [strftime("%Y")], [("%m")], [("%d")] of one [datetime]. *)
Record ymd : Type := mk_ymd { year : string; month : string; day : string }.

(** The file system as the script sees it from its working directory, and
    the URLs asked for so far, oldest first.  Paths are POSIX paths.
    [files] maps a path in normal form (components separated by one "/",
    none of them empty or ".", ".." only in front) to what it names; the
    paths the loop builds from [DATA_DIR] and a dated file name are in that
    form.  What a path names lies in a directory, and has that one path in
    normal form: there are no links, and the working directory is not
    reached again through ".." or from the root.  [DATA_DIR] itself is a
    directory throughout: line 68 creates it before the loop. *)
Record world : Type := mk_world {
  files     : gmap string node;
  requested : list string
}.

(** How a call ends: with a value, or with an exception that nothing in the
    script catches. *)
Inductive outcome (A : Type) : Type :=
  | Returns (a : A)
  | Raises.
Arguments Returns {A} a.
Arguments Raises {A}.

(** [str.endswith]. *)
Fixpoint endswith (s suffix : string) : bool :=
  String.eqb s suffix ||
  match s with
  | EmptyString => false
  | String _ s' => endswith s' suffix
  end.

(** [str.split("/")] and ["/".join]. *)
Fixpoint str_split (s : string) : list string :=
  match s with
  | EmptyString => [EmptyString]
  | String c s' =>
      if Ascii.eqb c "/" then EmptyString :: str_split s'
      else match str_split s' with
           | x :: xs => String c x :: xs
           | [] => [String c EmptyString]
           end
  end.

Fixpoint str_join (xs : list string) : string :=
  match xs with
  | [] => EmptyString
  | x :: xs' =>
      match xs' with
      | [] => x
      | _ :: _ => x +:+ "/" +:+ str_join xs'
      end
  end.

(** [os.path.isabs] and [os.path.join(a, b)] of [posixpath]. *)
Definition isabs (p : string) : bool :=
  match p with
  | String c _ => Ascii.eqb c "/"
  | EmptyString => false
  end.

Definition path_join (a b : string) : string :=
  if isabs b then b
  else if String.eqb a "" || endswith a "/" then a +:+ b
  else a +:+ "/" +:+ b.

(** [os.path.isdir] on a path in normal form; [DATA_DIR] is a directory. *)
Definition is_dir (fs : gmap string node) (p : string) : bool :=
  String.eqb p DATA_DIR ||
  match fs !! p with
  | Some Dir => true
  | _ => false
  end.

(** *** Path resolution

    How the operating system follows a path that is not in normal form:
    component by component from the working directory (or from the root),
    each place passed through being a directory.  A place is the list of
    the components that lead to it; above the working directory these are
    "..", and the working directory, what lies above it and the root are
    directories. *)
Definition leads (absolute : bool) (place : list string) (c : string)
  : list string :=
  if String.eqb c "" || String.eqb c "." then place
  else if String.eqb c ".." then
    match last place with
    | None => if absolute then [] else [".."%string]
    | Some x =>
        if String.eqb x ".." then place ++ [".."%string]
        else removelast place
    end
  else place ++ [c].

Definition path_of (absolute : bool) (place : list string) : string :=
  (if absolute then "/" else "") +:+ str_join place.

Definition at_dir (fs : gmap string node) (absolute : bool)
    (place : list string) : bool :=
  forallb (String.eqb "..") place || is_dir fs (path_of absolute place).

Fixpoint walk (fs : gmap string node) (absolute : bool) (place : list string)
    (components : list string) : option (list string) :=
  match components with
  | [] => Some place
  | c :: components' =>
      if at_dir fs absolute place
      then walk fs absolute (leads absolute place c) components'
      else None
  end.

(** The normal form of the path, [None] when it passes through something
    that is not a directory. *)
Definition resolve (fs : gmap string node) (path : string) : option string :=
  let absolute := isabs path in
  path_of absolute <$> walk fs absolute [] (str_split path).

(** *** [os.rename]

    [src] is followed as above; [dst] is a path in normal form whose
    directory exists.  [None] stands for the [OSError] raised. *)
Fixpoint strip_prefix (p s : string) : option string :=
  match p, s with
  | EmptyString, _ => Some s
  | String a p', String b s' =>
      if Ascii.eqb a b then strip_prefix p' s' else None
  | String _ _, EmptyString => None
  end.

(** Where a path is after directory [src] has become [dst]. *)
Definition moved (src dst k : string) : string :=
  if String.eqb k src then dst
  else match strip_prefix (src +:+ "/") k with
       | Some rest => dst +:+ "/" +:+ rest
       | None => k
       end.

Definition move_tree (src dst : string) (fs : gmap string node)
  : gmap string node :=
  list_to_map (map (fun kv => (moved src dst (fst kv), snd kv))
                   (map_to_list fs)).

Definition has_entries (dir : string) (fs : gmap string node) : bool :=
  existsb (fun kv => match strip_prefix (dir +:+ "/") (fst kv) with
                     | Some _ => true
                     | None => false
                     end)
          (map_to_list fs).

Definition os_rename (src dst : string) (fs : gmap string node)
  : option (gmap string node) :=
  match resolve fs src with
  | None => None
  | Some from =>
      match fs !! from with
      | None => None                                  (* nothing there *)
      | Some (File b) =>
          match fs !! dst with
          | Some Dir => None                          (* a directory in the way *)
          | _ => Some (<[dst := File b]> (delete from fs))
          end
      | Some Dir =>
          if String.eqb from dst then Some fs
          else match strip_prefix (from +:+ "/") dst with
               | Some _ => None                       (* into itself *)
               | None =>
                   match fs !! dst with
                   | None => Some (move_tree from dst fs)
                   | Some (File _) => None
                   | Some Dir =>
                       if has_entries dst fs then None
                       else Some (move_tree from dst (delete dst fs))
                   end
               end
      end
  end.

(** *** [zipfile.ZipFile.extract]

    [getinfo]: of the members of one name the last one is found.  The
    target is [path] joined with the member's name without its empty, "."
    and ".." components ([os.path.normpath] leaves such a path as it is).
    The directories above the target are made, the member is opened, the
    target is opened for writing, and the data is copied.  The result says
    whether the call returned, and gives the file system it leaves. *)
Definition getinfo (members : list (string * member_data)) (name : string)
  : option member_data :=
  snd <$> last (List.filter (fun m => String.eqb (fst m) name) members).

Definition arcname (filename : string) : list string :=
  List.filter
    (fun x => negb (String.eqb x "" || String.eqb x "." || String.eqb x ".."))
    (str_split filename).

Definition targetpath_of (path member : string) : string :=
  path_join path (str_join (arcname member)).

(** [os.makedirs] of [dir/c1], [dir/c1/c2], ... below a directory [dir]
    that exists: a missing directory is created, a regular file in the way
    raises. *)
Fixpoint makedirs (dir : string) (components : list string)
    (fs : gmap string node) : bool * gmap string node :=
  match components with
  | [] => (true, fs)
  | c :: components' =>
      let p := dir +:+ "/" +:+ c in
      match fs !! p with
      | Some (File _) => (false, fs)
      | Some Dir => makedirs p components' fs
      | None => makedirs p components' (<[p := Dir]> fs)
      end
  end.

Definition zf_extract (members : list (string * member_data))
    (member path : string) (fs : gmap string node)
  : bool * gmap string node :=
  match getinfo members member, arcname member with
  | Some content, _ :: _ =>
      match makedirs path (removelast (arcname member)) fs with
      | (true, fs1) =>
          let targetpath := targetpath_of path member in
          match content, fs1 !! targetpath with
          | OpenError, _ => (false, fs1)
          | _, Some Dir => (false, fs1)  (* [open(targetpath, "wb")] raises *)
          | ReadError written, _ =>
              (false, <[targetpath := File (Bytes written)]> fs1)
          | Data data, _ =>
              (true, <[targetpath := File (Bytes data)]> fs1)
          end
      | (false, fs1) => (false, fs1)
      end
  | _, _ => (false, fs)
  end.

Section Download.
(** The archive: what a GET of a URL yields, [None] when [requests]
    raises (connection error, timeout, HTTP error status). *)
Variable remote : string -> option blob.

(** [download_file]: the body is written to [local_path]; on a
    [RequestException] a partial file is removed.  With a directory at
    [local_path], [open] and [os.remove] raise an [OSError], which is not
    caught. *)
Definition download_file (url local_path : string) (w : world)
  : outcome bool * world :=
  let log := requested w ++ [url] in
  match files w !! local_path, remote url with
  | Some Dir, _ => (Raises, {| files := files w; requested := log |})
  | _, Some b => (Returns true, {| files := <[local_path := File b]> (files w);
                                  requested := log |})
  | _, None => (Returns false, {| files := delete local_path (files w);
                                 requested := log |})
  end.

(** The [try] block of strategy 1 (lines 103-129) on the downloaded
    archive: [true] when the TSV was extracted and renamed, [false] for
    "No TSV found in ZIP" and for any exception. *)
Definition extract_tsv (local_zip_path local_tsv_path : string)
    (fs : gmap string node) : bool * gmap string node :=
  match fs !! local_zip_path with
  | Some (File (Zip members)) =>
      match List.filter (fun m => endswith (fst m) ".tsv") members with
      | (internal_name, _) :: _ =>
          match zf_extract members internal_name DATA_DIR fs with
          | (true, fs1) =>
              let extracted_raw_path := path_join DATA_DIR internal_name in
              match fs1 !! local_tsv_path with
              | Some Dir => (false, fs1)              (* [os.remove] raises *)
              | _ =>
                  let fs2 := delete local_tsv_path fs1 in
                  match os_rename extracted_raw_path local_tsv_path fs2 with
                  | Some fs3 => (true, fs3)
                  | None => (false, fs2)              (* [os.rename] raises *)
                  end
              end
          | (false, fs1) => (false, fs1)              (* [zf.extract] raises *)
          end
      | [] => (false, fs)
      end
  | _ => (false, fs)                     (* [zipfile.ZipFile] raises *)
  end.

(** The f-strings of the loop body. *)
Definition local_tsv_path_of (d : ymd) (base_name : string) : string :=
  path_join DATA_DIR
    (year d +:+ "-" +:+ month d +:+ "-" +:+ day d +:+ "_" +:+ base_name +:+ ".tsv").

Definition local_zip_path_of (d : ymd) (base_name : string) : string :=
  path_join DATA_DIR
    (year d +:+ "-" +:+ month d +:+ "-" +:+ day d +:+ "_" +:+ base_name +:+ ".zip").

Definition zip_url_of (d : ymd) (base_name subdir : string) : string :=
  BASE_URL +:+ "/" +:+ year d +:+ "/" +:+ month d +:+ "/" +:+ day d
    +:+ "/" +:+ subdir +:+ "/" +:+ base_name +:+ ".zip".

Definition tsv_url_of (d : ymd) (base_name subdir : string) : string :=
  BASE_URL +:+ "/" +:+ year d +:+ "/" +:+ month d +:+ "/" +:+ day d
    +:+ "/" +:+ subdir +:+ "/" +:+ base_name +:+ ".tsv".

Definition old_tsv_url_of (d : ymd) (base_name : string) : string :=
  BASE_URL +:+ "/" +:+ year d +:+ "/" +:+ month d +:+ "/" +:+ day d
    +:+ "/" +:+ base_name +:+ ".tsv".

(** The body of [for base_name, subdir in DATASETS.items()] after
    [local_paths.append]: [Returns true] for "Ready", [Returns false] for
    the [break]. *)
Definition fetch_dataset (d : ymd) (base_name subdir : string) (w : world)
  : outcome bool * world :=
  let local_tsv_path := local_tsv_path_of d base_name in
  match files w !! local_tsv_path with
  | Some _ => (Returns true, w)          (* already exists: [continue] *)
  | None =>
      let local_zip_path := local_zip_path_of d base_name in
      match download_file (zip_url_of d base_name subdir) local_zip_path w with
      | (Returns true, w1) =>
          let '(ok, fs) := extract_tsv local_zip_path local_tsv_path (files w1) in
          match fs !! local_zip_path with              (* [finally] *)
          | Some Dir => (Raises, {| files := fs; requested := requested w1 |})
          | _ => (Returns ok, {| files := delete local_zip_path fs;
                                requested := requested w1 |})
          end
      | (Returns false, w1) =>
          match download_file (tsv_url_of d base_name subdir) local_tsv_path w1 with
          | (Returns false, w2) =>
              download_file (old_tsv_url_of d base_name) local_tsv_path w2
          | r => r
          end
      | (Raises, w1) => (Raises, w1)
      end
  end.

(** The inner [for] with its [break]: [success] and [local_paths]. *)
Fixpoint fetch_datasets (d : ymd) (datasets : list (string * string))
    (local_paths : list string) (w : world)
  : outcome bool * list string * world :=
  match datasets with
  | [] => (Returns true, local_paths, w)
  | (base_name, subdir) :: datasets' =>
      let local_paths' := local_paths ++ [local_tsv_path_of d base_name] in
      match fetch_dataset d base_name subdir w with
      | (Returns true, w') => fetch_datasets d datasets' local_paths' w'
      | (r, w') => (r, local_paths', w')
      end
  end.

(** [for days_ago in range(3)], as a loop over the remaining values of
    [days_ago]; [date_of k] is [datetime.now() - timedelta(days=k)] at
    the time iteration [k] runs. *)
Fixpoint try_days (date_of : nat -> ymd) (days : list nat) (w : world)
  : outcome (option (list string)) * world :=
  match days with
  | [] => (Returns None, w)
  | days_ago :: days' =>
      match fetch_datasets (date_of days_ago) DATASETS [] w with
      | (Returns true, local_paths, w') => (Returns (Some local_paths), w')
      | (Returns false, _, w') => try_days date_of days' w'
      | (Raises, _, w') => (Raises, w')
      end
  end.

(** [download_latest_data] once line 68 has made sure of [DATA_DIR]. *)
Definition download_latest_data (date_of : nat -> ymd) (w : world)
  : outcome (option (list string)) * world :=
  try_days date_of (seq 0 3) w.
End Download.

End Fetcher.

(* ===================================================================== *)
(** ** [init_keywords.py]: the keyword filters *)
(* ===================================================================== *)

Module Keywords.
Import Store.

Definition KEYWORDS : list string := ["AI generated"; "AI video"]%string.

(** One row of [keyword_filters]. *)
Record keyword_filter : Type := mk_keyword_filter {
  kf_id          : Z;               (* id SERIAL PRIMARY KEY *)
  keyword        : string;          (* TEXT UNIQUE NOT NULL *)
  keyword_vector : option vector;   (* vector(384) *)
  kf_created_at  : Z                (* TIMESTAMP DEFAULT CURRENT_TIMESTAMP *)
}.

Record keyword_table : Type := mk_keyword_table {
  kf_rows : list keyword_filter;
  kf_seq  : Z
}.

(** [INSERT ... ON CONFLICT (keyword) DO UPDATE SET keyword_vector]. *)
Fixpoint upsert_keyword (new_id now : Z) (kw : string) (vec : vector)
    (l : list keyword_filter) : list keyword_filter :=
  match l with
  | [] => [ {| kf_id := new_id; keyword := kw; keyword_vector := Some vec;
               kf_created_at := now |} ]
  | r :: l' =>
      if String.eqb (keyword r) kw
      then {| kf_id := kf_id r; keyword := keyword r;
              keyword_vector := Some vec;
              kf_created_at := kf_created_at r |} :: l'
      else r :: upsert_keyword new_id now kw vec l'
  end.

Section Main.
Variable encode : string -> vector.

(** The [for keyword in KEYWORDS] loop of [main]; the connection is in
    autocommit mode, so every statement is its own transaction, at time
    [now k] for the [k]-th keyword. *)
Fixpoint insert_keywords (now : nat -> Z) (k : nat) (keywords : list string)
    (t : keyword_table) : keyword_table :=
  match keywords with
  | [] => t
  | kw :: keywords' =>
      insert_keywords now (S k) keywords'
        {| kf_rows := upsert_keyword (kf_seq t + 1) (now k) kw (encode kw)
                        (kf_rows t);
           kf_seq := (kf_seq t + 1)%Z |}
  end.

(** [main] on the table CREATE TABLE IF NOT EXISTS finds or creates. *)
Definition main (now : nat -> Z) (t : keyword_table) : keyword_table :=
  insert_keywords now 0 KEYWORDS t.
End Main.

Definition by_keyword (kw : string) (l : list keyword_filter)
  : option keyword_filter :=
  List.find (fun r => String.eqb (keyword r) kw) l.

End Keywords.

(* ===================================================================== *)
(** ** Vocabulary of the statements *)
(* ===================================================================== *)

Module Props.
Import Store.

(** A note survives the join when some status row with its [noteId] is
    CURRENTLY_RATED_HELPFUL. *)
Definition has_helpful_status (status_df : list Ingest.note_status)
    (n : Ingest.note) : bool :=
  existsb (fun s => Ingest.is_helpful s
                    && Z.eqb (Ingest.status_noteId s) (Ingest.noteId n))
          status_df.

(** The surviving notes, in input file order. *)
Definition survivors (notes_df : list Ingest.note)
    (status_df : list Ingest.note_status) : list Ingest.note :=
  List.filter (has_helpful_status status_df) notes_df.

(** First note of a frame that refers to tweet [t]. *)
Definition first_for (t : Z) (df : list Ingest.note) : option Ingest.note :=
  List.find (fun n => Z.eqb (Ingest.tweetId n) t) df.

(** The tuple the loader builds for one note (lines 255-270). *)
Definition values_of (encode : string -> vector) (n : Ingest.note)
  : Ingest.values_row :=
  let text := Ingest.fillna (Ingest.summary n) in
  Ingest.mk_values (Ingest.tweetId n) (Ingest.tweet_url_of (Ingest.tweetId n))
                   text (encode text).

(** Proposed rows with the [id] and [created_at] defaults they draw. *)
Fixpoint stamp (now seq : Z) (vals : list Ingest.values_row)
  : list (Z * Z * Ingest.values_row) :=
  match vals with
  | [] => []
  | v :: vals' => ((seq + 1)%Z, now, v) :: stamp now (seq + 1) vals'
  end.

Definition upsert_list (ivs : list (Z * Z * Ingest.values_row))
    (l : list fact_check)
  : list fact_check :=
  fold_left (fun l '(i, now, v) => Ingest.upsert i now v l) ivs l.

(** The ids drawn by a run of proposals are the next values of the sequence. *)
Fixpoint ids_from (seq : Z) (ivs : list (Z * Z * Ingest.values_row)) : Prop :=
  match ivs with
  | [] => True
  | (i, _, _) :: ivs' => i = (seq + 1)%Z /\ ids_from (seq + 1) ivs'
  end.

(** The row stored for a tuple's [tweet_id] carries the tuple's columns. *)
Definition synced (v : Ingest.values_row) (l : list fact_check) : Prop :=
  exists r, by_tweet_id (Ingest.v_tweet_id v) l = Some r /\
            tweet_url r = Some (Ingest.v_tweet_url v) /\
            note_text r = Ingest.v_note_text v /\
            note_vector r = Some (Ingest.v_note_vector v).

(** Sample data for the examples below: an embedding model with four
    coordinates, which sends the empty text to (1, 1, 1, 1) and any other
    text to (its length, 0, 0, 0), and two helpful notes on two tweets. *)
Definition sample_encode (s : string) : vector :=
  if String.eqb s EmptyString then [1; 1; 1; 1]%float
  else [PrimFloat.of_uint63 (Uint63.of_Z (Z.of_nat (String.length s)));
        0; 0; 0]%float.

Definition sample_notes : list Ingest.note :=
  [ Ingest.mk_note 1 42 (Some "Fact check text"%string) [];
    Ingest.mk_note 2 99 None [] ].

(** A table that already holds tweet 42, enriched, under an older URL and
    an older note; its sequence stands at 5. *)
Definition sample_stale : database :=
  {| rows :=
       [ {| row_id := 5; tweet_id := 42;
            tweet_url := Some "https://x.com/old/42"%string;
            tweet_text := Some "hello"%string;
            tweet_vector := Some (sample_encode "hello");
            note_text := "An older note"%string;
            note_vector := Some (sample_encode "An older note");
            created_at := 3; tweet_format := Some "Text"%string |} ];
     id_seq := 5 |}.

(** The three states of a record with respect to enrichment. *)
Definition fresh (r : fact_check) : Prop :=
  tweet_text r = None /\ tweet_vector r = None /\ tweet_format r = None.

Definition marked_missing (r : fact_check) : Prop :=
  tweet_text r = Some MISSING_OR_DELETED /\ tweet_vector r = None /\
  tweet_format r = Some Missing.

Definition enriched (encode : string -> vector) (r : fact_check) : Prop :=
  exists text fmt,
    tweet_text r = Some text /\ tweet_vector r = Some (encode text) /\
    tweet_format r = Some fmt /\
    (fmt = "Text" \/ fmt = "Photo" \/ fmt = "Video")%string /\
    text <> "MISSING"%string.

Definition row_ok (encode : string -> vector) (r : fact_check) : Prop :=
  fresh r \/ marked_missing r \/ enriched encode r.

(** One committed transaction of the two writers: a run of [ingest_notes.py]
    on some pair of files (to its end or to an exception), or some attempts
    of a pass of [enrich_pairs.py] (each attempt commits, so the process may
    stop between any two). *)
Inductive step (encode : string -> vector) : database -> database -> Prop :=
  | step_ingest now notes_df status_df d :
      step encode d
        (Ingest.result_db (Ingest.main encode now notes_df status_df d))
  | step_enrich api st k :
      step encode (Enrich.db st)
        (Enrich.db (fold_left (Enrich.process_row encode api)
                      (firstn k (Enrich.get_null_rows (Enrich.db st)
                                   Enrich.BATCH_SIZE))
                      st)).

(** The states of the table the Batch Loader and the Enrichment Loop can
    produce from the empty table. *)
Definition reachable (encode : string -> vector) (d : database) : Prop :=
  rtc (step encode) empty_db d.

(** What holds of every reachable table. *)
Definition invariant (encode : string -> vector) (d : database) : Prop :=
  well_formed d /\ forall r, In r (rows d) -> row_ok encode r.

(** Every attempt on a record that needs enrichment gets an answer from the
    content API: not found, or a tweet. *)
Definition resolves (api : nat -> string -> Enrich.http_reply)
    (d : database) : Prop :=
  forall n r, In r (rows d) -> Enrich.needs_enrichment r = true ->
    Enrich.fetch_tweet_details (api n) (tweet_url r) <> None.

(** Number of records the work-selection query can still return. *)
Definition pending (d : database) : nat :=
  length (List.filter Enrich.needs_enrichment (rows d)).

(** The two row updates [update_row] can make, with the arguments [main]
    passes to it. *)
Inductive setter (encode : string -> vector)
  : (fact_check -> fact_check) -> Prop :=
  | setter_missing : setter encode Enrich.set_missing
  | setter_enriched text fmt :
      text <> "MISSING"%string ->
      (fmt = "Text" \/ fmt = "Photo" \/ fmt = "Video")%string ->
      setter encode (Enrich.set_enriched text (encode text) fmt).

(** A row after some attempts: untouched, or no longer in need of
    enrichment and with the URL it had. *)
Definition settled (r r' : fact_check) : Prop :=
  r' = r \/
  (Enrich.needs_enrichment r' = false /\ tweet_url r' = tweet_url r /\
   row_id r' = row_id r).

(** The state after [k] whole passes of the loop. *)
Fixpoint passes (encode : string -> vector)
    (api : nat -> string -> Enrich.http_reply) (k : nat)
    (st : Enrich.loop_state) : Enrich.loop_state :=
  match k with
  | O => st
  | S k' => passes encode api k' (Enrich.enrich_pass encode api st)
  end.

Definition sample_status : list Ingest.note_status :=
  [ Ingest.mk_note_status 1 "CURRENTLY_RATED_HELPFUL";
    Ingest.mk_note_status 2 "CURRENTLY_RATED_HELPFUL" ]%string.

(** The table after one run of the loader on the sample files. *)
Definition sample_loaded : database :=
  Ingest.result_db
    (Ingest.main sample_encode (fun _ => 0%Z) sample_notes sample_status
                 empty_db).

(** Content APIs: every tweet gone; every tweet alive with a given text. *)
Definition api_not_found : nat -> string -> Enrich.http_reply :=
  fun _ _ => Enrich.NotFound.

Definition api_text (text : string) : nat -> string -> Enrich.http_reply :=
  fun _ _ => Enrich.Success (Enrich.mk_tweet_result (Some text) false None).

(** The sample table after the first attempt of a pass under a given API. *)
Definition sample_attempted (api : nat -> string -> Enrich.http_reply)
  : database :=
  Enrich.db
    (fold_left (Enrich.process_row sample_encode api)
       (firstn 1 (Enrich.get_null_rows sample_loaded Enrich.BATCH_SIZE))
       (Enrich.start sample_loaded)).

(** The invariant of the data model as the specification words it: a vector
    exactly when there is a text other than the sentinel string. *)
Definition vector_iff_text_not_sentinel (r : fact_check) : Prop :=
  tweet_vector r <> None <->
  exists t, tweet_text r = Some t /\ t <> MISSING_OR_DELETED.

(** The first sample record once the content API has answered 404 for it. *)
Definition sample_missing_row : fact_check :=
  {| row_id := 1; tweet_id := 42;
     tweet_url := Some "https://twitter.com/i/web/status/42"%string;
     tweet_text := Some MISSING_OR_DELETED; tweet_vector := None;
     note_text := "Fact check text";
     note_vector := Some [15; 0; 0; 0]%float;
     created_at := 0; tweet_format := Some Missing |}.

(** The first sample record as loaded. *)
Definition sample_fresh_row : fact_check :=
  {| row_id := 1; tweet_id := 42;
     tweet_url := Some "https://twitter.com/i/web/status/42"%string;
     tweet_text := None; tweet_vector := None;
     note_text := "Fact check text";
     note_vector := Some [15; 0; 0; 0]%float;
     created_at := 0; tweet_format := None |}.

(** Cosine distance as pgvector's [<=>] computes it, in binary64. *)
Definition dot (a b : vector) : float :=
  fold_left (fun acc xy => (acc + fst xy * snd xy)%float) (zip a b) 0%float.

Definition sample_distance (a b : vector) : float :=
  (1 - dot a b / PrimFloat.sqrt (dot a a * dot b b))%float.

(** The note search hits on the sample table for the query "q". *)
Definition sample_note_hits : list (string * option string * option float) :=
  Query.search_notes sample_distance sample_loaded (sample_encode "q")
                     Query.TOP_K.

(** The first sample record once enriched with the tweet "hello", and the
    claim search hit it gives for the query "q". *)
Definition sample_enriched_row : fact_check :=
  Enrich.set_enriched "hello" (sample_encode "hello") "Text" sample_fresh_row.

Definition sample_hit : Query.search_hit :=
  Query.hit_of
    (sample_enriched_row,
     sample_distance (sample_encode "hello") (sample_encode "q")).



(** The canonical local paths of a day, in [DATASETS] order. *)
Definition canonical_paths (d : Fetcher.ymd) : list string :=
  map (fun ds => Fetcher.local_tsv_path_of d (fst ds)) Fetcher.DATASETS.

(** The name of the first member of an archive that ends in ".tsv". *)
Definition first_tsv (members : list (string * Fetcher.member_data))
  : option string :=
  head (map fst (List.filter (fun m => Fetcher.endswith (fst m) ".tsv")
                             members)).

(** A member at the top level of its archive: no "/" in its name. *)
Fixpoint top_level (name : string) : bool :=
  match name with
  | EmptyString => true
  | String c name' => negb (Ascii.eqb c "/") && top_level name'
  end.





(** A day, an empty staging directory, and an archive that serves something
    that is not a ZIP at the notes ZIP URL of that day and the notes as a
    plain file at the dated URL. *)
Definition sample_day : Fetcher.ymd := Fetcher.mk_ymd "2026" "11" "03".

Definition sample_world : Fetcher.world :=
  {| Fetcher.files := ∅; Fetcher.requested := [] |}.


(** An archive with nothing for the sample day but the legacy plain files. *)
Definition remote_legacy (url : string) : option Fetcher.blob :=
  if String.eqb url (Fetcher.old_tsv_url_of sample_day "notes-00000")
  then Some (Fetcher.Bytes "noteId,tweetId,summary")
  else if String.eqb url
            (Fetcher.old_tsv_url_of sample_day "noteStatusHistory-00000")
  then Some (Fetcher.Bytes "noteId,currentStatus")
  else None.

(** The rows a run of proposals inserts when none of its keys is stored. *)
Definition new_rows_of (ivs : list (Z * Z * Ingest.values_row))
  : list fact_check :=
  map (fun '(i, now, v) => Ingest.new_row i now v) ivs.

(** What the loader leaves of a stored row: its id, its key, its creation
    time and the three columns of the Enrichment Loop. *)
Definition kept_by_loader (r r' : fact_check) : Prop :=
  row_id r' = row_id r /\ tweet_id r' = tweet_id r /\
  created_at r' = created_at r /\ tweet_text r' = tweet_text r /\
  tweet_vector r' = tweet_vector r /\ tweet_format r' = tweet_format r.

(** What the Enrichment Loop leaves of a stored row: everything the loader
    wrote. *)
Definition kept_by_enrichment (r r' : fact_check) : Prop :=
  row_id r' = row_id r /\ tweet_id r' = tweet_id r /\
  tweet_url r' = tweet_url r /\ note_text r' = note_text r /\
  note_vector r' = note_vector r /\ created_at r' = created_at r.

(** Identity of a record: its id and its key. *)
Definition identity (r : fact_check) : Z * Z := (row_id r, tweet_id r).

(** A table grows from [l] to [l']: the rows of [l] are still there, in
    place and related by [R], and new rows may follow. *)
Definition extends (R : fact_check -> fact_check -> Prop)
    (l l' : list fact_check) : Prop :=
  exists l1 l2, l' = l1 ++ l2 /\ Forall2 R l l1.

Definition same_identity (r r' : fact_check) : Prop :=
  identity r' = identity r.

(** A content API that fails every request. *)
Definition api_failing : nat -> string -> Enrich.http_reply :=
  fun _ _ => Enrich.RequestFailed.

(** Records whose stored text is the sentinel string. *)
Definition has_sentinel_text (r : fact_check) : bool :=
  match tweet_text r with
  | Some t => String.eqb t MISSING_OR_DELETED
  | None => false
  end.

(** The second sample record as loaded, the sample table after one whole
    pass in which every tweet reads "hello", and the hit of the second
    record for the query "q". *)
Definition sample_fresh_row2 : fact_check :=
  {| row_id := 2; tweet_id := 99;
     tweet_url := Some "https://twitter.com/i/web/status/99"%string;
     tweet_text := None; tweet_vector := None;
     note_text := "";
     note_vector := Some [1; 1; 1; 1]%float;
     created_at := 0; tweet_format := None |}.

Definition sample_enriched_all : database :=
  Enrich.db (passes sample_encode (api_text "hello") 1
               (Enrich.start sample_loaded)).

Definition sample_hit2 : Query.search_hit :=
  Query.hit_of
    (Enrich.set_enriched "hello" (sample_encode "hello") "Text"
       sample_fresh_row2,
     sample_distance (sample_encode "hello") (sample_encode "q")).

(** What a dataset's canonical path names once the dataset is ready,
    strategy by strategy: the data of the member that [getinfo] finds under
    the name of the first [.tsv] member of the dated ZIP, else the body of
    the dated file, else the body of the legacy file. *)
Definition staged_content (remote : string -> option Fetcher.blob)
    (d : Fetcher.ymd) (base_name subdir : string) : option Fetcher.node :=
  match remote (Fetcher.zip_url_of d base_name subdir) with
  | Some (Fetcher.Zip members) =>
      match first_tsv members with
      | Some name =>
          match Fetcher.getinfo members name with
          | Some (Fetcher.Data data) =>
              Some (Fetcher.File (Fetcher.Bytes data))
          | _ => None
          end
      | None => None
      end
  | Some (Fetcher.Bytes _) => None
  | None =>
      match remote (Fetcher.tsv_url_of d base_name subdir) with
      | Some b => Some (Fetcher.File b)
      | None => Fetcher.File <$> remote (Fetcher.old_tsv_url_of d base_name)
      end
  end.

(** An archive that serves one ZIP, at the notes ZIP URL of the sample
    day. *)
Definition remote_zip (members : list (string * Fetcher.member_data))
    (url : string) : option Fetcher.blob :=
  if String.eqb url (Fetcher.zip_url_of sample_day "notes-00000" "notes")
  then Some (Fetcher.Zip members)
  else None.

(** The notes under the very name the script gives the staged file; a
    well-formed notes ZIP; the notes twice; the notes in a folder named
    like the staged file; the notes under a name that leaves the staging
    directory; damaged notes under the name of the staged file. *)
Definition remote_named_like_target : string -> option Fetcher.blob :=
  remote_zip [("2026-11-03_notes-00000.tsv"%string,
               Fetcher.Data "noteId,tweetId")].

Definition remote_good_zip : string -> option Fetcher.blob :=
  remote_zip [("README.txt"%string, Fetcher.Data "about");
              ("notes-00000.tsv"%string, Fetcher.Data "noteId,tweetId")].

Definition remote_two_members : string -> option Fetcher.blob :=
  remote_zip [("notes-00000.tsv"%string, Fetcher.Data "first");
              ("notes-00000.tsv"%string, Fetcher.Data "second")].

Definition remote_in_folder : string -> option Fetcher.blob :=
  remote_zip [("2026-11-03_notes-00000.tsv/notes-00000.tsv"%string,
               Fetcher.Data "noteId,tweetId")].

Definition remote_outside : string -> option Fetcher.blob :=
  remote_zip [("../notes-00000.tsv"%string, Fetcher.Data "noteId,tweetId")].

Definition remote_damaged : string -> option Fetcher.blob :=
  remote_zip [("2026-11-03_notes-00000.tsv"%string,
               Fetcher.ReadError "noteId")].

(** The notes under an absolute name, and under the name of the staged
    file spelled with a leading ".". *)
Definition remote_absolute : string -> option Fetcher.blob :=
  remote_zip [("/abs/notes-00000.tsv"%string, Fetcher.Data "noteId,tweetId")].

Definition remote_dot_target : string -> option Fetcher.blob :=
  remote_zip [("./2026-11-03_notes-00000.tsv"%string,
               Fetcher.Data "noteId,tweetId")].

(** A staging directory that already holds both files of the sample day;
    and a working directory with a file of its own beside an empty staging
    directory. *)
Definition sample_staged : Fetcher.world :=
  {| Fetcher.files :=
       <[Fetcher.local_tsv_path_of sample_day "notes-00000"
           := Fetcher.File (Fetcher.Bytes "noteId,tweetId")]>
         (<[Fetcher.local_tsv_path_of sample_day "noteStatusHistory-00000"
              := Fetcher.File (Fetcher.Bytes "noteId,currentStatus")]> ∅);
     Fetcher.requested := [] |}.

Definition sample_local_file : Fetcher.world :=
  {| Fetcher.files :=
       <["notes-00000.tsv"%string := Fetcher.File (Fetcher.Bytes "local")]> ∅;
     Fetcher.requested := [] |}.

(** The row stored for a keyword carries the embedding of the keyword. *)
Definition keyword_synced (encode : string -> vector) (kw : string)
    (l : list Keywords.keyword_filter) : Prop :=
  exists r, Keywords.by_keyword kw l = Some r /\
            Keywords.keyword_vector r = Some (encode kw).

Definition empty_keywords : Keywords.keyword_table :=
  {| Keywords.kf_rows := []; Keywords.kf_seq := 0 |}.

End Props.

(* ===================================================================== *)
(** * Properties *)
(* ===================================================================== *)

Import Store Props.

(** ** Filter & Dedup *)

Section FilterDedup.
Import Ingest.

Lemma existsb_eqb_In (t : Z) (seen : list Z) :
  existsb (Z.eqb t) seen = true <-> In t seen.
Proof.
  rewrite existsb_exists. split.
  - intros (x & Hx & Hxt). apply Z.eqb_eq in Hxt. by rewrite Hxt.
  - intros H. exists t. split; [done | apply Z.eqb_refl].
Qed.

Lemma existsb_eqb_not_In (t : Z) (seen : list Z) :
  existsb (Z.eqb t) seen = false <-> ~ In t seen.
Proof.
  rewrite <- existsb_eqb_In. destruct (existsb _ _); split; congruence.
Qed.

(** A repeated row is dropped whatever was seen before. *)
Lemma drop_duplicates_from_twice seen n df :
  drop_duplicates_from seen (n :: n :: df) = drop_duplicates_from seen (n :: df).
Proof.
  simpl. destruct (existsb (Z.eqb (tweetId n)) seen) eqn:E; [done |].
  by rewrite Z.eqb_refl.
Qed.

Lemma drop_duplicates_from_repeat seen n k df :
  drop_duplicates_from seen (repeat n (S k) ++ df)
  = drop_duplicates_from seen (n :: df).
Proof.
  induction k as [|k IH]; [done |].
  change (repeat n (S (S k)) ++ df) with (n :: n :: (repeat n k ++ df)).
  rewrite drop_duplicates_from_twice. exact IH.
Qed.

Lemma map_const_repeat {A B} (x : B) (l : list A) :
  map (fun _ => x) l = repeat x (length l).
Proof. induction l; simpl; congruence. Qed.

Lemma has_helpful_status_filter status_df n :
  has_helpful_status status_df n
  = negb (Nat.eqb (length (List.filter
             (fun s => Z.eqb (status_noteId s) (noteId n))
             (List.filter is_helpful status_df))) 0).
Proof.
  unfold has_helpful_status.
  induction status_df as [|s l IH]; [done |]. simpl.
  destruct (is_helpful s); simpl; [| exact IH].
  destruct (Z.eqb (status_noteId s) (noteId n)); simpl; [done | exact IH].
Qed.

(** Deduplicating the merged frame is deduplicating the surviving notes:
    the repetitions a status file with repeated rows brings in go away. *)
Lemma drop_duplicates_from_join seen notes_df status_df :
  drop_duplicates_from seen (load_and_filter_notes notes_df status_df)
  = drop_duplicates_from seen (survivors notes_df status_df).
Proof.
  unfold load_and_filter_notes, survivors.
  revert seen. induction notes_df as [|n l IH]; intros seen; [done |].
  simpl. rewrite has_helpful_status_filter, map_const_repeat.
  destruct (length _) as [|k]; simpl negb; cbv iota.
  - simpl. apply IH.
  - rewrite drop_duplicates_from_repeat. simpl.
    destruct (existsb _ seen); [apply IH | f_equal; apply IH].
Qed.

Lemma In_drop_duplicates_from seen df r :
  In r (drop_duplicates_from seen df) <->
  ~ In (tweetId r) seen /\ first_for (tweetId r) df = Some r.
Proof.
  unfold first_for. revert seen.
  induction df as [|n l IH]; intros seen; simpl.
  - split; [done | intros [_ ?]; done].
  - destruct (existsb (Z.eqb (tweetId n)) seen) eqn:E.
    + apply existsb_eqb_In in E. rewrite IH.
      destruct (Z.eqb_spec (tweetId n) (tweetId r)) as [Heq|Hne].
      * split; [intros [Hn _]; congruence | intros [Hn _]; congruence].
      * done.
    + apply existsb_eqb_not_In in E. simpl. rewrite IH. simpl.
      destruct (Z.eqb_spec (tweetId n) (tweetId r)) as [Heq|Hne].
      * split.
        -- intros [-> | [Hn _]]; [done | tauto].
        -- intros [Hn [= ->]]. by left.
      * split.
        -- intros [-> | [Hn Hf]]; [done |]. split; [tauto | done].
        -- intros [Hn Hf]. right. split; [| done].
           intros [H | H]; [congruence | done].
Qed.

Lemma NoDup_drop_duplicates_from seen df :
  NoDup (map tweetId (drop_duplicates_from seen df)).
Proof.
  revert seen. induction df as [|n l IH]; intros seen; simpl.
  - constructor.
  - destruct (existsb _ seen) eqn:E; [apply IH |].
    simpl. apply NoDup_cons_2; [| apply IH].
    rewrite list_elem_of_In, in_map_iff. intros (r & Hr & Hin).
    apply In_drop_duplicates_from in Hin as [Hn _].
    apply Hn. left. congruence.
Qed.

(** The deduplicated frame has one row per distinct [tweetId]. *)
Lemma length_drop_duplicates_from seen df :
  length (drop_duplicates_from seen df)
  = size (list_to_set (map tweetId df) ∖ list_to_set seen : gset Z).
Proof.
  revert seen. induction df as [|n l IH]; intros seen; simpl.
  - replace (∅ ∖ list_to_set seen : gset Z) with (∅ : gset Z) by set_solver.
    by rewrite size_empty.
  - destruct (existsb _ seen) eqn:E.
    + apply existsb_eqb_In in E. rewrite IH. f_equal.
      apply set_eq. intros x. rewrite !elem_of_difference, elem_of_union,
        elem_of_singleton, !elem_of_list_to_set, !list_elem_of_In.
      split; [tauto |]. intros [[-> | H] Hn]; tauto.
    + apply existsb_eqb_not_In in E. simpl. rewrite IH.
      replace (({[tweetId n]} ∪ list_to_set (map tweetId l)) ∖ list_to_set seen : gset Z)
        with ({[tweetId n]} ∪
              (list_to_set (map tweetId l) ∖ list_to_set (tweetId n :: seen)) : gset Z).
      * rewrite (size_union ({[tweetId n]} : gset Z)), size_singleton; [done |].
        simpl. set_solver.
      * apply set_eq. intros x. simpl.
        rewrite !elem_of_union, !elem_of_difference, !elem_of_union,
          !elem_of_singleton, !elem_of_list_to_set, !list_elem_of_In.
        destruct (decide (x = tweetId n)) as [-> | Hne]; [tauto |]. tauto.
Qed.

Lemma In_load_and_filter_notes notes_df status_df n :
  In n (load_and_filter_notes notes_df status_df) <->
  In n notes_df /\
  exists s, In s status_df /\ status_noteId s = noteId n /\
            currentStatus s = "CURRENTLY_RATED_HELPFUL"%string.
Proof.
  unfold load_and_filter_notes. rewrite in_flat_map. split.
  - intros (m & Hm & Hin). apply in_map_iff in Hin as (s & <- & Hs).
    apply filter_In in Hs as [Hs Hid]. apply filter_In in Hs as [Hs Hh].
    split; [done |]. exists s. repeat split; [done | by apply Z.eqb_eq |].
    by apply String.eqb_eq.
  - intros (Hn & s & Hs & Hid & Hh). exists n. split; [done |].
    apply in_map_iff. exists s. split; [done |].
    apply filter_In. split; [| by apply Z.eqb_eq].
    apply filter_In. split; [done |]. by apply String.eqb_eq.
Qed.

Lemma filter_and_dedup_survivors notes_df status_df :
  filter_and_dedup notes_df status_df
  = drop_duplicates (survivors notes_df status_df).
Proof.
  unfold filter_and_dedup, drop_duplicates.
  rewrite <- drop_duplicates_from_join.
  destruct (load_and_filter_notes notes_df status_df); done.
Qed.

Lemma first_for_Some t df :
  In t (map tweetId df) -> exists r, first_for t df = Some r /\ tweetId r = t.
Proof.
  unfold first_for. induction df as [|n l IH]; simpl; [done |].
  destruct (Z.eqb_spec (tweetId n) t) as [Heq|Hne].
  - intros _. by exists n.
  - intros [H | H]; [done | by apply IH].
Qed.

(** C5: Filter & Dedup keeps exactly the notes that have a
    CURRENTLY_RATED_HELPFUL status row (inner join), then keeps, for each
    tweetId, the first surviving note in input order: for N surviving
    notes with M <= N distinct tweetIds the output has exactly M rows, one
    per tweetId, each the first occurrence for its tweetId. *)
Theorem filter_and_dedup_correct
    (notes_df : list note) (status_df : list note_status) :
  let kept := survivors notes_df status_df in
  let out := filter_and_dedup notes_df status_df in
  let M := size (list_to_set (map tweetId kept) : gset Z) in
  (forall n, In n (load_and_filter_notes notes_df status_df) <->
             In n notes_df /\
             exists s, In s status_df /\ status_noteId s = noteId n /\
                       currentStatus s = "CURRENTLY_RATED_HELPFUL"%string) /\
  (forall n, In n kept <-> In n (load_and_filter_notes notes_df status_df)) /\
  out = drop_duplicates kept /\
  length out = M /\ M <= length kept /\
  NoDup (map tweetId out) /\
  (forall r, In r out <-> first_for (tweetId r) kept = Some r) /\
  (forall t, In t (map tweetId kept) ->
             exists r, In r out /\ tweetId r = t).
Proof.
  intros kept out M. subst kept out M.
  rewrite filter_and_dedup_survivors. unfold drop_duplicates.
  split_and!.
  - intros n. apply In_load_and_filter_notes.
  - intros n. rewrite In_load_and_filter_notes.
    unfold survivors. rewrite filter_In. unfold has_helpful_status.
    rewrite existsb_exists. split.
    + intros (Hn & s & Hs & Hb). apply andb_true_iff in Hb as [Hh Hid].
      split; [done |]. exists s.
      split_and!; [done | by apply Z.eqb_eq | by apply String.eqb_eq].
    + intros (Hn & s & Hs & Hid & Hh). split; [done |]. exists s.
      split; [done |]. apply andb_true_iff.
      split; [by apply String.eqb_eq | by apply Z.eqb_eq].
  - done.
  - rewrite length_drop_duplicates_from. f_equal. set_solver.
  - rewrite <- (length_map tweetId).
    generalize (map tweetId (survivors notes_df status_df)).
    intros l. induction l as [|x l IH].
    + rewrite list_to_set_nil, size_empty. done.
    + rewrite list_to_set_cons, size_union_alt, size_singleton.
      assert (size (list_to_set l ∖ {[x]} : gset Z) <= size (list_to_set l : gset Z))
        by (apply subseteq_size; set_solver).
      simpl. lia.
  - apply NoDup_drop_duplicates_from.
  - intros r. rewrite In_drop_duplicates_from. simpl. tauto.
  - intros t Ht. destruct (first_for_Some t _ Ht) as (r & Hr & <-).
    exists r. split; [| done]. apply In_drop_duplicates_from.
    split; [by intros [] | done].
Qed.
End FilterDedup.

(** ** Batch Loader *)

Section Chunks.
Context {A : Type}.

Lemma firstn_plus (a b : nat) (l : list A) :
  firstn (a + b) l = firstn a l ++ firstn b (skipn a l).
Proof.
  revert l. induction a as [|a IH]; intros l; [done |].
  destruct l as [|x l]; simpl.
  - by destruct b.
  - f_equal. apply IH.
Qed.

Lemma slice_chunk (a size : nat) (l : list A) :
  Ingest.slice a (Nat.min (a + size) (length l)) l = firstn size (skipn a l).
Proof.
  unfold Ingest.slice.
  destruct (Nat.le_gt_cases (a + size) (length l)) as [Hle|Hgt].
  - rewrite Nat.min_l by done. f_equal. lia.
  - rewrite Nat.min_r by lia.
    rewrite !firstn_all2; [done | |]; rewrite length_skipn; lia.
Qed.

Lemma concat_slices (size n : nat) (l : list A) :
  concat (map (fun k => Ingest.slice (k * size)
                          (Nat.min (k * size + size) (length l)) l)
              (seq 0 n))
  = firstn (n * size) l.
Proof.
  induction n as [|n IH]; [done |].
  rewrite seq_S, map_app, concat_app, IH. simpl.
  rewrite app_nil_r, slice_chunk.
  replace (size + n * size) with (n * size + size) by lia.
  by rewrite firstn_plus.
Qed.

(** The chunks of a frame, put together, are the frame. *)
Lemma concat_chunks (size : nat) (l : list A) :
  0 < size -> concat (Ingest.chunks size l) = l.
Proof.
  intros Hsize. unfold Ingest.chunks. rewrite concat_slices.
  apply firstn_all2.
  pose proof (Nat.div_mod_eq (length l + size - 1) size) as Hdiv.
  pose proof (Nat.mod_upper_bound (length l + size - 1) size) as Hmod.
  nia.
Qed.
End Chunks.

Section Upsert.
Import Ingest.

Lemma by_tweet_id_upsert_eq i now v l :
  by_tweet_id (v_tweet_id v) (upsert i now v l)
  = Some (match by_tweet_id (v_tweet_id v) l with
          | Some r => do_update v r
          | None => new_row i now v
          end).
Proof.
  unfold by_tweet_id. induction l as [|r l IH]; simpl.
  - by rewrite Z.eqb_refl.
  - destruct (Z.eqb_spec (tweet_id r) (v_tweet_id v)) as [Heq|Hne]; simpl.
    + by rewrite Heq, Z.eqb_refl.
    + destruct (Z.eqb_spec (tweet_id r) (v_tweet_id v)); [done | exact IH].
Qed.

Lemma by_tweet_id_upsert_ne i now v l t :
  t <> v_tweet_id v ->
  by_tweet_id t (upsert i now v l) = by_tweet_id t l.
Proof.
  intros Hne. unfold by_tweet_id. induction l as [|r l IH]; simpl.
  - destruct (Z.eqb_spec (v_tweet_id v) t); [congruence | done].
  - destruct (Z.eqb_spec (tweet_id r) (v_tweet_id v)) as [Heq|Hne']; simpl.
    + destruct (Z.eqb_spec (tweet_id r) t); [congruence | done].
    + destruct (Z.eqb_spec (tweet_id r) t); [done | exact IH].
Qed.

Lemma upsert_synced i now v l : synced v (upsert i now v l).
Proof.
  eexists. split; [apply by_tweet_id_upsert_eq |].
  by destruct (by_tweet_id (v_tweet_id v) l).
Qed.

Lemma upsert_keeps_synced i now v w l :
  v_tweet_id w <> v_tweet_id v -> synced w l -> synced w (upsert i now v l).
Proof.
  intros Hne (r & Hr & H). exists r. split; [| done].
  by rewrite by_tweet_id_upsert_ne.
Qed.

(** Proposing a tuple the table already reflects changes no row. *)
Lemma upsert_synced_id i now v l : synced v l -> upsert i now v l = l.
Proof.
  intros (r & Hr & Hurl & Htext & Hvec). unfold by_tweet_id in Hr.
  induction l as [|r' l IH]; simpl in *; [done |].
  destruct (Z.eqb_spec (tweet_id r') (v_tweet_id v)) as [Heq|Hne].
  - injection Hr as ->. f_equal. destruct r; simpl in *.
    unfold do_update; simpl. congruence.
  - f_equal. by apply IH.
Qed.

Lemma upsert_length i now v l :
  length (upsert i now v l)
  = match by_tweet_id (v_tweet_id v) l with
    | Some _ => length l
    | None => S (length l)
    end.
Proof.
  unfold by_tweet_id. induction l as [|r l IH]; simpl; [done |].
  destruct (Z.eqb_spec (tweet_id r) (v_tweet_id v)); simpl; [done |].
  rewrite IH. by destruct (find _ l).
Qed.

Lemma by_tweet_id_None t l : by_tweet_id t l = None <-> ~ In t (map tweet_id l).
Proof.
  unfold by_tweet_id. induction l as [|r l IH]; simpl; [tauto |].
  destruct (Z.eqb_spec (tweet_id r) t); [split; [done | tauto] |].
  rewrite IH. tauto.
Qed.

(** The keys after an upsert: the old ones, plus the proposed key when it
    is new; the ids: the old ones, plus the drawn id in that case. *)
Lemma upsert_tweet_ids i now v l :
  map tweet_id (upsert i now v l)
  = match by_tweet_id (v_tweet_id v) l with
    | Some _ => map tweet_id l
    | None => map tweet_id l ++ [v_tweet_id v]
    end.
Proof.
  unfold by_tweet_id. induction l as [|r l IH]; simpl; [done |].
  destruct (Z.eqb_spec (tweet_id r) (v_tweet_id v)); simpl; [done |].
  rewrite IH. by destruct (find _ l).
Qed.

Lemma upsert_row_ids i now v l :
  map row_id (upsert i now v l)
  = match by_tweet_id (v_tweet_id v) l with
    | Some _ => map row_id l
    | None => map row_id l ++ [i]
    end.
Proof.
  unfold by_tweet_id. induction l as [|r l IH]; simpl; [done |].
  destruct (Z.eqb_spec (tweet_id r) (v_tweet_id v)); simpl; [done |].
  rewrite IH. by destruct (find _ l).
Qed.

Lemma upsert_list_app ivs1 ivs2 l :
  upsert_list (ivs1 ++ ivs2) l = upsert_list ivs2 (upsert_list ivs1 l).
Proof. apply fold_left_app. Qed.

Lemma upsert_list_keeps_synced ivs w l :
  ~ In (v_tweet_id w) (map (fun iv => v_tweet_id (snd iv)) ivs) ->
  synced w l -> synced w (upsert_list ivs l).
Proof.
  revert l. induction ivs as [|[[i now] v] ivs IH]; intros l Hn Hs; [done |].
  simpl in *. apply IH; [tauto |]. apply upsert_keeps_synced; [| done].
  intros Heq. apply Hn. by left.
Qed.

(** After a run of proposals with distinct keys every tuple is reflected. *)
Lemma upsert_list_synced ivs l v :
  NoDup (map (fun iv => v_tweet_id (snd iv)) ivs) ->
  In v (map snd ivs) -> synced v (upsert_list ivs l).
Proof.
  revert l. induction ivs as [|[[i now] w] ivs IH]; intros l Hnd Hin; [done |].
  simpl in *. apply NoDup_cons in Hnd as [Hw Hnd].
  destruct Hin as [-> | Hin].
  - apply upsert_list_keeps_synced; [| apply upsert_synced].
    by rewrite <- list_elem_of_In.
  - by apply IH.
Qed.

(** Proposing tuples the table already reflects changes no row. *)
Lemma upsert_list_synced_id ivs l :
  (forall v, In v (map snd ivs) -> synced v l) -> upsert_list ivs l = l.
Proof.
  induction ivs as [|[[i now] w] ivs IH]; intros Hs; [done |].
  simpl in *. rewrite upsert_synced_id by (apply Hs; by left).
  apply IH. intros v Hv. apply Hs. by right.
Qed.
End Upsert.

Section Statements.
Import Ingest.

Lemma stamp_app now seq a b :
  stamp now seq (a ++ b)
  = stamp now seq a ++ stamp now (seq + Z.of_nat (length a)) b.
Proof.
  revert seq. induction a as [|v a IH]; intros seq; simpl.
  - by rewrite Z.add_0_r.
  - rewrite IH. do 3 f_equal. lia.
Qed.

Lemma stamp_values now seq vals : map snd (stamp now seq vals) = vals.
Proof. revert seq. induction vals; intros; simpl; [done | by f_equal]. Qed.

Lemma stamp_length now seq vals : length (stamp now seq vals) = length vals.
Proof. revert seq. induction vals; intros; simpl; [done | by f_equal]. Qed.

Lemma stamp_ids_from now seq vals : ids_from seq (stamp now seq vals).
Proof. revert seq. induction vals; intros; simpl; [done | by split]. Qed.

Lemma ids_from_app seq a b :
  ids_from seq a -> ids_from (seq + Z.of_nat (length a)) b ->
  ids_from seq (a ++ b).
Proof.
  revert seq. induction a as [|[[i now] v] a IH]; intros seq Ha Hb; simpl in *.
  - by rewrite Z.add_0_r in Hb.
  - destruct Ha as [-> Ha]. split; [done |]. apply IH; [done |].
    replace (seq + 1 + Z.of_nat (length a))%Z
      with (seq + Z.pos (Pos.of_succ_nat (length a)))%Z by lia.
    done.
Qed.

(** What one statement returns: all proposals applied in order, or an
    error; the sequence only moves forward. *)
Lemma insert_statement_result now vals touched l seq :
  match insert_statement now vals touched l seq with
  | (Some l', seq') =>
      l' = upsert_list (stamp now seq vals) l /\
      seq' = (seq + Z.of_nat (length vals))%Z
  | (None, seq') => (seq <= seq')%Z
  end.
Proof.
  revert touched l seq. induction vals as [|v vals IH]; intros touched l seq.
  - simpl. split; [done | lia].
  - cbn [insert_statement].
    destruct (existsb _ touched); [lia |].
    specialize (IH (v_tweet_id v :: touched) (upsert (seq + 1) now v l)
                   (seq + 1)%Z).
    destruct (insert_statement _ _ _ _ _) as [[l'|] seq'].
    + destruct IH as [-> ->]. split; [done |]. simpl length. lia.
    + lia.
Qed.

(** A statement whose keys are distinct does not raise. *)
Lemma insert_statement_succeeds now vals touched l seq :
  NoDup (map v_tweet_id vals) ->
  (forall v, In v vals -> ~ In (v_tweet_id v) touched) ->
  is_Some (fst (insert_statement now vals touched l seq)).
Proof.
  revert touched l seq. induction vals as [|v vals IH];
    intros touched l seq Hnd Hfresh; [by eexists |].
  cbn [insert_statement]. simpl in Hnd. apply NoDup_cons in Hnd as [Hv Hnd].
  destruct (existsb _ touched) eqn:E.
  - apply existsb_eqb_In in E. exfalso. eapply Hfresh; [by left | done].
  - apply IH; [done |]. intros w Hw [Heq | Hin].
    + apply Hv. rewrite list_elem_of_In, in_map_iff. by exists w.
    + eapply Hfresh; [by right | done].
Qed.

Lemma execute_pages_result now pages l seq :
  match execute_pages now pages l seq with
  | (Some l', seq') =>
      l' = upsert_list (stamp now seq (concat pages)) l /\
      seq' = (seq + Z.of_nat (length (concat pages)))%Z
  | (None, seq') => (seq <= seq')%Z
  end.
Proof.
  revert l seq. induction pages as [|p pages IH]; intros l seq.
  - simpl. split; [done | lia].
  - cbn [execute_pages concat].
    pose proof (insert_statement_result now p [] l seq) as Hp.
    destruct (insert_statement now p [] l seq) as [[l1|] seq1]; [| done].
    destruct Hp as [-> ->].
    specialize (IH (upsert_list (stamp now seq p) l)
                   (seq + Z.of_nat (length p))%Z).
    destruct (execute_pages _ _ _ _) as [[l2|] seq2].
    + destruct IH as [-> ->].
      rewrite stamp_app, upsert_list_app, length_app. split; [done | lia].
    + lia.
Qed.

Lemma execute_pages_succeeds now pages l seq :
  NoDup (map v_tweet_id (concat pages)) ->
  is_Some (fst (execute_pages now pages l seq)).
Proof.
  revert l seq. induction pages as [|p pages IH]; intros l seq Hnd;
    [by eexists |].
  cbn [execute_pages]. simpl in Hnd. rewrite map_app in Hnd.
  apply NoDup_app in Hnd as (Hp & _ & Hrest).
  pose proof (insert_statement_succeeds now p [] l seq Hp
                (fun _ _ H => H)) as [l1 Hl1].
  destruct (insert_statement now p [] l seq) as [[l1'|] seq1]; [| done].
  by apply IH.
Qed.

(** [insert_batch] on tuples with distinct keys: every tuple is proposed
    in order with the next ids of the sequence. *)
Lemma insert_batch_distinct now vals l seq :
  NoDup (map v_tweet_id vals) ->
  insert_batch now vals l seq
  = (Some (upsert_list (stamp now seq vals) l),
     (seq + Z.of_nat (length vals))%Z).
Proof.
  intros Hnd. unfold insert_batch.
  assert (Hc : concat (chunks page_size vals) = vals)
    by (apply concat_chunks; unfold page_size; lia).
  pose proof (execute_pages_result now (chunks page_size vals) l seq) as Hr.
  pose proof (execute_pages_succeeds now (chunks page_size vals) l seq) as Hs.
  rewrite Hc in Hr, Hs. specialize (Hs Hnd).
  destruct (execute_pages _ _ _ _) as [[l'|] seq'].
  - destruct Hr as [-> ->]. done.
  - by destruct Hs.
Qed.

Lemma insert_batch_result now vals l seq :
  match insert_batch now vals l seq with
  | (Some l', seq') =>
      l' = upsert_list (stamp now seq vals) l /\
      seq' = (seq + Z.of_nat (length vals))%Z
  | (None, seq') => (seq <= seq')%Z
  end.
Proof.
  unfold insert_batch.
  pose proof (execute_pages_result now (chunks page_size vals) l seq) as Hr.
  rewrite concat_chunks in Hr by (unfold page_size; lia). exact Hr.
Qed.
End Statements.

Section BatchLoader.
Import Ingest.
Variable encode : string -> vector.

Lemma batch_data_of_values batch_df :
  batch_data_of encode batch_df = map (values_of encode) batch_df.
Proof.
  unfold batch_data_of, generate_embeddings_batch.
  induction batch_df as [|n l IH]; [done |].
  simpl. f_equal. exact IH.
Qed.

Lemma values_of_keys l :
  map v_tweet_id (map (values_of encode) l) = map tweetId l.
Proof. induction l; simpl; [done | by f_equal]. Qed.

(** A run of the loader in general: the committed batches, proposed in
    order with consecutive ids; the sequence only moves forward. *)
Lemma load_batches_result now k batches d :
  exists ivs,
    rows (result_db (load_batches encode now k batches d))
    = upsert_list ivs (rows d) /\
    ids_from (id_seq d) ivs /\
    (id_seq d + Z.of_nat (length ivs)
     <= id_seq (result_db (load_batches encode now k batches d)))%Z.
Proof.
  revert k d. induction batches as [|b batches IH]; intros k d.
  - exists []. simpl. split_and!; [done | done | lia].
  - cbn [load_batches].
    pose proof (insert_batch_result (now k) (batch_data_of encode b)
                  (rows d) (id_seq d)) as Hb.
    destruct (insert_batch _ _ _ _) as [[l'|] seq'].
    + destruct Hb as [-> ->].
      destruct (IH (S k) {| rows := upsert_list
                              (stamp (now k) (id_seq d) (batch_data_of encode b))
                              (rows d);
                            id_seq := id_seq d
                              + Z.of_nat (length (batch_data_of encode b)) |})
        as (ivs & Hrows & Hids & Hseq).
      simpl in Hrows, Hids, Hseq.
      exists (stamp (now k) (id_seq d) (batch_data_of encode b) ++ ivs).
      split_and!.
      * by rewrite upsert_list_app.
      * apply ids_from_app; [apply stamp_ids_from |].
        by rewrite stamp_length.
      * rewrite length_app, stamp_length. lia.
    + exists []. simpl. split_and!; [done | done | lia].
Qed.

(** On notes with distinct tweetIds every batch commits. *)
Lemma load_batches_distinct now k batches d :
  NoDup (map tweetId (concat batches)) ->
  exists ivs,
    load_batches encode now k batches d
    = Committed {| rows := upsert_list ivs (rows d);
                   id_seq := id_seq d + Z.of_nat (length ivs) |} /\
    map snd ivs = map (values_of encode) (concat batches) /\
    ids_from (id_seq d) ivs.
Proof.
  revert k d. induction batches as [|b batches IH]; intros k d Hnd.
  - exists []. simpl. rewrite Z.add_0_r. by destruct d.
  - cbn [load_batches]. simpl in Hnd. rewrite map_app in Hnd.
    apply NoDup_app in Hnd as (Hb & _ & Hrest).
    rewrite insert_batch_distinct
      by (by rewrite batch_data_of_values, values_of_keys).
    destruct (IH (S k) {| rows := upsert_list
                            (stamp (now k) (id_seq d) (batch_data_of encode b))
                            (rows d);
                          id_seq := id_seq d
                            + Z.of_nat (length (batch_data_of encode b)) |}
                 Hrest) as (ivs & -> & Hvals & Hids).
    cbn [rows id_seq] in Hids |- *.
    exists (stamp (now k) (id_seq d) (batch_data_of encode b) ++ ivs).
    split_and!.
    + rewrite upsert_list_app, length_app, stamp_length. do 2 f_equal. lia.
    + cbn [concat].
      rewrite !map_app, stamp_values, batch_data_of_values.
      f_equal. exact Hvals.
    + apply ids_from_app; [apply stamp_ids_from |]. by rewrite stamp_length.
Qed.

Lemma batch_loader_distinct now helpful_notes d :
  NoDup (map tweetId helpful_notes) ->
  exists ivs,
    batch_loader encode now helpful_notes d
    = Committed {| rows := upsert_list ivs (rows d);
                   id_seq := id_seq d + Z.of_nat (length ivs) |} /\
    map snd ivs = map (values_of encode) helpful_notes /\
    ids_from (id_seq d) ivs.
Proof.
  intros Hnd. unfold batch_loader.
  pose proof (load_batches_distinct now 0 (chunks BATCH_SIZE helpful_notes) d)
    as H.
  rewrite concat_chunks in H by (unfold BATCH_SIZE; lia). by apply H.
Qed.

Lemma stamped_keys (ivs : list (Z * Z * values_row)) :
  map (fun iv => v_tweet_id (snd iv)) ivs = map v_tweet_id (map snd ivs).
Proof. by rewrite map_map. Qed.

Lemma by_tweet_id_upsert_list_ne ivs l t :
  ~ In t (map (fun iv => v_tweet_id (snd iv)) ivs) ->
  by_tweet_id t (upsert_list ivs l) = by_tweet_id t l.
Proof.
  revert l. induction ivs as [|[[i now] v] ivs IH]; intros l Hn; [done |].
  simpl in *. rewrite IH by tauto. apply by_tweet_id_upsert_ne.
  intros ->. apply Hn. by left.
Qed.

(** The row a run of distinct proposals leaves for one of its tuples: the
    existing row with the three columns overwritten, or the new row. *)
Lemma by_tweet_id_upsert_list ivs l i now v :
  NoDup (map (fun iv => v_tweet_id (snd iv)) ivs) ->
  In (i, now, v) ivs ->
  by_tweet_id (v_tweet_id v) (upsert_list ivs l)
  = Some (match by_tweet_id (v_tweet_id v) l with
          | Some r => do_update v r
          | None => new_row i now v
          end).
Proof.
  revert l. induction ivs as [|[[j t] w] ivs IH]; intros l Hnd Hin; [done |].
  simpl in Hnd. apply NoDup_cons in Hnd as [Hw Hnd].
  rewrite list_elem_of_In in Hw. destruct Hin as [[= -> -> ->] | Hin].
  - simpl. rewrite by_tweet_id_upsert_list_ne by done.
    apply by_tweet_id_upsert_eq.
  - simpl. rewrite IH by done.
    rewrite by_tweet_id_upsert_ne; [done |].
    intros Heq. apply Hw. apply in_map_iff. exists (i, now, v).
    by split.
Qed.

Lemma upsert_list_NoDup ivs l :
  NoDup (map tweet_id l) -> NoDup (map tweet_id (upsert_list ivs l)).
Proof.
  revert l. induction ivs as [|[[i now] v] ivs IH]; intros l Hnd; [done |].
  simpl. apply IH. rewrite upsert_tweet_ids.
  destruct (by_tweet_id (v_tweet_id v) l) eqn:E; [done |].
  apply by_tweet_id_None in E. apply NoDup_app. split_and!; [done | |].
  - intros x Hx Hx'. apply list_elem_of_In in Hx.
    apply list_elem_of_In in Hx' as [<- | []]. done.
  - apply NoDup_singleton.
Qed.
End BatchLoader.

Section BatchLoaderIdempotence.
Import Ingest.
Variable encode : string -> vector.

(** C2: on deduplicated input the Batch Loader commits, and running it a
    second time on the same input leaves the same rows (same count, same
    contents): each input row is upserted on its tweet_id, which inserts a
    new record or overwrites tweet_url, note_text and note_vector of the
    existing one, and never creates a second row for a tweet_id.  After
    the first run the record of each input row has the row's URL, its note
    and the embedding of the note; an existing record keeps its id, its
    creation time and its three enrichment columns, a new one has the
    enrichment columns NULL; the records of other tweets are untouched. *)
Theorem batch_loader_idempotent
    (now1 now2 : nat -> Z) (helpful_notes : list note) (d : database) :
  NoDup (map tweetId helpful_notes) ->
  exists d1 d2,
    batch_loader encode now1 helpful_notes d = Committed d1 /\
    batch_loader encode now2 helpful_notes d1 = Committed d2 /\
    rows d2 = rows d1 /\
    length (rows d2) = length (rows d1) /\
    (NoDup (map tweet_id (rows d)) -> NoDup (map tweet_id (rows d1))) /\
    (forall t, ~ In t (map tweetId helpful_notes) ->
               by_tweet_id t (rows d1) = by_tweet_id t (rows d)) /\
    (forall n, In n helpful_notes ->
       exists r, by_tweet_id (tweetId n) (rows d1) = Some r /\
         tweet_id r = tweetId n /\
         tweet_url r = Some (tweet_url_of (tweetId n)) /\
         note_text r = fillna (summary n) /\
         note_vector r = Some (encode (fillna (summary n))) /\
         match by_tweet_id (tweetId n) (rows d) with
         | Some r0 =>
             r = do_update (values_of encode n) r0 /\
             row_id r = row_id r0 /\ created_at r = created_at r0 /\
             tweet_text r = tweet_text r0 /\
             tweet_vector r = tweet_vector r0 /\
             tweet_format r = tweet_format r0
         | None =>
             (exists i now, r = new_row i now (values_of encode n)) /\
             tweet_text r = None /\ tweet_vector r = None /\
             tweet_format r = None
         end).
Proof.
  intros Hnd.
  destruct (batch_loader_distinct encode now1 helpful_notes d Hnd)
    as (ivs1 & Hrun1 & Hvals1 & _).
  set (d1 := {| rows := upsert_list ivs1 (rows d);
                id_seq := id_seq d + Z.of_nat (length ivs1) |}) in *.
  destruct (batch_loader_distinct encode now2 helpful_notes d1 Hnd)
    as (ivs2 & Hrun2 & Hvals2 & _).
  assert (Hkeys1 : NoDup (map (fun iv => v_tweet_id (snd iv)) ivs1))
    by (by rewrite stamped_keys, Hvals1, values_of_keys).
  assert (Hsame : upsert_list ivs2 (rows d1) = rows d1).
  { apply upsert_list_synced_id. intros v Hv. simpl.
    apply upsert_list_synced; [done |]. by rewrite Hvals1, <- Hvals2. }
  eexists d1, _. split_and!; [exact Hrun1 | exact Hrun2 | exact Hsame | | | |].
  - exact (f_equal length Hsame).
  - apply upsert_list_NoDup.
  - intros t Ht. simpl. apply by_tweet_id_upsert_list_ne.
    by rewrite stamped_keys, Hvals1, values_of_keys.
  - intros n Hn.
    assert (Hv : In (values_of encode n) (map snd ivs1))
      by (rewrite Hvals1; by apply in_map).
    apply in_map_iff in Hv as ([[i now] v] & Hv & Hin). simpl in Hv. subst v.
    pose proof (by_tweet_id_upsert_list ivs1 (rows d) i now _ Hkeys1 Hin) as E.
    simpl in E |- *. rewrite E. eexists. split; [done |].
    destruct (by_tweet_id (tweetId n) (rows d)) as [r0|] eqn:E0.
    + apply find_some in E0 as [_ Hkey]. apply Z.eqb_eq in Hkey.
      cbn [do_update values_of tweet_id tweet_url note_text note_vector
           row_id created_at tweet_text tweet_vector tweet_format
           v_tweet_url v_note_text v_note_vector].
      by split_and!.
    + cbn [new_row values_of tweet_id tweet_url note_text note_vector
           tweet_text tweet_vector tweet_format
           v_tweet_id v_tweet_url v_note_text v_note_vector].
      split_and!; try done. by eexists _, _.
Qed.

Lemma NoDup_sample_notes : NoDup (map tweetId sample_notes).
Proof. apply (bool_decide_unpack _). by vm_compute. Defined.

(** Without the deduplication two notes on one tweet meet in one INSERT
    statement, which raises: nothing is committed. *)
Example duplicate_key_raises :
  batch_loader sample_encode (fun _ => 0%Z)
    [mk_note 1 42 (Some "first"%string) []; mk_note 2 42 (Some "second"%string) []]
    empty_db
  = Crashed {| rows := []; id_seq := 2 |}.
Proof. vm_compute. reflexivity. Qed.
End BatchLoaderIdempotence.

Lemma batch_loader_idempotent_witness :
  exists d1 d2,
    Ingest.batch_loader sample_encode (fun _ => 0%Z) sample_notes sample_stale
      = Ingest.Committed d1 /\
    Ingest.batch_loader sample_encode (fun _ => 1%Z) sample_notes d1
      = Ingest.Committed d2 /\
    rows d2 = rows d1 /\
    length (rows d2) = length (rows d1) /\
    (NoDup (map tweet_id (rows sample_stale)) ->
     NoDup (map tweet_id (rows d1))) /\
    (forall t, ~ In t (map Ingest.tweetId sample_notes) ->
               by_tweet_id t (rows d1) = by_tweet_id t (rows sample_stale)) /\
    (forall n, In n sample_notes ->
       exists r, by_tweet_id (Ingest.tweetId n) (rows d1) = Some r /\
         tweet_id r = Ingest.tweetId n /\
         tweet_url r = Some (Ingest.tweet_url_of (Ingest.tweetId n)) /\
         note_text r = Ingest.fillna (Ingest.summary n) /\
         note_vector r
         = Some (sample_encode (Ingest.fillna (Ingest.summary n))) /\
         match by_tweet_id (Ingest.tweetId n) (rows sample_stale) with
         | Some r0 =>
             r = Ingest.do_update (values_of sample_encode n) r0 /\
             row_id r = row_id r0 /\ created_at r = created_at r0 /\
             tweet_text r = tweet_text r0 /\
             tweet_vector r = tweet_vector r0 /\
             tweet_format r = tweet_format r0
         | None =>
             (exists i now,
                r = Ingest.new_row i now (values_of sample_encode n)) /\
             tweet_text r = None /\ tweet_vector r = None /\
             tweet_format r = None
         end).
Proof.
  apply (batch_loader_idempotent sample_encode (fun _ => 0%Z) (fun _ => 1%Z)
           sample_notes sample_stale).
  apply NoDup_sample_notes.
Defined.

(** On the table above the loader rewrites the three columns of the record
    of tweet 42, keeps its id, its creation time and its enrichment, and
    appends a record for tweet 99. *)
Example reload_overwrites_loader_columns :
  Ingest.result_db
    (Ingest.batch_loader sample_encode (fun _ => 7%Z) sample_notes sample_stale)
  = {| rows :=
         [ {| row_id := 5; tweet_id := 42;
              tweet_url := Some "https://twitter.com/i/web/status/42"%string;
              tweet_text := Some "hello"%string;
              tweet_vector := Some (sample_encode "hello");
              note_text := "Fact check text"%string;
              note_vector := Some (sample_encode "Fact check text");
              created_at := 3; tweet_format := Some "Text"%string |};
           {| row_id := 7; tweet_id := 99;
              tweet_url := Some "https://twitter.com/i/web/status/99"%string;
              tweet_text := None; tweet_vector := None;
              note_text := ""%string;
              note_vector := Some (sample_encode "");
              created_at := 7; tweet_format := None |} ];
       id_seq := 7 |}.
Proof. vm_compute. reflexivity. Qed.

(** ** Reachable tables *)

Section IngestInvariant.
Import Ingest.
Variable encode : string -> vector.

Lemma row_ok_do_update v r : row_ok encode r -> row_ok encode (do_update v r).
Proof. unfold row_ok, fresh, marked_missing, enriched. by destruct r. Qed.

Lemma row_ok_new_row i now v : row_ok encode (new_row i now v).
Proof. left. by repeat split. Qed.

Lemma row_ok_upsert i now v l :
  (forall r, In r l -> row_ok encode r) ->
  forall r, In r (upsert i now v l) -> row_ok encode r.
Proof.
  induction l as [|r0 l IH]; intros Hl r; simpl.
  - intros [<- | []]. apply row_ok_new_row.
  - destruct (Z.eqb (tweet_id r0) (v_tweet_id v)).
    + intros [<- | Hin].
      * apply row_ok_do_update, Hl. by left.
      * apply Hl. by right.
    + intros [<- | Hin].
      * apply Hl. by left.
      * apply IH; [| done]. intros r' Hr'. apply Hl. by right.
Qed.

Lemma row_ok_upsert_list ivs l :
  (forall r, In r l -> row_ok encode r) ->
  forall r, In r (upsert_list ivs l) -> row_ok encode r.
Proof.
  revert l. induction ivs as [|[[i now] v] ivs IH]; intros l Hl; [done |].
  simpl. apply IH. by apply row_ok_upsert.
Qed.

Lemma well_formed_seq_le l seq seq' :
  (seq <= seq')%Z ->
  well_formed {| rows := l; id_seq := seq |} ->
  well_formed {| rows := l; id_seq := seq' |}.
Proof.
  intros Hle [H1 H2 H3 H4]. simpl in *. split; simpl; [done | done | | lia].
  intros i Hi. specialize (H3 i Hi). lia.
Qed.

Lemma well_formed_upsert now v l seq :
  well_formed {| rows := l; id_seq := seq |} ->
  well_formed {| rows := upsert (seq + 1) now v l; id_seq := seq + 1 |}.
Proof.
  intros [H1 H2 H3 H4]. simpl in *. split; simpl; [| | | lia].
  - rewrite upsert_row_ids. destruct (by_tweet_id _ l); [done |].
    apply NoDup_app. split_and!; [done | | apply NoDup_singleton].
    intros x Hx Hx'. apply list_elem_of_In in Hx.
    apply list_elem_of_In in Hx' as [<- | []]. specialize (H3 _ Hx). lia.
  - apply (upsert_list_NoDup [(seq + 1, now, v)%Z]). done.
  - intros i. rewrite upsert_row_ids. destruct (by_tweet_id _ l).
    + intros Hi. specialize (H3 _ Hi). lia.
    + rewrite in_app_iff. intros [Hi | [<- | []]]; [| lia].
      specialize (H3 _ Hi). lia.
Qed.

Lemma well_formed_upsert_list ivs l seq :
  ids_from seq ivs ->
  well_formed {| rows := l; id_seq := seq |} ->
  well_formed {| rows := upsert_list ivs l;
                 id_seq := seq + Z.of_nat (length ivs) |}.
Proof.
  revert l seq. induction ivs as [|[[i now] v] ivs IH]; intros l seq Hids Hwf.
  - simpl. by rewrite Z.add_0_r.
  - destruct Hids as [-> Hids].
    replace (seq + Z.of_nat (length ((seq + 1, now, v) :: ivs)))%Z
      with (seq + 1 + Z.of_nat (length ivs))%Z by (simpl length; lia).
    apply (IH (upsert (seq + 1) now v l)); [done |].
    by apply well_formed_upsert.
Qed.

(** A run of [ingest_notes.py] keeps the invariant. *)
Lemma invariant_ingest now notes_df status_df d :
  invariant encode d ->
  invariant encode (result_db (main encode now notes_df status_df d)).
Proof.
  intros [Hwf Hrows]. unfold main, batch_loader.
  destruct (load_batches_result encode now 0
              (chunks BATCH_SIZE (filter_and_dedup notes_df status_df)) d)
    as (ivs & Hr & Hids & Hseq).
  destruct (result_db _) as [l' seq']. simpl in Hr, Hseq. subst l'.
  split.
  - apply (well_formed_seq_le _ (id_seq d + Z.of_nat (length ivs))); [done |].
    apply well_formed_upsert_list; [done |]. by destruct d.
  - simpl. by apply row_ok_upsert_list.
Qed.
End IngestInvariant.

Section EnrichSteps.
Import Enrich.
Variable encode : string -> vector.
Variable api : nat -> string -> http_reply.

Lemma classify_format_cases data :
  (classify_format data = "Text" \/ classify_format data = "Photo" \/
   classify_format data = "Video")%string.
Proof.
  unfold classify_format. destruct (json_video data); [tauto |].
  destruct (json_photos data) as [[|]|]; tauto.
Qed.

(** What a successful fetch returns: the 404 marker, or text and format of
    a tweet. *)
Lemma fetch_tweet_details_Some requests_get url text fmt :
  fetch_tweet_details requests_get url = Some (text, fmt) ->
  exists u, url = Some u /\ isdigit (tweet_id_of_url u) = true /\
    ((requests_get (tweet_id_of_url u) = NotFound /\
      text = "MISSING"%string /\ fmt = "Unknown"%string) \/
     (exists data, requests_get (tweet_id_of_url u) = Success data /\
        text = default ""%string (json_text data) /\
        fmt = classify_format data)).
Proof.
  unfold fetch_tweet_details. destruct url as [u|]; [| done].
  destruct (isdigit (tweet_id_of_url u)) eqn:Hd; [| done]. simpl.
  destruct (requests_get (tweet_id_of_url u)) as [| |data] eqn:Hr; [| done |].
  - intros [= <- <-]. exists u. split_and!; [done | done |]. by left.
  - intros [= <- <-]. exists u. split_and!; [done | done |]. right.
    by exists data.
Qed.

(** One attempt: the table is left alone, or the rows with the attempted id
    get one of the two updates. *)
Lemma process_row_db st i url :
  db (process_row encode api st (i, url)) = db st \/
  exists g, setter encode g /\
    db (process_row encode api st (i, url)) = update_where_id i g (db st).
Proof.
  unfold process_row.
  destruct (fetch_tweet_details _ url) as [[text fmt]|] eqn:E; [| by left].
  right. destruct (String.eqb_spec text "MISSING") as [Heq|Hne].
  - exists set_missing. split; [constructor | done].
  - exists (set_enriched text (encode text) fmt). split; [| done].
    constructor; [done |].
    apply fetch_tweet_details_Some in E as (u & _ & _ & [(_ & ? & _) | (data & _ & _ & ->)]);
      [done | apply classify_format_cases].
Qed.

Lemma process_row_answered st i url :
  fetch_tweet_details (api (S (total_processed st))) url <> None ->
  exists g, setter encode g /\
    db (process_row encode api st (i, url)) = update_where_id i g (db st).
Proof.
  intros Hf. unfold process_row.
  destruct (fetch_tweet_details _ url) as [[text fmt]|] eqn:E; [| done].
  destruct (String.eqb_spec text "MISSING") as [Heq|Hne].
  - exists set_missing. split; [constructor | done].
  - exists (set_enriched text (encode text) fmt). split; [| done].
    constructor; [done |].
    apply fetch_tweet_details_Some in E as (u & _ & _ & [(_ & ? & _) | (data & _ & _ & ->)]);
      [done | apply classify_format_cases].
Qed.

Lemma setter_row_id g r : setter encode g -> row_id (g r) = row_id r.
Proof. by intros []. Qed.

Lemma setter_tweet_id g r : setter encode g -> tweet_id (g r) = tweet_id r.
Proof. by intros []. Qed.

Lemma setter_settled g r : setter encode g -> settled r (g r).
Proof. intros []; right; by repeat split. Qed.

Lemma setter_row_ok g r :
  setter encode g -> needs_enrichment r = true ->
  row_ok encode r -> row_ok encode (g r).
Proof.
  intros Hg Hneeds Hok.
  assert (Hfresh : tweet_vector r = None).
  { unfold needs_enrichment in Hneeds.
    destruct Hok as [(_ & ? & _) | [(Ht & _) | (t & f & Ht & _)]];
      [done | by rewrite Ht in Hneeds | by rewrite Ht in Hneeds]. }
  destruct Hg as [|text fmt Hne Hfmt].
  - right; left. by repeat split.
  - right; right. exists text, fmt. by repeat split.
Qed.

Lemma update_where_id_row_ids i g d :
  setter encode g ->
  map row_id (rows (update_where_id i g d)) = map row_id (rows d).
Proof.
  intros Hg. simpl. rewrite map_map. apply map_ext. intros r.
  destruct (Z.eqb (row_id r) i); [by apply setter_row_id | done].
Qed.

Lemma update_where_id_tweet_ids i g d :
  setter encode g ->
  map tweet_id (rows (update_where_id i g d)) = map tweet_id (rows d).
Proof.
  intros Hg. simpl. rewrite map_map. apply map_ext. intros r.
  destruct (Z.eqb (row_id r) i); [by apply setter_tweet_id | done].
Qed.

Lemma update_where_id_well_formed i g d :
  setter encode g -> well_formed d -> well_formed (update_where_id i g d).
Proof.
  intros Hg [H1 H2 H3 H4]. split.
  - by rewrite update_where_id_row_ids.
  - by rewrite update_where_id_tweet_ids.
  - rewrite update_where_id_row_ids by done. exact H3.
  - exact H4.
Qed.

Lemma update_where_id_settled i g d :
  setter encode g ->
  Forall2 settled (rows d) (rows (update_where_id i g d)).
Proof.
  intros Hg. simpl. induction (rows d) as [|r l IH]; simpl; constructor;
    [| exact IH].
  destruct (Z.eqb (row_id r) i); [by apply setter_settled | by left].
Qed.
End EnrichSteps.

Section EnrichPass.
Import Enrich.
Variable encode : string -> vector.
Variable api : nat -> string -> http_reply.

Lemma In_firstn_In {A} (k : nat) (l : list A) x : In x (firstn k l) -> In x l.
Proof.
  intros H. rewrite <- (firstn_skipn k l). apply in_or_app. by left.
Qed.

Lemma get_null_rows_In d limit i url :
  In (i, url) (get_null_rows d limit) ->
  exists r, In r (rows d) /\ needs_enrichment r = true /\
            i = row_id r /\ url = tweet_url r.
Proof.
  unfold get_null_rows. intros H. apply In_firstn_In in H.
  apply in_map_iff in H as (r & [= <- <-] & Hr).
  apply filter_In in Hr as [Hr Hn]. by exists r.
Qed.

Lemma sublist_map_filter {A B} (f : A -> B) (p : A -> bool) (l : list A) :
  map f (List.filter p l) `sublist_of` map f l.
Proof.
  induction l as [|x l IH]; simpl; [constructor |].
  destruct (p x); simpl; by constructor.
Qed.

Lemma get_null_rows_ids d limit :
  map fst (get_null_rows d limit)
  = firstn limit (map row_id (List.filter needs_enrichment (rows d))).
Proof.
  unfold get_null_rows. rewrite <- firstn_map, map_map. done.
Qed.

Lemma get_null_rows_NoDup d limit :
  NoDup (map row_id (rows d)) -> NoDup (map fst (get_null_rows d limit)).
Proof.
  intros Hnd. rewrite get_null_rows_ids.
  eapply sublist_NoDup; [exact Hnd |].
  etrans; [apply sublist_take | apply sublist_map_filter].
Qed.

Lemma NoDup_map_In_inj {A B} (f : A -> B) (l : list A) x y :
  NoDup (map f l) -> In x l -> In y l -> f x = f y -> x = y.
Proof.
  induction l as [|a l IH]; simpl; [done |].
  intros Hnd. apply NoDup_cons in Hnd as [Ha Hnd].
  rewrite list_elem_of_In, in_map_iff in Ha.
  intros [-> | Hx] [-> | Hy] Heq; [done | | | by apply IH].
  - exfalso. apply Ha. by exists y.
  - exfalso. apply Ha. by exists x.
Qed.

(** Attempts on distinct ids whose rows all still need enrichment keep the
    invariant. *)
Lemma invariant_attempts todo st :
  invariant encode (db st) ->
  NoDup (map fst todo) ->
  (forall i url r, In (i, url) todo -> In r (rows (db st)) ->
                   row_id r = i -> needs_enrichment r = true) ->
  invariant encode (db (fold_left (process_row encode api) todo st)).
Proof.
  revert st. induction todo as [|[i url] todo IH]; intros st Hinv Hnd Hneeds;
    [done |].
  simpl in Hnd. apply NoDup_cons in Hnd as [Hi Hnd].
  rewrite list_elem_of_In in Hi.
  cbn [fold_left]. apply IH; [| done |].
  - destruct (process_row_db encode api st i url) as [-> | (g & Hg & ->)];
      [done |].
    destruct Hinv as [Hwf Hok]. split;
      [by apply (update_where_id_well_formed encode) |].
    intros r' Hr'. simpl in Hr'. apply in_map_iff in Hr' as (r & <- & Hr).
    destruct (Z.eqb_spec (row_id r) i) as [Heq|Hne]; [| by apply Hok].
    apply (setter_row_ok encode g r); [done | | by apply Hok].
    apply (Hneeds i url); [by left | done | done].
  - intros j url' r' Hj Hr' Hid.
    assert (Hji : j <> i).
    { intros ->. apply Hi. apply in_map_iff. by exists (i, url'). }
    destruct (process_row_db encode api st i url) as [E | (g & Hg & E)];
      rewrite E in Hr'.
    + apply (Hneeds j url'); [by right | done | done].
    + simpl in Hr'. apply in_map_iff in Hr' as (r & <- & Hr).
      destruct (Z.eqb_spec (row_id r) i) as [Heq|Hne].
      * rewrite (setter_row_id encode) in Hid by done. congruence.
      * apply (Hneeds j url'); [by right | done | done].
Qed.

(** Rows whose id is not attempted are left as they are. *)
Lemma attempts_keep_others todo st r :
  In r (rows (db st)) -> ~ In (row_id r) (map fst todo) ->
  In r (rows (db (fold_left (process_row encode api) todo st))).
Proof.
  revert st. induction todo as [|[i url] todo IH]; intros st Hr Hn; [done |].
  simpl in Hn. cbn [fold_left]. apply IH; [| tauto].
  destruct (process_row_db encode api st i url) as [-> | (g & Hg & ->)];
    [done |].
  simpl. apply in_map_iff. exists r. split; [| done].
  destruct (Z.eqb_spec (row_id r) i); [| done]. exfalso. apply Hn. by left.
Qed.

Lemma settled_trans r1 r2 r3 : settled r1 r2 -> settled r2 r3 -> settled r1 r3.
Proof.
  intros [-> | (H1 & H2 & H3)] [-> | (H4 & H5 & H6)].
  - by left.
  - right. done.
  - right. done.
  - right. split_and!; [done | congruence | congruence].
Qed.

Lemma Forall2_settled_refl l : Forall2 settled l l.
Proof. induction l; constructor; [by left | done]. Qed.

Lemma Forall2_settled_trans l1 l2 l3 :
  Forall2 settled l1 l2 -> Forall2 settled l2 l3 -> Forall2 settled l1 l3.
Proof.
  intros H. revert l3. induction H as [|r1 r2 l1 l2 Hr H IH]; intros l3 H3.
  - by inversion H3.
  - inversion H3; subst. constructor; [by eapply settled_trans | by apply IH].
Qed.

(** Every row after some attempts is untouched or settled. *)
Lemma attempts_settled todo st :
  Forall2 settled (rows (db st))
    (rows (db (fold_left (process_row encode api) todo st))).
Proof.
  revert st. induction todo as [|[i url] todo IH]; intros st;
    [apply Forall2_settled_refl |].
  cbn [fold_left]. eapply Forall2_settled_trans; [| apply IH].
  destruct (process_row_db encode api st i url) as [-> | (g & Hg & ->)];
    [apply Forall2_settled_refl | by apply (update_where_id_settled encode)].
Qed.

End EnrichPass.

Section Reachability.
Import Enrich.
Variable encode : string -> vector.

Lemma invariant_step d d' :
  invariant encode d -> step encode d d' -> invariant encode d'.
Proof.
  intros Hinv Hstep. destruct Hstep as [now notes_df status_df d | api' st k].
  - by apply invariant_ingest.
  - destruct (Hinv) as [[Hids _ _ _] _].
    apply invariant_attempts; [done | |].
    + eapply sublist_NoDup; [apply (get_null_rows_NoDup _ BATCH_SIZE Hids) |].
      rewrite <- firstn_map. apply sublist_take.
    + intros i url r Hin Hr Hid. apply In_firstn_In in Hin.
      apply get_null_rows_In in Hin as (r0 & Hr0 & Hn & -> & ->).
      by rewrite (NoDup_map_In_inj row_id (rows (db st)) r r0).
Qed.

Lemma invariant_empty : invariant encode empty_db.
Proof.
  split; [split; simpl; [constructor | constructor | by intros ? [] | done] |].
  by intros r [].
Qed.

Lemma invariant_rtc d d' :
  invariant encode d -> rtc (step encode) d d' -> invariant encode d'.
Proof.
  intros Hinv Hrtc. induction Hrtc as [|d1 d2 d3 Hstep _ IH]; [done |].
  apply IH. by eapply invariant_step.
Qed.

(** Every reachable table satisfies the invariant. *)
Lemma reachable_invariant d : reachable encode d -> invariant encode d.
Proof. apply invariant_rtc, invariant_empty. Qed.
End Reachability.

(** ** Enrichment Loop: termination *)

Section Termination.
Import Enrich.
Variable encode : string -> vector.
Variable api : nat -> string -> http_reply.

Lemma settled_needs r r' :
  settled r r' -> needs_enrichment r' = true -> r' = r.
Proof. intros [-> | (H & _)]; [done | congruence]. Qed.

Lemma pending_settled l l' :
  Forall2 settled l l' ->
  length (List.filter needs_enrichment l')
  <= length (List.filter needs_enrichment l).
Proof.
  induction 1 as [|r r' l l' Hr _ IH]; [done |]. simpl.
  destruct (needs_enrichment r') eqn:E.
  - pose proof (settled_needs _ _ Hr E) as ->. rewrite E. simpl. lia.
  - destruct (needs_enrichment r); simpl; lia.
Qed.

Lemma pending_settled_lt l l' k r r' :
  Forall2 settled l l' ->
  l !! k = Some r -> l' !! k = Some r' ->
  needs_enrichment r = true -> needs_enrichment r' = false ->
  length (List.filter needs_enrichment l')
  < length (List.filter needs_enrichment l).
Proof.
  intros H. revert k. induction H as [|a a' l l' Ha H IH]; intros k Hk Hk' Hn Hn';
    [done |].
  destruct k as [|k]; simpl in Hk, Hk'.
  - injection Hk as ->. injection Hk' as ->. simpl. rewrite Hn, Hn'. simpl.
    pose proof (pending_settled _ _ H). lia.
  - specialize (IH k Hk Hk' Hn Hn'). simpl.
    destruct (needs_enrichment a') eqn:E.
    + pose proof (settled_needs _ _ Ha E) as ->. rewrite E. simpl. lia.
    + destruct (needs_enrichment a); simpl; lia.
Qed.

Lemma resolves_settled d d' :
  resolves api d -> Forall2 settled (rows d) (rows d') -> resolves api d'.
Proof.
  intros Hres Hs n r' Hr' Hneeds.
  apply list_elem_of_In, list_elem_of_lookup in Hr' as [k Hk].
  destruct (Forall2_lookup_r _ _ _ _ _ Hs Hk) as (r & Hr & Hrr').
  pose proof (settled_needs _ _ Hrr' Hneeds) as ->.
  apply Hres; [| done]. apply list_elem_of_In, list_elem_of_lookup. by exists k.
Qed.

Lemma get_null_rows_nil d :
  get_null_rows d BATCH_SIZE = [] <-> pending d = 0.
Proof.
  unfold get_null_rows, pending, BATCH_SIZE.
  destruct (List.filter needs_enrichment (rows d)); simpl; split; done.
Qed.

(** Under [resolves], a pass that finds work leaves less work. *)
Lemma enrich_pass_progress st :
  resolves api (db st) ->
  get_null_rows (db st) BATCH_SIZE <> [] ->
  pending (db (enrich_pass encode api st)) < pending (db st).
Proof.
  intros Hres Hne. unfold enrich_pass.
  destruct (get_null_rows (db st) BATCH_SIZE) as [|[i url] todo] eqn:E;
    [done |].
  assert (Hin : In (i, url) (get_null_rows (db st) BATCH_SIZE))
    by (rewrite E; by left).
  apply get_null_rows_In in Hin as (r0 & Hr0 & Hneeds & -> & ->).
  apply list_elem_of_In, list_elem_of_lookup in Hr0 as [k Hk].
  cbn [fold_left].
  destruct (process_row_answered encode api st (row_id r0) (tweet_url r0))
    as (g & Hg & Hdb).
  { apply Hres; [| done]. apply list_elem_of_In, list_elem_of_lookup. by exists k. }
  set (st1 := process_row encode api st (row_id r0, tweet_url r0)) in *.
  assert (Hk1 : rows (db st1) !! k = Some (g r0)).
  { rewrite Hdb. simpl. rewrite list_lookup_fmap, Hk. simpl.
    by rewrite Z.eqb_refl. }
  pose proof (attempts_settled encode api todo st1) as Hrest.
  destruct (Forall2_lookup_l _ _ _ _ _ Hrest Hk1) as (r2 & Hk2 & Hs2).
  assert (Hn2 : needs_enrichment r2 = false).
  { destruct (needs_enrichment r2) eqn:En; [| done].
    pose proof (settled_needs _ _ Hs2 En) as ->.
    by destruct Hg. }
  unfold pending. eapply pending_settled_lt; [| exact Hk | exact Hk2 | done | done].
  apply (attempts_settled encode api ((row_id r0, tweet_url r0) :: todo) st).
Qed.

Lemma enrich_pass_resolves st :
  resolves api (db st) -> resolves api (db (enrich_pass encode api st)).
Proof.
  intros Hres. eapply resolves_settled; [exact Hres |].
  apply attempts_settled.
Qed.

Lemma main_loop_terminates m st :
  pending (db st) <= m -> resolves api (db st) ->
  exists n,
    n <= pending (db st) /\
    get_null_rows (db (passes encode api n st)) BATCH_SIZE = [] /\
    (forall k, k < n ->
       get_null_rows (db (passes encode api k st)) BATCH_SIZE <> []) /\
    (forall fuel, n < fuel ->
       main_loop encode api fuel st = Some (passes encode api n st)) /\
    (forall fuel, fuel <= n -> main_loop encode api fuel st = None).
Proof.
  revert st. induction m as [|m IH]; intros st Hm Hres.
  - exists 0. assert (E : get_null_rows (db st) BATCH_SIZE = [])
      by (apply get_null_rows_nil; lia).
    split_and!; [lia | done | lia | |].
    + intros [|fuel] Hf; [lia |]. simpl. by rewrite E.
    + intros fuel Hf. by replace fuel with 0 by lia.
  - destruct (get_null_rows (db st) BATCH_SIZE) as [|p todo] eqn:E.
    + exists 0. split_and!; [lia | done | lia | |].
      * intros [|fuel] Hf; [lia |]. simpl. by rewrite E.
      * intros fuel Hf. by replace fuel with 0 by lia.
    + assert (Hlt : pending (db (enrich_pass encode api st)) < pending (db st))
        by (apply enrich_pass_progress; [done | by rewrite E]).
      destruct (IH (enrich_pass encode api st)) as (n & Hn & Hend & Hbefore & Hsome & Hnone);
        [lia | by apply enrich_pass_resolves |].
      exists (S n). split_and!; [lia | exact Hend | | |].
      * intros [|k] Hk; [simpl; by rewrite E | apply Hbefore; lia].
      * intros [|fuel] Hf; [lia |]. simpl. rewrite E. apply Hsome. lia.
      * intros [|fuel] Hf; [done |]. simpl. rewrite E. apply Hnone. lia.
Qed.

(** C9: when every attempt on a record that needs enrichment is answered
    (tweet or not found), the loop ends after finitely many passes: after
    [n] whole passes, [n] at most the number of pending records, the
    work-selection query returns no rows and [main] returns; it does not
    return earlier, every earlier query having found rows. *)
Theorem enrichment_loop_terminates (d : database) :
  resolves api d ->
  exists n,
    n <= pending d /\
    get_null_rows (db (passes encode api n (start d))) BATCH_SIZE = [] /\
    (forall k, k < n ->
       get_null_rows (db (passes encode api k (start d))) BATCH_SIZE <> []) /\
    (forall fuel, n < fuel ->
       main encode api fuel d = Some (passes encode api n (start d))) /\
    (forall fuel, fuel <= n -> main encode api fuel d = None).
Proof.
  intros Hres. apply (main_loop_terminates (pending d) (start d)); done.
Qed.
End Termination.

Lemma resolves_sample : resolves api_not_found sample_loaded.
Proof.
  intros n r Hr _. vm_compute in Hr.
  destruct Hr as [<- | [<- | []]]; by vm_compute.
Defined.

Lemma enrichment_loop_terminates_witness :
  exists n,
    n <= pending sample_loaded /\
    Enrich.get_null_rows
      (Enrich.db (passes sample_encode api_not_found n
                    (Enrich.start sample_loaded)))
      Enrich.BATCH_SIZE = [] /\
    (forall k, k < n ->
       Enrich.get_null_rows
         (Enrich.db (passes sample_encode api_not_found k
                       (Enrich.start sample_loaded)))
         Enrich.BATCH_SIZE <> []) /\
    (forall fuel, n < fuel ->
       Enrich.main sample_encode api_not_found fuel sample_loaded
       = Some (passes sample_encode api_not_found n
                 (Enrich.start sample_loaded))) /\
    (forall fuel, fuel <= n ->
       Enrich.main sample_encode api_not_found fuel sample_loaded = None).
Proof.
  apply (enrichment_loop_terminates sample_encode api_not_found sample_loaded).
  apply resolves_sample.
Defined.

Example sample_loaded_rows :
  rows sample_loaded
  = [ {| row_id := 1; tweet_id := 42;
         tweet_url := Some "https://twitter.com/i/web/status/42"%string;
         tweet_text := None; tweet_vector := None;
         note_text := "Fact check text";
         note_vector := Some [15; 0; 0; 0]%float;
         created_at := 0; tweet_format := None |};
      {| row_id := 2; tweet_id := 99;
         tweet_url := Some "https://twitter.com/i/web/status/99"%string;
         tweet_text := None; tweet_vector := None;
         note_text := "";
         note_vector := Some [1; 1; 1; 1]%float;
         created_at := 0; tweet_format := None |} ].
Proof. vm_compute. reflexivity. Qed.

(** ** Enrichment Loop: the missing state *)

Section MissingState.
Import Enrich.
Variable encode : string -> vector.

Lemma needs_enrichment_spec r :
  needs_enrichment r = true <->
  tweet_text r = None /\ tweet_format r <> Some Missing.
Proof.
  unfold needs_enrichment. destruct (tweet_text r); [split; [done | by intros []] |].
  destruct (tweet_format r) as [f|]; [| by split].
  destruct (String.eqb_spec f Missing) as [-> | Hne]; simpl.
  - split; [done | by intros [_ []]].
  - split; [| done]. intros _. split; [done | congruence].
Qed.

Lemma upsert_keeps_row i now v l r :
  In r l ->
  exists r', In r' (Ingest.upsert i now v l) /\
             (r' = r \/ r' = Ingest.do_update v r).
Proof.
  induction l as [|a l IH]; [done |]. simpl.
  destruct (Z.eqb (tweet_id a) (Ingest.v_tweet_id v)).
  - intros [-> | Hr].
    + exists (Ingest.do_update v r). split; [by left | by right].
    + exists r. split; [by right | by left].
  - intros [-> | Hr].
    + exists r. split; [by left | by left].
    + destruct (IH Hr) as (r' & Hr' & Hcase). exists r'. split; [by right | done].
Qed.

(** The loader leaves id, key and the enrichment columns of every row. *)
Lemma upsert_list_keeps_row ivs l r :
  In r l ->
  exists r', In r' (upsert_list ivs l) /\
    row_id r' = row_id r /\ tweet_id r' = tweet_id r /\
    tweet_text r' = tweet_text r /\ tweet_vector r' = tweet_vector r /\
    tweet_format r' = tweet_format r.
Proof.
  revert l r. induction ivs as [|[[i now] v] ivs IH]; intros l r Hr.
  - by exists r.
  - destruct (upsert_keeps_row i now v l r Hr) as (r1 & Hr1 & Hcase).
    destruct (IH _ _ Hr1) as (r' & Hr' & H1 & H2 & H3 & H4 & H5).
    exists r'. split; [done |].
    destruct Hcase as [-> | ->]; [done |]. by destruct r.
Qed.

Lemma selected_needs_enrichment d limit r :
  NoDup (map row_id (rows d)) -> In r (rows d) ->
  In (row_id r) (map fst (get_null_rows d limit)) ->
  needs_enrichment r = true.
Proof.
  intros Hnd Hr Hin. apply in_map_iff in Hin as ([i url] & Hi & Hin).
  simpl in Hi. subst i.
  apply get_null_rows_In in Hin as (r0 & Hr0 & Hn & Hid & _).
  by rewrite (NoDup_map_In_inj row_id (rows d) r r0).
Qed.

(** A record marked 'Missing' is still there, and still marked, after any
    committed transaction of the two writers. *)
Lemma missing_step d d' r :
  invariant encode d -> step encode d d' ->
  In r (rows d) -> tweet_format r = Some Missing ->
  exists r', In r' (rows d') /\ row_id r' = row_id r /\
             tweet_id r' = tweet_id r /\ tweet_format r' = Some Missing.
Proof.
  intros [[Hids _ _ _] _] Hstep Hr Hm.
  destruct Hstep as [now notes_df status_df d | api st k].
  - unfold Ingest.main, Ingest.batch_loader.
    destruct (load_batches_result encode now 0
                (Ingest.chunks Ingest.BATCH_SIZE
                   (Ingest.filter_and_dedup notes_df status_df)) d)
      as (ivs & -> & _).
    destruct (upsert_list_keeps_row ivs _ r Hr) as (r' & Hr' & H1 & H2 & _ & _ & H5).
    exists r'. split_and!; [done | done | done | congruence].
  - exists r. split_and!; [| done | done | done].
    apply attempts_keep_others; [done |]. intros Hin.
    assert (Hsel : In (row_id r) (map fst (get_null_rows (db st) BATCH_SIZE))).
    { apply in_map_iff in Hin as (p & Hp & Hin). apply in_map_iff.
      exists p. split; [done |]. by eapply In_firstn_In. }
    apply selected_needs_enrichment in Hsel; [| done | done].
    apply needs_enrichment_spec in Hsel as [_ Hsel]. done.
Qed.

(** C1: a record whose tweet_format is 'Missing' in a reachable table stays
    in the table with that mark through every later run of the loader and
    every later attempt of the loop, and the work-selection query, whatever
    its limit, does not return it: the rows it returns have a NULL
    tweet_text and a tweet_format other than 'Missing'. *)
Theorem missing_never_selected
    (d d' : database) (r : fact_check) (limit : nat) :
  reachable encode d -> In r (rows d) -> tweet_format r = Some Missing ->
  rtc (step encode) d d' ->
  (exists r', In r' (rows d') /\ row_id r' = row_id r /\
              tweet_id r' = tweet_id r /\ tweet_format r' = Some Missing) /\
  ~ In (row_id r) (map fst (get_null_rows d' limit)) /\
  (forall p, In p (get_null_rows d' limit) ->
     exists x, In x (rows d') /\ p = (row_id x, tweet_url x) /\
               tweet_text x = None /\ tweet_format x <> Some Missing).
Proof.
  intros Hreach Hr Hm Hrtc.
  apply reachable_invariant in Hreach.
  assert (Hlater : invariant encode d' /\
            exists r', In r' (rows d') /\ row_id r' = row_id r /\
                       tweet_id r' = tweet_id r /\ tweet_format r' = Some Missing).
  { clear limit. revert r Hr Hm Hreach.
    induction Hrtc as [d|d1 d2 d3 Hstep _ IH]; intros r Hr Hm Hinv.
    - split; [done |]. by exists r.
    - destruct (missing_step d1 d2 r Hinv Hstep Hr Hm) as (r2 & Hr2 & Hid & Htid & Hm2).
      destruct (IH r2 Hr2 Hm2 (invariant_step encode _ _ Hinv Hstep))
        as (Hinv3 & r3 & Hr3 & Hid3 & Htid3 & Hm3).
      split; [done |]. exists r3. split_and!; [done | congruence | congruence | done]. }
  destruct Hlater as ([[Hids _ _ _] _] & r' & Hr' & Hid & Htid & Hm').
  split_and!.
  - by exists r'.
  - rewrite <- Hid. intros Hsel.
    apply selected_needs_enrichment in Hsel; [| done | done].
    apply needs_enrichment_spec in Hsel as [_ Hsel]. done.
  - intros [i url] Hp. apply get_null_rows_In in Hp as (x & Hx & Hn & -> & ->).
    apply needs_enrichment_spec in Hn as [Ht Hf]. by exists x.
Qed.
End MissingState.

Lemma reachable_sample_loaded : reachable sample_encode sample_loaded.
Proof.
  eapply rtc_l; [| apply rtc_refl].
  exact (step_ingest sample_encode (fun _ => 0%Z) sample_notes sample_status
           empty_db).
Defined.

Lemma step_sample_attempted api :
  step sample_encode sample_loaded (sample_attempted api).
Proof. exact (step_enrich sample_encode api (Enrich.start sample_loaded) 1). Defined.

Lemma reachable_sample_attempted api :
  reachable sample_encode (sample_attempted api).
Proof.
  eapply rtc_r; [apply reachable_sample_loaded | apply step_sample_attempted].
Defined.

Lemma missing_never_selected_witness :
  (exists r', In r' (rows (sample_attempted api_not_found)) /\
              row_id r' = row_id sample_missing_row /\
              tweet_id r' = tweet_id sample_missing_row /\
              tweet_format r' = Some Missing) /\
  ~ In (row_id sample_missing_row)
       (map fst (Enrich.get_null_rows (sample_attempted api_not_found)
                   Enrich.BATCH_SIZE)) /\
  (forall p, In p (Enrich.get_null_rows (sample_attempted api_not_found)
                     Enrich.BATCH_SIZE) ->
     exists x, In x (rows (sample_attempted api_not_found)) /\
               p = (row_id x, tweet_url x) /\
               tweet_text x = None /\ tweet_format x <> Some Missing).
Proof.
  apply (missing_never_selected sample_encode (sample_attempted api_not_found)
           (sample_attempted api_not_found) sample_missing_row
           Enrich.BATCH_SIZE).
  - apply reachable_sample_attempted.
  - vm_compute. left. reflexivity.
  - reflexivity.
  - apply rtc_refl.
Defined.

(** ** Enrichment Loop: one attempt *)

Section Attempt.
Import Enrich.
Variable encode : string -> vector.
Variable api : nat -> string -> http_reply.

Lemma by_row_id_In l r :
  NoDup (map row_id l) -> In r l -> by_row_id (row_id r) l = Some r.
Proof.
  unfold by_row_id. induction l as [|a l IH]; [done |]. simpl.
  intros Hnd. apply NoDup_cons in Hnd as [Ha Hnd].
  rewrite list_elem_of_In, in_map_iff in Ha.
  destruct (Z.eqb_spec (row_id a) (row_id r)) as [Heq|Hne].
  - intros [-> | Hr]; [done |]. exfalso. apply Ha. by exists r.
  - intros [-> | Hr]; [done | by apply IH].
Qed.

Lemma by_row_id_update i g l :
  (forall r, row_id (g r) = row_id r) ->
  by_row_id i (map (fun r => if Z.eqb (row_id r) i then g r else r) l)
  = g <$> by_row_id i l.
Proof.
  intros Hg. unfold by_row_id. induction l as [|a l IH]; [done |]. simpl.
  destruct (Z.eqb_spec (row_id a) i) as [Heq|Hne].
  - rewrite Hg. destruct (Z.eqb_spec (row_id a) i); done.
  - destruct (Z.eqb_spec (row_id a) i); done.
Qed.

Lemma needs_enrichment_fresh r :
  row_ok encode r -> needs_enrichment r = true -> fresh r.
Proof.
  intros Hok Hn. apply needs_enrichment_spec in Hn as [Ht Hf].
  destruct Hok as [H | [(Ht' & _) | (t & f & Ht' & _)]]; [done | |]; congruence.
Qed.

(** C4: when the content API answers an attempt on a record that needs
    enrichment with HTTP 404, the attempt turns the record into its
    permanently-missing form: tweet_text is the sentinel string,
    tweet_format is 'Missing', tweet_vector is left as it was, which is
    NULL; no other column and no other record changes. *)
Theorem not_found_marks_missing
    (st : loop_state) (r : fact_check) (u : string) :
  reachable encode (db st) ->
  In r (rows (db st)) -> needs_enrichment r = true ->
  tweet_url r = Some u -> isdigit (tweet_id_of_url u) = true ->
  api (S (total_processed st)) (tweet_id_of_url u) = NotFound ->
  let st' := process_row encode api st (row_id r, tweet_url r) in
  db st' = update_row (db st) (row_id r) "MISSING" None Missing /\
  by_row_id (row_id r) (rows (db st')) = Some (set_missing r) /\
  tweet_text (set_missing r) = Some MISSING_OR_DELETED /\
  tweet_format (set_missing r) = Some Missing /\
  tweet_vector (set_missing r) = tweet_vector r /\
  tweet_vector r = None /\
  (forall x, In x (rows (db st)) -> row_id x <> row_id r ->
             In x (rows (db st'))) /\
  total_missing st' = S (total_missing st).
Proof.
  intros Hreach Hr Hneeds Hurl Hdigit H404 st'.
  apply reachable_invariant in Hreach as [[Hids _ _ _] Hok].
  assert (Hst' : st' = {| db := update_row (db st) (row_id r) "MISSING" None Missing;
                          total_processed := S (total_processed st);
                          total_success := total_success st;
                          total_missing := S (total_missing st) |}).
  { subst st'. unfold process_row, fetch_tweet_details.
    rewrite Hurl, Hdigit, H404. done. }
  rewrite Hst'. cbn [db total_missing]. split_and!; try done.
  - simpl. rewrite (by_row_id_update _ set_missing) by done.
    by rewrite by_row_id_In.
  - apply (needs_enrichment_fresh r (Hok r Hr) Hneeds).
  - intros x Hx Hne. simpl. apply in_map_iff. exists x. split; [| done].
    by destruct (Z.eqb_spec (row_id x) (row_id r)).
Qed.

(** A tweet whose text is not the in-band marker is stored with its text,
    the embedding of the text and the format read off the reply. *)
Lemma success_enriches (st : loop_state) (r : fact_check) (u : string)
    (data : tweet_result) :
  NoDup (map row_id (rows (db st))) -> In r (rows (db st)) ->
  tweet_url r = Some u -> isdigit (tweet_id_of_url u) = true ->
  api (S (total_processed st)) (tweet_id_of_url u) = Success data ->
  default ""%string (json_text data) <> "MISSING"%string ->
  let text := default ""%string (json_text data) in
  let st' := process_row encode api st (row_id r, tweet_url r) in
  by_row_id (row_id r) (rows (db st'))
  = Some (set_enriched text (encode text) (classify_format data) r).
Proof.
  intros Hids Hr Hurl Hdigit Hok Hne text st'. subst st'.
  unfold process_row, fetch_tweet_details. rewrite Hurl, Hdigit, Hok. simpl.
  destruct (String.eqb_spec (default ""%string (json_text data)) "MISSING");
    [done |].
  simpl. rewrite (by_row_id_update _ (set_enriched _ _ _)) by done.
  by rewrite by_row_id_In.
Qed.
End Attempt.

Lemma not_found_marks_missing_witness :
  let st := Enrich.start sample_loaded in
  let st' := Enrich.process_row sample_encode api_not_found st
               (row_id sample_fresh_row, tweet_url sample_fresh_row) in
  Enrich.db st'
  = Enrich.update_row (Enrich.db st) (row_id sample_fresh_row) "MISSING" None
                      Missing /\
  by_row_id (row_id sample_fresh_row) (rows (Enrich.db st'))
  = Some (Enrich.set_missing sample_fresh_row) /\
  tweet_text (Enrich.set_missing sample_fresh_row) = Some MISSING_OR_DELETED /\
  tweet_format (Enrich.set_missing sample_fresh_row) = Some Missing /\
  tweet_vector (Enrich.set_missing sample_fresh_row)
  = tweet_vector sample_fresh_row /\
  tweet_vector sample_fresh_row = None /\
  (forall x, In x (rows (Enrich.db st)) ->
             row_id x <> row_id sample_fresh_row ->
             In x (rows (Enrich.db st'))) /\
  Enrich.total_missing st' = S (Enrich.total_missing st).
Proof.
  apply (not_found_marks_missing sample_encode api_not_found
           (Enrich.start sample_loaded) sample_fresh_row
           "https://twitter.com/i/web/status/42").
  - apply reachable_sample_loaded.
  - vm_compute. left. reflexivity.
  - reflexivity.
  - reflexivity.
  - vm_compute. reflexivity.
  - reflexivity.
Defined.

(** C3, at a tweet whose text is the word the script uses as its 404
    marker: the content API answers with the tweet, and the record is stored
    as deleted, without text and vector of the tweet. *)
Theorem live_tweet_marked_missing :
  Enrich.fetch_tweet_details (api_text "MISSING" 1)
    (tweet_url sample_fresh_row) = Some ("MISSING", "Text")%string /\
  In sample_fresh_row (rows sample_loaded) /\
  by_row_id 1 (rows (sample_attempted (api_text "MISSING")))
  = Some sample_missing_row /\
  by_row_id 1 (rows (sample_attempted (api_text "MISSING")))
  <> Some (Enrich.set_enriched "MISSING" (sample_encode "MISSING") "Text"
             sample_fresh_row).
Proof.
  split_and!.
  - vm_compute. reflexivity.
  - vm_compute. left. reflexivity.
  - vm_compute. reflexivity.
  - vm_compute. discriminate.
Qed.

(** ** The vector invariant *)

Section VectorInvariant.
Variable encode : string -> vector.

Lemma row_ok_vector (r : fact_check) :
  row_ok encode r ->
  (tweet_vector r <> None <->
   tweet_text r <> None /\ tweet_format r <> Some Missing) /\
  ((exists t, tweet_text r = Some t /\ t <> MISSING_OR_DELETED) ->
   tweet_vector r <> None) /\
  (tweet_text r = None -> tweet_vector r = None).
Proof.
  intros [(Ht & Hv & Hf) | [(Ht & Hv & Hf) | (t & f & Ht & Hv & Hf & Hfmt & _)]].
  - rewrite Ht, Hv, Hf. split_and!; [split; [done | by intros []] | | done].
    by intros (t & ? & _).
  - rewrite Ht, Hv, Hf. split_and!; [split; [done | by intros [_ []]] | | done].
    intros (t & [= <-] & Hne). done.
  - rewrite Ht, Hv, Hf. split_and!; [| done | done].
    split; [| done]. intros _. split; [done |].
    intros [= ->]. by destruct Hfmt as [? | [? | ?]].
Qed.

(** C7, as the code has it: in every reachable table a record has a
    tweet_vector exactly when it has a tweet_text and is not marked
    'Missing'; a record whose tweet_text is neither NULL nor the sentinel
    string has a tweet_vector, and a record without tweet_text has none. *)
Theorem vector_iff_enriched (d : database) (r : fact_check) :
  reachable encode d -> In r (rows d) ->
  (tweet_vector r <> None <->
   tweet_text r <> None /\ tweet_format r <> Some Missing) /\
  ((exists t, tweet_text r = Some t /\ t <> MISSING_OR_DELETED) ->
   tweet_vector r <> None) /\
  (tweet_text r = None -> tweet_vector r = None).
Proof.
  intros Hreach Hr. apply reachable_invariant in Hreach as [_ Hok].
  apply row_ok_vector, Hok, Hr.
Qed.
End VectorInvariant.

Lemma vector_iff_enriched_witness :
  (tweet_vector sample_missing_row <> None <->
   tweet_text sample_missing_row <> None /\
   tweet_format sample_missing_row <> Some Missing) /\
  ((exists t, tweet_text sample_missing_row = Some t /\
              t <> MISSING_OR_DELETED) ->
   tweet_vector sample_missing_row <> None) /\
  (tweet_text sample_missing_row = None ->
   tweet_vector sample_missing_row = None).
Proof.
  apply (vector_iff_enriched sample_encode (sample_attempted api_not_found)
           sample_missing_row).
  - apply reachable_sample_attempted.
  - vm_compute. left. reflexivity.
Defined.

(** C7 as worded fails on a tweet whose own text is the sentinel string:
    the record is reachable, has a vector, and its text is the sentinel. *)
Lemma vector_iff_text_not_sentinel_counterexample :
  exists r,
    reachable sample_encode (sample_attempted (api_text MISSING_OR_DELETED)) /\
    In r (rows (sample_attempted (api_text MISSING_OR_DELETED))) /\
    tweet_vector r = Some (sample_encode MISSING_OR_DELETED) /\
    tweet_text r = Some MISSING_OR_DELETED /\
    ~ vector_iff_text_not_sentinel r.
Proof.
  exists (Enrich.set_enriched MISSING_OR_DELETED
            (sample_encode MISSING_OR_DELETED) "Text" sample_fresh_row).
  split_and!.
  - apply reachable_sample_attempted.
  - vm_compute. left. reflexivity.
  - reflexivity.
  - reflexivity.
  - unfold vector_iff_text_not_sentinel. simpl. intros [H _].
    destruct H as (t & [= <-] & Hne); done.
Qed.

(** ** Query Service *)

Section Float8Order.
Import Query.

Lemma SFcompare_antisym x y :
  SFcompare y x = CompOpp <$> SFcompare x y.
Proof.
  destruct x as [sx|sx| |sx mx ex], y as [sy|sy| |sy my ey]; simpl;
    try done; try (by destruct sx); try (by destruct sy);
    try (by destruct sx, sy).
  destruct sx, sy; simpl; try done.
  - rewrite (Z.compare_antisym ex ey).
    destruct (Z.compare ex ey); simpl; try done.
    by rewrite (Pos.compare_cont_antisym mx my Eq).
  - rewrite (Z.compare_antisym ex ey).
    destruct (Z.compare ex ey); simpl; try done.
    by rewrite (Pos.compare_cont_antisym mx my Eq).
Qed.

Lemma is_nan_false x : PrimFloat.is_nan x = false -> Prim2SF x <> S754_nan.
Proof.
  unfold PrimFloat.is_nan. rewrite FloatAxioms.eqb_spec. intros H Hnan.
  rewrite Hnan in H. done.
Qed.

Lemma SFcompare_Some x y :
  x <> S754_nan -> y <> S754_nan -> is_Some (SFcompare x y).
Proof. destruct x, y; simpl; try done; by eexists. Qed.

(** The order of [float8] is total. *)
Lemma float8_le_total a b : float8_le a b = false -> float8_le b a = true.
Proof.
  unfold float8_le.
  destruct (PrimFloat.is_nan b) eqn:Hb; [done |].
  destruct (PrimFloat.is_nan a) eqn:Ha; [done |].
  apply is_nan_false in Ha, Hb. rewrite !FloatAxioms.leb_spec. unfold SFleb.
  rewrite (SFcompare_antisym (Prim2SF a) (Prim2SF b)).
  destruct (SFcompare_Some _ _ Ha Hb) as [c ->]. by destruct c.
Qed.

Lemma SFleb_trans x y z :
  SFleb x y = true -> SFleb y z = true -> SFleb x z = true.
Proof.
  unfold SFleb.
  destruct x as [sx|sx| |sx mx ex], y as [sy|sy| |sy my ey],
           z as [sz|sz| |sz mz ez]; simpl; try done;
    try (by destruct sx); try (by destruct sy); try (by destruct sz);
    try (by destruct sx, sy); try (by destruct sy, sz);
    try (by destruct sx, sz); try (by destruct sx, sy, sz).
  change (Pos.compare_cont Eq) with Pos.compare.
  destruct sx, sy, sz; simpl; try done;
    destruct (Z.compare_spec ex ey); simpl; try done;
    destruct (Z.compare_spec ey ez); simpl; try done;
    destruct (Z.compare_spec ex ez); simpl; try done; try lia; subst;
    destruct (Pos.compare_spec mx my); simpl; try done;
    destruct (Pos.compare_spec my mz); simpl; try done;
    destruct (Pos.compare_spec mx mz); simpl; try done; lia.
Qed.

(** The order of [float8] is transitive. *)
Lemma float8_le_trans a b c :
  float8_le a b = true -> float8_le b c = true -> float8_le a c = true.
Proof.
  unfold float8_le.
  destruct (PrimFloat.is_nan c) eqn:Hc; [done |].
  destruct (PrimFloat.is_nan b) eqn:Hb; [done |].
  destruct (PrimFloat.is_nan a) eqn:Ha; [done |].
  rewrite !FloatAxioms.leb_spec. apply SFleb_trans.
Qed.

Lemma nullable_le_total a b : nullable_le a b = false -> nullable_le b a = true.
Proof.
  destruct a as [x|], b as [y|]; simpl; try done. apply float8_le_total.
Qed.

Lemma nullable_le_trans a b c :
  nullable_le a b = true -> nullable_le b c = true -> nullable_le a c = true.
Proof.
  destruct a as [x|], b as [y|], c as [z|]; simpl; try done.
  apply float8_le_trans.
Qed.
End Float8Order.

Section OrderByFacts.
Import Query.
Context {A K : Type}.
Variable le : K -> K -> bool.
Variable key : A -> K.
Hypothesis le_total : forall a b, le a b = false -> le b a = true.
Hypothesis le_trans : forall a b c, le a b = true -> le b c = true -> le a c = true.

Lemma insert_sorted_In x l y :
  In y (insert_sorted le key x l) <-> y = x \/ In y l.
Proof.
  induction l as [|a l IH]; simpl; [intuition congruence |].
  destruct (le (key a) (key x)); simpl; [rewrite IH |]; intuition congruence.
Qed.

Lemma order_by_In l y : In y (order_by le key l) <-> In y l.
Proof.
  induction l as [|a l IH]; simpl; [done |].
  rewrite insert_sorted_In, IH. intuition congruence.
Qed.

Lemma insert_sorted_sorted x l :
  StronglySorted (fun a b => le (key a) (key b) = true) l ->
  StronglySorted (fun a b => le (key a) (key b) = true) (insert_sorted le key x l).
Proof using le_total le_trans.
  induction 1 as [|a l Hl IH Ha]; simpl.
  - constructor; constructor.
  - destruct (le (key a) (key x)) eqn:E.
    + constructor; [exact IH |].
      apply List.Forall_forall. intros y Hy.
      apply insert_sorted_In in Hy as [-> | Hy]; [done |].
      by apply (proj1 (List.Forall_forall _ _) Ha).
    + apply le_total in E. constructor; [by constructor |].
      constructor; [done |].
      apply List.Forall_forall. intros y Hy.
      eapply le_trans; [exact E |].
      by apply (proj1 (List.Forall_forall _ _) Ha).
Qed.

Lemma order_by_sorted l :
  StronglySorted (fun a b => le (key a) (key b) = true) (order_by le key l).
Proof using le_total le_trans.
  induction l as [|a l IH]; simpl; [constructor |].
  by apply insert_sorted_sorted.
Qed.

Lemma StronglySorted_firstn (R : A -> A -> Prop) k l :
  StronglySorted R l -> StronglySorted R (firstn k l).
Proof.
  intros H. revert k. induction H as [|a l Hl IH Ha]; intros [|k]; simpl;
    try constructor; [apply IH |].
  apply List.Forall_forall. intros y Hy. apply In_firstn_In in Hy.
  by apply (proj1 (List.Forall_forall _ _) Ha).
Qed.
End OrderByFacts.

Section SearchFacts.
Import Query.
Variable encode : string -> vector.
Variable cosine_distance : vector -> vector -> float.

Lemma StronglySorted_map {A B} (f : A -> B) (R : B -> B -> Prop) l :
  StronglySorted (fun a b => R (f a) (f b)) l -> StronglySorted R (map f l).
Proof.
  induction 1 as [|a l Hl IH Ha]; simpl; constructor; [done |].
  apply List.Forall_forall. intros y Hy. apply in_map_iff in Hy as (x & <- & Hx).
  by apply (proj1 (List.Forall_forall _ _) Ha).
Qed.

Lemma StronglySorted_weaken {A} (R R' : A -> A -> Prop) l :
  (forall a b, R a b -> R' a b) -> StronglySorted R l -> StronglySorted R' l.
Proof.
  intros HR. induction 1 as [|a l Hl IH Ha]; constructor; [done |].
  apply List.Forall_forall. intros y Hy. apply HR.
  by apply (proj1 (List.Forall_forall _ _) Ha).
Qed.

Lemma length_firstn_le {A} k (l : list A) : length (firstn k l) <= k.
Proof. rewrite length_firstn. lia. Qed.

(** The rows the SELECT of [search] returns carry a [tweet_vector]. *)
Lemma search_query_In d qe p :
  In p (search_query cosine_distance d qe) ->
  exists r v, p = (r, cosine_distance v qe) /\ In r (rows d) /\
              tweet_vector r = Some v.
Proof.
  unfold search_query. intros Hp. apply In_firstn_In, order_by_In in Hp.
  apply list_elem_of_In, list_elem_of_omap in Hp as (r & Hr & Hv).
  destruct (tweet_vector r) as [v|] eqn:E; [| done].
  injection Hv as <-. exists r, v. by rewrite <- list_elem_of_In.
Qed.

Lemma relevant_from_spec i results shown :
  relevant_from i results = Some shown ->
  forall j pct txt url,
    In (j, pct, txt, url) shown <->
    exists k dist, results !! k = Some (txt, url, Some dist) /\ j = i + k /\
      (NOTE_SIMILARITY_THRESHOLD <? dist)%float = false /\
      pct = ((1 - dist) * 100)%float.
Proof.
  revert i shown. induction results as [|[[t u] [dist|]] results IH];
    intros i shown; simpl; [| | done].
  - intros [= <-] j pct txt url. split; [done | by intros ([|k] & ? & ? & _)].
  - destruct (relevant_from (S i) results) as [rest|] eqn:E; [| done]. simpl.
    specialize (IH (S i) rest E).
    destruct (NOTE_SIMILARITY_THRESHOLD <? dist)%float eqn:Hd;
      intros [= <-] j pct txt url.
    + rewrite IH. split.
      * intros (k & dist' & Hk & -> & H). exists (S k), dist'.
        split_and!; [done | lia | tauto | tauto].
      * intros ([|k] & dist' & Hk & -> & Hd' & Hp); simpl in Hk.
        -- injection Hk as -> -> ->. congruence.
        -- exists k, dist'. split_and!; [done | lia | done | done].
    + simpl. rewrite IH. split.
      * intros [[= <- <- <- <-] | (k & dist' & Hk & -> & H)].
        -- exists 0, dist. split_and!; [done | lia | done | done].
        -- exists (S k), dist'. split_and!; [done | lia | tauto | tauto].
      * intros ([|k] & dist' & Hk & -> & Hd' & Hp); simpl in Hk.
        -- injection Hk as -> -> ->. left. subst pct.
           by rewrite Nat.add_0_r.
        -- right. exists k, dist'. split_and!; [done | lia | done | done].
Qed.

(** C6, as the code has it.  Both result lists are in ascending order of
    cosine distance and hold at most top-K rows: 5 for claim search, over
    the rows with a tweet_vector, 3 for note search, over all rows.  A claim
    search hit carries similarity = 1 - distance and is_match = (distance <
    0.4).  A note search hit carries note_text, tweet_url and distance only;
    when [display_results] lists relevant results, the best distance is
    below 0.5, exactly the hits whose distance is not above 0.5 are listed,
    and each is printed with (1 - distance) * 100. *)
Theorem search_ordered_and_flagged (d : database) (q : string) :
  let hits := search encode cosine_distance d q in
  let notes := search_notes cosine_distance d (encode q) TOP_K in
  length hits <= 5 /\
  StronglySorted (fun a b => float8_le (distance a) (distance b) = true) hits /\
  (forall h, In h hits ->
     similarity h = (1 - distance h)%float /\
     is_match h = (distance h <? SIMILARITY_THRESHOLD)%float /\
     exists r v, In r (rows d) /\ tweet_vector r = Some v /\
                 distance h = cosine_distance v (encode q)) /\
  length notes <= 3 /\
  StronglySorted (fun a b => nullable_le (snd a) (snd b) = true) notes /\
  (forall n, In n notes ->
     exists r, In r (rows d) /\
       n = (note_text r, tweet_url r,
            (fun v => cosine_distance v (encode q)) <$> note_vector r)) /\
  (forall shown, display_results notes = Relevant shown ->
     (exists txt url best, head notes = Some (txt, url, Some best) /\
        (best <? NOTE_SIMILARITY_THRESHOLD)%float = true) /\
     forall j pct txt url,
       In (j, pct, txt, url) shown <->
       exists k dist, notes !! k = Some (txt, url, Some dist) /\ j = 1 + k /\
         (NOTE_SIMILARITY_THRESHOLD <? dist)%float = false /\
         pct = ((1 - dist) * 100)%float).
Proof.
  intros hits notes. subst hits notes. split_and!.
  - unfold search. rewrite length_map. apply (length_firstn_le CLAIM_LIMIT).
  - unfold search. apply StronglySorted_map.
    apply (StronglySorted_weaken
             (fun a b : fact_check * float => float8_le (snd a) (snd b) = true)).
    + by intros [r x] [r' y].
    + apply StronglySorted_firstn, order_by_sorted;
        [apply float8_le_total | apply float8_le_trans].
  - intros h Hh. unfold search in Hh. apply in_map_iff in Hh as ([r x] & <- & Hp).
    split_and!; [done | done |].
    apply search_query_In in Hp as (r' & v & [= <- ->] & Hr & Hv).
    by exists r, v.
  - apply (length_firstn_le TOP_K).
  - apply StronglySorted_firstn, order_by_sorted;
      [apply nullable_le_total | apply nullable_le_trans].
  - intros n Hn. unfold search_notes in Hn.
    apply In_firstn_In, order_by_In, in_map_iff in Hn as (r & <- & Hr).
    by exists r.
  - intros shown. unfold display_results.
    destruct (search_notes _ _ _ _) as [|[[t u] [best|]] rest] eqn:E; try done.
    destruct (best <? NOTE_SIMILARITY_THRESHOLD)%float eqn:Hb; [| done].
    destruct (relevant_from 1 _) as [sh|] eqn:Hrel; [| done].
    intros [= <-]. split; [by exists t, u, best |].
    by apply relevant_from_spec.
Qed.
End SearchFacts.

Example sample_note_hits_value :
  sample_note_hits
  = [ ("Fact check text"%string, Some "https://twitter.com/i/web/status/42"%string,
       Some 0%float);
      (""%string, Some "https://twitter.com/i/web/status/99"%string,
       Some 0.5%float) ].
Proof. vm_compute. reflexivity. Qed.

(** C6 as worded fails on note search: on the sample table the second hit
    has distance 0.5, which is not below the threshold 0.5, and
    [display_results] lists it among the relevant results, with 50 where
    1 - distance is 0.5. *)
Lemma note_search_flag_counterexample :
  In (""%string, Some "https://twitter.com/i/web/status/99"%string,
      Some 0.5%float) sample_note_hits /\
  (0.5 <? Query.NOTE_SIMILARITY_THRESHOLD)%float = false /\
  Query.display_results sample_note_hits
  = Query.Relevant
      [ (1, 100%float, "Fact check text"%string,
         Some "https://twitter.com/i/web/status/42"%string);
        (2, 50%float, ""%string,
         Some "https://twitter.com/i/web/status/99"%string) ] /\
  50%float <> (1 - 0.5)%float.
Proof.
  split_and!.
  - vm_compute. right. left. reflexivity.
  - reflexivity.
  - vm_compute. reflexivity.
  - vm_compute. intros H. discriminate H.
Qed.

Section SearchResults.
Import Query.
Variable encode : string -> vector.
Variable cosine_distance : vector -> vector -> float.

Lemma shown_text_None t :
  shown_text (Some t) = None <-> t = ""%string \/ t = MISSING_OR_DELETED.
Proof.
  unfold shown_text.
  destruct (String.eqb_spec t "") as [-> | He]; simpl; [by split; [left |] |].
  destruct (String.eqb_spec t MISSING_OR_DELETED) as [-> | Hm]; simpl;
    [by split; [right |] |].
  split; [done | by intros [? | ?]].
Qed.

(** C10: on a reachable table every result of [/api/search] comes from a
    record with a tweet_vector, hence from a record that has been enriched
    and is not marked 'Missing'; its tweet_text field is null exactly when
    the stored text is the empty string or 'MISSING_OR_DELETED', and is the
    stored text otherwise. *)
Theorem search_hits_enriched (d : database) (q : string) (h : search_hit) :
  reachable encode d ->
  In h (search encode cosine_distance d q) ->
  exists r v t,
    In r (rows d) /\ tweet_vector r = Some v /\
    hit_tweet_id h = tweet_id r /\ hit_tweet_url h = tweet_url r /\
    hit_note_text h = note_text r /\
    distance h = cosine_distance v (encode q) /\
    tweet_text r = Some t /\ tweet_format r <> Some Missing /\
    Enrich.needs_enrichment r = false /\
    (hit_tweet_text h = None <-> t = ""%string \/ t = MISSING_OR_DELETED) /\
    (hit_tweet_text h <> None -> hit_tweet_text h = Some t).
Proof.
  intros Hreach Hh. unfold search in Hh.
  apply in_map_iff in Hh as ([r x] & <- & Hp).
  apply search_query_In in Hp as (r' & v & [= <- ->] & Hr & Hv).
  apply reachable_invariant in Hreach as [_ Hok].
  destruct (row_ok_vector encode r (Hok r Hr)) as ([Hiff _] & _ & _).
  destruct Hiff as [Ht Hf]; [by rewrite Hv |].
  destruct (tweet_text r) as [t|] eqn:Et; [| done].
  exists r, v, t. simpl. rewrite Et.
  split_and!; try done.
  - unfold Enrich.needs_enrichment. by rewrite Et.
  - apply shown_text_None.
  - unfold shown_text. by destruct (_ && _).
Qed.
End SearchResults.

Lemma search_hits_enriched_witness :
  exists r v t,
    In r (rows (sample_attempted (api_text "hello"))) /\
    tweet_vector r = Some v /\
    Query.hit_tweet_id sample_hit = tweet_id r /\
    Query.hit_tweet_url sample_hit = tweet_url r /\
    Query.hit_note_text sample_hit = note_text r /\
    Query.distance sample_hit = sample_distance v (sample_encode "q") /\
    tweet_text r = Some t /\ tweet_format r <> Some Missing /\
    Enrich.needs_enrichment r = false /\
    (Query.hit_tweet_text sample_hit = None <->
     t = ""%string \/ t = MISSING_OR_DELETED) /\
    (Query.hit_tweet_text sample_hit <> None ->
     Query.hit_tweet_text sample_hit = Some t).
Proof.
  apply (search_hits_enriched sample_encode sample_distance
           (sample_attempted (api_text "hello")) "q" sample_hit).
  - apply reachable_sample_attempted.
  - vm_compute. left. reflexivity.
Defined.

(** ** Source Data Fetcher *)

Lemma string_app_assoc (a b c : string) : (a +:+ b) +:+ c = a +:+ (b +:+ c).
Proof.
  induction a as [|x a IH]; [done |].
  change (String x ((a +:+ b) +:+ c) = String x (a +:+ (b +:+ c))).
  by rewrite IH.
Qed.

Section PathFacts.
Import Fetcher.

Lemma strip_prefix_Some p s rest :
  strip_prefix p s = Some rest -> s = p +:+ rest.
Proof.
  revert s. induction p as [|a p IH]; intros s H.
  - by injection H as ->.
  - destruct s as [|b s]; [done |]. cbn [strip_prefix] in H.
    destruct (Ascii.eqb_spec a b) as [-> | ?]; [| done].
    change (String b s = String b (p +:+ rest)). f_equal. by apply IH.
Qed.

Lemma path_join_DATA_DIR name :
  path_join DATA_DIR name
  = if isabs name then name else DATA_DIR +:+ "/" +:+ name.
Proof. unfold path_join. by destruct (isabs name). Qed.

Lemma top_level_not_absolute name :
  top_level name = true -> isabs name = false.
Proof.
  destruct name as [|c name]; [done |]. cbn [top_level isabs].
  by destruct (Ascii.eqb c "/").
Qed.

Lemma path_join_top_level name :
  top_level name = true -> path_join DATA_DIR name = DATA_DIR +:+ "/" +:+ name.
Proof.
  intros H. by rewrite path_join_DATA_DIR, top_level_not_absolute.
Qed.

Lemma str_split_top_level name :
  top_level name = true -> str_split name = [name].
Proof.
  induction name as [|c name IH]; [done |]. cbn [top_level str_split].
  destruct (Ascii.eqb c "/"); [done |]. intros H. by rewrite IH.
Qed.

Lemma str_split_app a b :
  top_level a = true -> str_split (a +:+ "/" +:+ b) = a :: str_split b.
Proof.
  induction a as [|c a IH]; [done |]. cbn [top_level]. intros H.
  apply andb_prop in H as [Hc Ha].
  change (str_split (String c (a +:+ "/" +:+ b)) = String c a :: str_split b).
  cbn [str_split]. destruct (Ascii.eqb c "/"); [done |]. by rewrite IH.
Qed.

Lemma tsv_not_skipped name :
  endswith name ".tsv" = true ->
  String.eqb name "" || String.eqb name "." || String.eqb name ".." = false.
Proof.
  intros H.
  destruct (String.eqb_spec name "") as [-> | ?]; [done |].
  destruct (String.eqb_spec name ".") as [-> | ?]; [done |].
  destruct (String.eqb_spec name "..") as [-> | ?]; done.
Qed.

Lemma arcname_top_level name :
  top_level name = true -> endswith name ".tsv" = true -> arcname name = [name].
Proof.
  intros Htop Htsv. unfold arcname. rewrite str_split_top_level by done.
  cbn [List.filter]. by rewrite tsv_not_skipped.
Qed.

Lemma targetpath_top_level name :
  top_level name = true -> endswith name ".tsv" = true ->
  targetpath_of DATA_DIR name = path_join DATA_DIR name.
Proof.
  intros Htop Htsv. unfold targetpath_of. by rewrite arcname_top_level.
Qed.

(** A member at the top level is looked for where it was extracted to. *)
Lemma resolve_top_level fs name :
  top_level name = true -> endswith name ".tsv" = true ->
  resolve fs (path_join DATA_DIR name) = Some (path_join DATA_DIR name).
Proof.
  intros Htop Htsv. rewrite path_join_top_level by done.
  unfold resolve. rewrite str_split_app, str_split_top_level by done.
  pose proof (tsv_not_skipped name Htsv) as Hskip.
  apply orb_false_elim in Hskip as [Hskip Hdd].
  change (isabs (DATA_DIR +:+ "/" +:+ name)) with false.
  cbn [walk at_dir forallb orb leads last].
  change (leads false [] DATA_DIR) with [DATA_DIR].
  change (at_dir fs false [DATA_DIR]) with true. cbn iota.
  unfold leads. rewrite Hskip, Hdd. done.
Qed.

Lemma first_tsv_filter members name :
  first_tsv members = Some name <->
  exists data rest,
    List.filter (fun m => endswith (fst m) ".tsv") members = (name, data) :: rest.
Proof.
  unfold first_tsv. destruct (List.filter _ members) as [|[n data] rest].
  - split; [done | by intros (? & ? & ?)].
  - cbn. split.
    + intros [= ->]. by eexists _, _.
    + by intros (? & ? & [= -> _ _]).
Qed.

Lemma first_tsv_endswith members name :
  first_tsv members = Some name -> endswith name ".tsv" = true.
Proof.
  intros (data & rest & H)%first_tsv_filter.
  assert (Hin : In (name, data) (List.filter (fun m => endswith (fst m) ".tsv")
                                   members)) by (rewrite H; by left).
  by apply filter_In in Hin as [_ Hin].
Qed.

Lemma last_is_Some {A} (l : list A) x : In x l -> is_Some (last l).
Proof.
  intros Hin. destruct l as [|y l] using rev_ind; [done |].
  rewrite last_snoc. by eexists.
Qed.

Lemma first_tsv_getinfo members name :
  first_tsv members = Some name -> is_Some (getinfo members name).
Proof.
  intros (data & rest & H)%first_tsv_filter.
  assert (Hin : In (name, data) members).
  { eapply (proj1 (filter_In _ _ _)). rewrite H. by left. }
  unfold getinfo.
  destruct (last_is_Some (List.filter (fun m => (fst m =? name)%string) members)
              (name, data)) as [x ->]; [| by eexists].
  apply filter_In. split; [done |]. apply String.eqb_refl.
Qed.

Lemma dated_paths_differ d base_name :
  local_zip_path_of d base_name <> local_tsv_path_of d base_name.
Proof.
  unfold local_zip_path_of, local_tsv_path_of. rewrite !path_join_DATA_DIR.
  destruct (year d) as [|c y].
  - intros H. repeat (apply (inj (String.app _)) in H). discriminate H.
  - change (isabs (String c y +:+ ?r)) with (Ascii.eqb c "/").
    destruct (Ascii.eqb c "/");
      intros H; repeat (apply (inj (String.app _)) in H); discriminate H.
Qed.

Lemma nothing_below_tsv_is_zip d base_name rest :
  local_tsv_path_of d base_name +:+ "/" +:+ rest <> local_zip_path_of d base_name.
Proof.
  unfold local_zip_path_of, local_tsv_path_of. rewrite !path_join_DATA_DIR.
  destruct (year d) as [|c y].
  - change (isabs (EmptyString +:+ ?r)) with false. cbn iota.
    rewrite !string_app_assoc.
    intros H. repeat (apply (inj (String.app _)) in H). discriminate H.
  - change (isabs (String c y +:+ ?r)) with (Ascii.eqb c "/").
    destruct (Ascii.eqb c "/");
      rewrite !string_app_assoc;
      intros H; repeat (apply (inj (String.app _)) in H); discriminate H.
Qed.
End PathFacts.

Section FileSystemFacts.
Import Fetcher.

Lemma makedirs_file_kept dir components fs k b :
  fs !! k = Some (File b) ->
  snd (makedirs dir components fs) !! k = Some (File b).
Proof.
  revert dir fs. induction components as [|c components IH]; intros dir fs Hk;
    [done |].
  cbn [makedirs]. destruct (fs !! (dir +:+ "/" +:+ c)) as [[?|]|] eqn:E.
  - done.
  - by apply IH.
  - apply IH. rewrite lookup_insert_ne; [done | congruence].
Qed.


Lemma zf_extract_file_kept members member path fs k b :
  fs !! k = Some (File b) ->
  exists b', snd (zf_extract members member path fs) !! k = Some (File b').
Proof.
  intros Hk. unfold zf_extract.
  destruct (getinfo members member) as [content|]; [| by eexists].
  destruct (arcname member) as [|c components]; [by eexists |].
  pose proof (makedirs_file_kept path (removelast (c :: components)) fs k b Hk)
    as Hm.
  destruct (makedirs _ _ _) as [[|] fs1]; cbn [snd] in *; [| by eexists].
  set (targetpath := targetpath_of _ _).
  destruct content, (fs1 !! targetpath) as [[?|]|] eqn:E; cbn [snd];
    try (by eexists);
    (destruct (decide (targetpath = k)) as [-> | ?];
     [ rewrite lookup_insert_eq; by eexists
     | rewrite lookup_insert_ne by done; by eexists ]).
Qed.



(** A member that cannot be read is not extracted. *)
Lemma zf_extract_unreadable members member path fs :
  (forall data, getinfo members member <> Some (Data data)) ->
  fst (zf_extract members member path fs) = false.
Proof.
  intros H. unfold zf_extract.
  destruct (getinfo members member) as [content|]; [| done].
  destruct (arcname member); [done |].
  destruct (makedirs _ _ _) as [[|] fs1]; [| done].
  destruct content as [data| |written]; [by destruct (H data) | done |].
  by destruct (fs1 !! _) as [[?|]|].
Qed.

Lemma move_tree_lookup src dst fs k x :
  move_tree src dst fs !! k = Some x ->
  exists k', fs !! k' = Some x /\ moved src dst k' = k.
Proof.
  unfold move_tree. intros H. apply elem_of_list_to_map_2 in H.
  apply list_elem_of_In, in_map_iff in H as ([k' x'] & [= <- <-] & Hin).
  exists k'. split; [| done].
  by apply elem_of_map_to_list, list_elem_of_In.
Qed.



(** A path that names no directory, is not [dst] and does not lie below
    [dst], names no directory after the renaming. *)
Lemma os_rename_not_dir src dst fs fs' z :
  os_rename src dst fs = Some fs' -> fs !! dst = None ->
  fs !! z <> Some Dir -> z <> dst ->
  (forall rest, dst +:+ "/" +:+ rest <> z) ->
  fs' !! z <> Some Dir.
Proof.
  unfold os_rename. intros H Hdst Hz Hne Hbelow.
  destruct (resolve fs src) as [from|]; [| done].
  destruct (fs !! from) as [[b|]|] eqn:Hfrom; [| | done].
  - rewrite Hdst in H. injection H as <-.
    rewrite lookup_insert_ne by done.
    destruct (decide (from = z)) as [-> | ?].
    + by rewrite lookup_delete_eq.
    + by rewrite lookup_delete_ne.
  - destruct (String.eqb_spec from dst) as [-> | ?]; [congruence |].
    destruct (strip_prefix _ dst); [done |]. rewrite Hdst in H.
    injection H as <-. intros Hdir.
    apply move_tree_lookup in Hdir as (k' & Hk' & Hmoved).
    unfold moved in Hmoved.
    destruct (String.eqb_spec k' from) as [-> | ?]; [congruence |].
    destruct (strip_prefix _ k') as [rest|]; [by eapply Hbelow |].
    congruence.
Qed.
End FileSystemFacts.

Section ExtractFacts.
Import Fetcher.


(** The downloaded archive is still a file, or gone, after the [try]
    block: the [finally] clause can remove it. *)
Lemma extract_tsv_zip_not_dir local_zip_path local_tsv_path fs b :
  fs !! local_zip_path = Some (File b) ->
  local_zip_path <> local_tsv_path ->
  (forall rest, local_tsv_path +:+ "/" +:+ rest <> local_zip_path) ->
  snd (extract_tsv local_zip_path local_tsv_path fs) !! local_zip_path
  <> Some Dir.
Proof.
  intros Hzip Hne Hbelow. unfold extract_tsv. rewrite Hzip.
  destruct b as [data|members]; [cbn [snd]; congruence |].
  destruct (List.filter _ members) as [|[internal_name data] ?];
    [cbn [snd]; congruence |].
  destruct (zf_extract_file_kept members internal_name DATA_DIR fs
              local_zip_path _ Hzip) as [b' Hkept].
  destruct (zf_extract _ _ _ _) as [[|] fs1]; cbn [snd] in *; [| congruence].
  assert (Hfs2 : delete local_tsv_path fs1 !! local_zip_path <> Some Dir)
    by (rewrite lookup_delete_ne by done; congruence).
  destruct (fs1 !! local_tsv_path) as [[?|]|]; cbn [snd];
    try congruence;
    (destruct (os_rename _ _ _) as [fs3|] eqn:E; cbn [snd]; [| done];
     eapply os_rename_not_dir; [done | apply lookup_delete_eq | done.. ]).
Qed.


(** A member at the top level of the archive: it is extracted to
    [DATA_DIR] joined with its name, unless it cannot be read or a
    directory has that path, and renamed from there, unless that is where
    it is to go. *)
Lemma extract_tsv_top_level local_zip_path local_tsv_path fs members name :
  fs !! local_zip_path = Some (File (Zip members)) ->
  fs !! local_tsv_path = None ->
  first_tsv members = Some name -> top_level name = true ->
  exists content,
    getinfo members name = Some content /\
    extract_tsv local_zip_path local_tsv_path fs
    = match content, fs !! path_join DATA_DIR name with
      | OpenError, _ => (false, fs)
      | _, Some Dir => (false, fs)
      | ReadError written, _ =>
          (false, <[path_join DATA_DIR name := File (Bytes written)]> fs)
      | Data data, _ =>
          let fs1 := <[path_join DATA_DIR name := File (Bytes data)]> fs in
          if decide (path_join DATA_DIR name = local_tsv_path)
          then (false, delete local_tsv_path fs1)
          else (true, <[local_tsv_path := File (Bytes data)]>
                        (delete (path_join DATA_DIR name)
                           (delete local_tsv_path fs1)))
      end.
Proof.
  intros Hzip Htsv Hfirst Htop.
  pose proof (first_tsv_endswith _ _ Hfirst) as Hends.
  destruct (first_tsv_getinfo _ _ Hfirst) as [content Hcontent].
  exists content. split; [done |].
  apply first_tsv_filter in Hfirst as (data0 & rest & Hf).
  unfold extract_tsv. rewrite Hzip, Hf.
  unfold zf_extract.
  rewrite Hcontent, targetpath_top_level, arcname_top_level by done.
  cbn [removelast makedirs].
  set (target := path_join DATA_DIR name).
  assert (Hrename : forall fs1 b,
    fs1 !! target = Some (File b) -> target <> local_tsv_path ->
    os_rename target local_tsv_path (delete local_tsv_path fs1)
    = Some (<[local_tsv_path := File b]>
              (delete target (delete local_tsv_path fs1)))).
  { intros fs1 b Hb Hne. unfold os_rename. subst target.
    rewrite resolve_top_level, lookup_delete_ne, Hb, lookup_delete_eq by done.
    done. }
  destruct content as [data| |written].
  - destruct (fs !! target) as [[?|]|] eqn:Htarget; [| done |];
      (destruct (decide (target = local_tsv_path)) as [E | E];
       [ rewrite E, lookup_insert_eq; unfold os_rename;
         rewrite <- E; subst target;
         rewrite resolve_top_level, lookup_delete_eq by done; done
       | rewrite lookup_insert_ne, Htsv by done;
         by rewrite (Hrename _ (Bytes data)) by (by rewrite ?lookup_insert_eq)
       ]).
  - by destruct (fs !! target) as [[?|]|].
  - by destruct (fs !! target) as [[?|]|].
Qed.
End ExtractFacts.

Section FetcherFacts.
Import Fetcher.
Variable remote : string -> option blob.

(** With the ZIP downloaded, the dataset is what the [try] block makes of
    it, and the ZIP is removed. *)
Lemma fetch_dataset_zip d base_name subdir w b :
  files w !! local_tsv_path_of d base_name = None ->
  files w !! local_zip_path_of d base_name <> Some Dir ->
  remote (zip_url_of d base_name subdir) = Some b ->
  fetch_dataset remote d base_name subdir w
  = let ex := extract_tsv (local_zip_path_of d base_name)
                (local_tsv_path_of d base_name)
                (<[local_zip_path_of d base_name := File b]> (files w)) in
    (Returns (fst ex),
     {| files := delete (local_zip_path_of d base_name) (snd ex);
        requested := requested w ++ [zip_url_of d base_name subdir] |}).
Proof.
  intros Htsv Hzip Hremote. unfold fetch_dataset, download_file.
  rewrite Htsv, Hremote.
  pose proof (extract_tsv_zip_not_dir (local_zip_path_of d base_name)
                (local_tsv_path_of d base_name)
                (<[local_zip_path_of d base_name := File b]> (files w)) b
                (lookup_insert_eq _ _ _) (dated_paths_differ d base_name)
                (nothing_below_tsv_is_zip d base_name)) as Hfinally.
  cbn zeta.
  destruct (files w !! local_zip_path_of d base_name) as [[?|]|]; [| done |];
    cbn [files requested];
    destruct (extract_tsv _ _ _) as [ok fs]; cbn [fst snd] in *;
    by destruct (fs !! local_zip_path_of d base_name) as [[?|]|].
Qed.

(** With the ZIP not to be had, the dated file and then the legacy file are
    asked for. *)
Lemma fetch_dataset_plain d base_name subdir w :
  files w !! local_tsv_path_of d base_name = None ->
  files w !! local_zip_path_of d base_name <> Some Dir ->
  remote (zip_url_of d base_name subdir) = None ->
  fetch_dataset remote d base_name subdir w
  = let fs := delete (local_zip_path_of d base_name) (files w) in
    let zip_url := zip_url_of d base_name subdir in
    let tsv_url := tsv_url_of d base_name subdir in
    let old_tsv_url := old_tsv_url_of d base_name in
    match remote tsv_url, remote old_tsv_url with
    | Some b, _ =>
        (Returns true,
         {| files := <[local_tsv_path_of d base_name := File b]> fs;
            requested := (requested w ++ [zip_url]) ++ [tsv_url] |})
    | None, Some b =>
        (Returns true,
         {| files := <[local_tsv_path_of d base_name := File b]>
                       (delete (local_tsv_path_of d base_name) fs);
            requested := ((requested w ++ [zip_url]) ++ [tsv_url])
                         ++ [old_tsv_url] |})
    | None, None =>
        (Returns false,
         {| files := delete (local_tsv_path_of d base_name)
                       (delete (local_tsv_path_of d base_name) fs);
            requested := ((requested w ++ [zip_url]) ++ [tsv_url])
                         ++ [old_tsv_url] |})
    end.
Proof.
  intros Htsv Hzip Hremote. unfold fetch_dataset, download_file.
  rewrite Htsv, Hremote. cbn zeta.
  assert (Hgone : delete (local_zip_path_of d base_name) (files w)
                    !! local_tsv_path_of d base_name = None).
  { rewrite lookup_delete_ne; [done | apply dated_paths_differ]. }
  destruct (files w !! local_zip_path_of d base_name) as [[?|]|]; [| done |];
    cbn [files requested]; rewrite Hgone;
    (destruct (remote (tsv_url_of d base_name subdir)) as [b|];
     cbn [files requested]; [done |];
     rewrite lookup_delete_eq;
     by destruct (remote (old_tsv_url_of d base_name))).
Qed.

(** A day yields its paths when every dataset is ready, each fetched in the
    state the previous one left. *)
Lemma fetch_datasets_both d w :
  let r1 := fetch_dataset remote d "notes-00000" "notes" w in
  let r2 := fetch_dataset remote d "noteStatusHistory-00000"
              "noteStatusHistory" (snd r1) in
  fetch_datasets remote d DATASETS [] w
  = match fst r1 with
    | Returns true => (fst r2, canonical_paths d, snd r2)
    | o => (o, [local_tsv_path_of d "notes-00000"], snd r1)
    end.
Proof.
  intros r1 r2. subst r1 r2. unfold DATASETS. cbn [fetch_datasets app].
  destruct (fetch_dataset remote d "notes-00000" "notes" w) as [[[|]|] w1];
    cbn [fst snd]; [| done | done].
  by destruct (fetch_dataset remote d "noteStatusHistory-00000"
                 "noteStatusHistory" w1) as [[[|]|] w2].
Qed.

Lemma try_days_cons date_of k days w :
  try_days remote date_of (k :: days) w
  = let r := fetch_datasets remote (date_of k) DATASETS [] w in
    match fst (fst r) with
    | Returns true => (Returns (Some (snd (fst r))), snd r)
    | Returns false => try_days remote date_of days (snd r)
    | Raises => (Raises, snd r)
    end.
Proof.
  cbn [try_days]. by destruct (fetch_datasets _ _ _ _ _) as [[[[|]|] paths] w'].
Qed.


End FetcherFacts.

Example legacy_files_are_used :
  let r := Fetcher.download_latest_data remote_legacy (fun _ => sample_day)
             sample_world in
  fst r = Fetcher.Returns
            (Some [ "data/2026-11-03_notes-00000.tsv";
                    "data/2026-11-03_noteStatusHistory-00000.tsv" ]%string) /\
  length (Fetcher.requested (snd r)) = 6.
Proof. vm_compute. split; reflexivity. Qed.


(* ===================================================================== *)
(** * Further properties *)
(* ===================================================================== *)

(** ** Loader: batches, commits, first load, reload *)

Section ChunkFacts.
Context {A : Type}.

Lemma chunks_In (size : nat) (l : list A) (c : list A) :
  0 < size -> In c (Ingest.chunks size l) ->
  exists k, k * size < length l /\ c = firstn size (skipn (k * size) l).
Proof.
  intros Hsize Hc. unfold Ingest.chunks in Hc.
  apply in_map_iff in Hc as (k & <- & Hk). apply in_seq in Hk as [_ Hk].
  exists k. split; [| apply slice_chunk].
  pose proof (Nat.div_mod_eq (length l + size - 1) size) as Hdiv.
  pose proof (Nat.mod_upper_bound (length l + size - 1) size) as Hmod.
  simpl in Hk. nia.
Qed.

(** X1: the batches of the loader (and the pages of a batch) partition
    their input: put together in order they are the input, none is empty
    and none is longer than the batch size; there are
    ceil(length / size) of them. *)
Theorem chunks_partition (size : nat) (l : list A) :
  0 < size ->
  concat (Ingest.chunks size l) = l /\
  length (Ingest.chunks size l) = (length l + size - 1) / size /\
  (forall c, In c (Ingest.chunks size l) -> 0 < length c <= size).
Proof.
  intros Hsize. split_and!.
  - by apply concat_chunks.
  - unfold Ingest.chunks. by rewrite length_map, length_seq.
  - intros c Hc. apply chunks_In in Hc as (k & Hk & ->); [| done].
    rewrite length_firstn, length_skipn. lia.
Qed.
End ChunkFacts.

Lemma chunks_partition_witness :
  concat (Ingest.chunks Ingest.BATCH_SIZE sample_notes) = sample_notes /\
  length (Ingest.chunks Ingest.BATCH_SIZE sample_notes)
  = (length sample_notes + Ingest.BATCH_SIZE - 1) / Ingest.BATCH_SIZE /\
  (forall c, In c (Ingest.chunks Ingest.BATCH_SIZE sample_notes) ->
             0 < length c <= Ingest.BATCH_SIZE).
Proof.
  apply (chunks_partition Ingest.BATCH_SIZE sample_notes).
  unfold Ingest.BATCH_SIZE. lia.
Defined.

Section LoaderFacts.
Import Ingest.
Variable encode : string -> vector.

Lemma filter_and_dedup_NoDup notes_df status_df :
  NoDup (map tweetId (filter_and_dedup notes_df status_df)).
Proof.
  rewrite filter_and_dedup_survivors. apply NoDup_drop_duplicates_from.
Qed.

Lemma upsert_list_length_le ivs (l : list fact_check) :
  length l <= length (upsert_list ivs l).
Proof.
  revert l. induction ivs as [|[[i t] v] ivs IH]; intros l; [done |].
  simpl. etrans; [| apply IH]. rewrite upsert_length.
  destruct (by_tweet_id _ l); lia.
Qed.

(** X2: whatever the two files hold and whatever the table holds, [main]
    commits every batch: after the deduplication no INSERT statement meets
    a key twice.  The sequence advances by one per distinct helpful tweet,
    also for tweets already stored. *)
Theorem main_always_commits
    (now : nat -> Z) (notes_df : list note) (status_df : list note_status)
    (d : database) :
  exists d',
    main encode now notes_df status_df d = Committed d' /\
    id_seq d'
    = (id_seq d + Z.of_nat (length (filter_and_dedup notes_df status_df)))%Z /\
    length (rows d) <= length (rows d') /\
    forall n, In n (filter_and_dedup notes_df status_df) ->
              synced (values_of encode n) (rows d').
Proof.
  unfold main.
  destruct (batch_loader_distinct encode now
              (filter_and_dedup notes_df status_df) d
              (filter_and_dedup_NoDup notes_df status_df))
    as (ivs & -> & Hvals & Hids).
  eexists. split; [done |]. cbn [rows id_seq].
  assert (Hlen : length ivs = length (filter_and_dedup notes_df status_df)).
  { by rewrite <- (length_map snd ivs), Hvals, length_map. }
  split_and!.
  - by rewrite Hlen.
  - apply upsert_list_length_le.
  - intros n Hn. apply upsert_list_synced.
    + rewrite stamped_keys, Hvals, values_of_keys.
      apply filter_and_dedup_NoDup.
    + rewrite Hvals. by apply in_map.
Qed.

Lemma upsert_fresh i now v l :
  ~ In (v_tweet_id v) (map tweet_id l) ->
  upsert i now v l = l ++ [new_row i now v].
Proof.
  induction l as [|r l IH]; simpl; [done |]. intros Hn.
  destruct (Z.eqb_spec (tweet_id r) (v_tweet_id v)) as [Heq|Hne]; [tauto |].
  f_equal. apply IH. tauto.
Qed.

Lemma upsert_list_fresh ivs l :
  NoDup (map (fun iv => v_tweet_id (snd iv)) ivs) ->
  (forall iv, In iv ivs -> ~ In (v_tweet_id (snd iv)) (map tweet_id l)) ->
  upsert_list ivs l = l ++ new_rows_of ivs.
Proof.
  revert l. induction ivs as [|[[i t] v] ivs IH]; intros l Hnd Hfresh.
  - simpl. by rewrite app_nil_r.
  - simpl in Hnd. apply NoDup_cons in Hnd as [Hv Hnd].
    rewrite list_elem_of_In in Hv.
    cbn [upsert_list fold_left]. fold (upsert_list ivs (upsert i t v l)).
    rewrite upsert_fresh by (apply (Hfresh (i, t, v)); by left).
    rewrite IH; [by rewrite <- app_assoc | done |].
    intros iv Hiv. rewrite map_app, in_app_iff. intros [Hin | [Heq | []]].
    + apply (Hfresh iv); [by right | done].
    + apply Hv. apply in_map_iff. exists iv. split; [| done].
      simpl in Heq. congruence.
Qed.

Lemma ids_from_row_ids seq ivs :
  ids_from seq ivs ->
  map row_id (new_rows_of ivs)
  = map (fun k => (seq + Z.of_nat k)%Z) (List.seq 1 (length ivs)).
Proof.
  revert seq. induction ivs as [|[[i t] v] ivs IH]; intros seq; [done |].
  intros [-> Hids].
  change (new_rows_of ((seq + 1, t, v) :: ivs)%Z)
    with (new_row (seq + 1) t v :: new_rows_of ivs).
  cbn [length List.seq map]. f_equal.
  rewrite (IH _ Hids), <- (seq_shift (length ivs) 1), map_map.
  apply map_ext. intros k. lia.
Qed.

(** X3: a first load.  When none of the distinct helpful tweets is in the
    table, [main] appends one record per tweet, in file order, each with
    the URL built from its tweetId, its summary (empty when missing) with
    the embedding of that text, no tweet text, vector or format, and the
    next ids of the sequence; the stored records are left as they are. *)
Theorem main_first_load
    (now : nat -> Z) (notes_df : list note) (status_df : list note_status)
    (d : database) :
  (forall n, In n (filter_and_dedup notes_df status_df) ->
             ~ In (tweetId n) (map tweet_id (rows d))) ->
  exists ivs,
    main encode now notes_df status_df d
    = Committed {| rows := rows d ++ new_rows_of ivs;
                   id_seq := id_seq d + Z.of_nat (length ivs) |} /\
    map snd ivs
    = map (values_of encode) (filter_and_dedup notes_df status_df) /\
    map tweet_id (new_rows_of ivs)
    = map tweetId (filter_and_dedup notes_df status_df) /\
    map row_id (new_rows_of ivs)
    = map (fun k => (id_seq d + Z.of_nat k)%Z)
          (List.seq 1 (length (filter_and_dedup notes_df status_df))) /\
    (forall r, In r (new_rows_of ivs) -> fresh r).
Proof.
  intros Hfresh. unfold main.
  destruct (batch_loader_distinct encode now
              (filter_and_dedup notes_df status_df) d
              (filter_and_dedup_NoDup notes_df status_df))
    as (ivs & -> & Hvals & Hids).
  assert (Hlen : length ivs = length (filter_and_dedup notes_df status_df)).
  { by rewrite <- (length_map snd ivs), Hvals, length_map. }
  assert (Hkeys : map (fun iv : Z * Z * values_row => v_tweet_id (snd iv)) ivs
                  = map tweetId (filter_and_dedup notes_df status_df)).
  { by rewrite stamped_keys, Hvals, values_of_keys. }
  exists ivs. split_and!.
  - rewrite upsert_list_fresh; [done | |].
    + rewrite Hkeys. apply filter_and_dedup_NoDup.
    + intros iv Hiv.
      assert (Hk : In (v_tweet_id (snd iv))
                      (map tweetId (filter_and_dedup notes_df status_df))).
      { rewrite <- Hkeys. apply in_map_iff. by exists iv. }
      apply in_map_iff in Hk as (n & <- & Hn). by apply Hfresh.
  - done.
  - rewrite <- Hkeys. unfold new_rows_of. rewrite map_map.
    apply map_ext. by intros [[i t] v].
  - rewrite <- Hlen. by apply ids_from_row_ids.
  - intros r Hr. unfold new_rows_of in Hr.
    apply in_map_iff in Hr as ([[i t] v] & <- & _). by repeat split.
Qed.
End LoaderFacts.

Example reload_draws_ids :
  Ingest.result_db
    (Ingest.main sample_encode (fun _ => 0%Z) sample_notes sample_status
       sample_loaded)
  = {| rows := rows sample_loaded; id_seq := 4 |}.
Proof. vm_compute. reflexivity. Qed.

Lemma main_first_load_witness :
  exists ivs,
    Ingest.main sample_encode (fun _ => 0%Z) sample_notes sample_status empty_db
    = Ingest.Committed
        {| rows := rows empty_db ++ new_rows_of ivs;
           id_seq := id_seq empty_db + Z.of_nat (length ivs) |} /\
    map snd ivs
    = map (values_of sample_encode)
          (Ingest.filter_and_dedup sample_notes sample_status) /\
    map tweet_id (new_rows_of ivs)
    = map Ingest.tweetId (Ingest.filter_and_dedup sample_notes sample_status) /\
    map row_id (new_rows_of ivs)
    = map (fun k => (id_seq empty_db + Z.of_nat k)%Z)
          (List.seq 1 (length (Ingest.filter_and_dedup sample_notes
                                 sample_status))) /\
    (forall r, In r (new_rows_of ivs) -> fresh r).
Proof.
  apply (main_first_load sample_encode (fun _ => 0%Z) sample_notes
           sample_status empty_db).
  intros n _ H. exact H.
Defined.

Section Growth.
Variable R : fact_check -> fact_check -> Prop.
Hypothesis R_refl : forall r, R r r.
Hypothesis R_trans : forall a b c, R a b -> R b c -> R a c.

Lemma Forall2_R_refl l : Forall2 R l l.
Proof using R_refl. induction l; by constructor. Qed.

Lemma Forall2_R_trans l1 l2 l3 :
  Forall2 R l1 l2 -> Forall2 R l2 l3 -> Forall2 R l1 l3.
Proof using R_trans.
  intros H. revert l3. induction H as [|a b l1 l2 Hab H IH]; intros l3 H3.
  - by inversion H3.
  - inversion H3; subst. constructor; [by eapply R_trans | by apply IH].
Qed.

Lemma extends_refl l : extends R l l.
Proof using R_refl.
  exists l, []. split; [by rewrite app_nil_r | apply Forall2_R_refl].
Qed.

Lemma extends_trans l1 l2 l3 :
  extends R l1 l2 -> extends R l2 l3 -> extends R l1 l3.
Proof using R_refl R_trans.
  intros (a & b & -> & Hab) (c & e & -> & Hc).
  apply Forall2_app_inv_l in Hc as (c1 & c2 & Hc1 & Hc2 & ->).
  exists c1, (c2 ++ e). split; [by rewrite app_assoc |].
  by eapply Forall2_R_trans.
Qed.
End Growth.

Lemma kept_by_loader_refl r : kept_by_loader r r.
Proof. by repeat split. Qed.

Lemma kept_by_loader_trans a b c :
  kept_by_loader a b -> kept_by_loader b c -> kept_by_loader a c.
Proof.
  intros (? & ? & ? & ? & ? & ?) (? & ? & ? & ? & ? & ?).
  repeat split; congruence.
Qed.

Lemma kept_by_enrichment_refl r : kept_by_enrichment r r.
Proof. by repeat split. Qed.

Lemma kept_by_enrichment_trans a b c :
  kept_by_enrichment a b -> kept_by_enrichment b c -> kept_by_enrichment a c.
Proof.
  intros (? & ? & ? & ? & ? & ?) (? & ? & ? & ? & ? & ?).
  repeat split; congruence.
Qed.

Lemma same_identity_refl r : same_identity r r.
Proof. done. Qed.

Lemma same_identity_trans a b c :
  same_identity a b -> same_identity b c -> same_identity a c.
Proof. unfold same_identity. congruence. Qed.

Lemma extends_weaken (R R' : fact_check -> fact_check -> Prop) l l' :
  (forall a b, R a b -> R' a b) -> extends R l l' -> extends R' l l'.
Proof.
  intros HR (l1 & l2 & -> & H). exists l1, l2. split; [done |].
  induction H; constructor; auto.
Qed.

Section ReloadFacts.
Import Ingest.
Variable encode : string -> vector.

Lemma upsert_extends i now v l :
  extends kept_by_loader l (upsert i now v l).
Proof.
  induction l as [|r l IH]; simpl.
  - exists [], [new_row i now v]. split; [done | constructor].
  - destruct (Z.eqb (tweet_id r) (v_tweet_id v)).
    + exists (do_update v r :: l), []. split; [by rewrite app_nil_r |].
      constructor; [by destruct r |].
      apply Forall2_R_refl, kept_by_loader_refl.
    + destruct IH as (l1 & l2 & -> & H). exists (r :: l1), l2.
      split; [done |]. constructor; [apply kept_by_loader_refl | done].
Qed.

Lemma upsert_list_extends ivs l :
  extends kept_by_loader l (upsert_list ivs l).
Proof.
  revert l. induction ivs as [|[[i t] v] ivs IH]; intros l.
  - apply extends_refl, kept_by_loader_refl.
  - simpl. eapply extends_trans;
      [apply kept_by_loader_refl | apply kept_by_loader_trans
      | apply upsert_extends | apply IH].
Qed.

Lemma main_extends now notes_df status_df d :
  extends kept_by_loader (rows d)
    (rows (result_db (main encode now notes_df status_df d))).
Proof.
  unfold main, batch_loader.
  destruct (load_batches_result encode now 0
              (chunks BATCH_SIZE (filter_and_dedup notes_df status_df)) d)
    as (ivs & -> & _).
  apply upsert_list_extends.
Qed.

(** X4: a run of the loader, committed or not, on any files, leaves every
    stored record in place with its id, its tweet_id, its created_at and
    its tweet_text, tweet_vector and tweet_format: reloading never undoes
    an enrichment and never deletes or reorders a record; new records
    follow the stored ones. *)
Theorem loader_keeps_enrichment
    (now : nat -> Z) (notes_df : list note) (status_df : list note_status)
    (d : database) :
  extends kept_by_loader (rows d)
    (rows (result_db (main encode now notes_df status_df d))) /\
  (id_seq d <= id_seq (result_db (main encode now notes_df status_df d)))%Z.
Proof.
  split; [apply main_extends |].
  unfold main, batch_loader.
  destruct (load_batches_result encode now 0
              (chunks BATCH_SIZE (filter_and_dedup notes_df status_df)) d)
    as (ivs & _ & _ & Hseq).
  lia.
Qed.
End ReloadFacts.

(** ** Enrichment Loop: what it writes, how it fails, what it reports *)

Section EnrichWrites.
Import Enrich.
Variable encode : string -> vector.
Variable api : nat -> string -> http_reply.

Lemma setter_kept g r : setter encode g -> kept_by_enrichment r (g r).
Proof. intros []; by repeat split. Qed.

Lemma process_row_kept st i url :
  Forall2 kept_by_enrichment (rows (db st))
    (rows (db (process_row encode api st (i, url)))) /\
  id_seq (db (process_row encode api st (i, url))) = id_seq (db st).
Proof.
  destruct (process_row_db encode api st i url) as [-> | (g & Hg & ->)].
  - split; [apply Forall2_R_refl, kept_by_enrichment_refl | done].
  - split; [| done]. simpl. induction (rows (db st)) as [|r l IH];
      simpl; constructor; [| exact IH].
    destruct (Z.eqb (row_id r) i);
      [by apply setter_kept | apply kept_by_enrichment_refl].
Qed.

Lemma attempts_kept todo st :
  Forall2 kept_by_enrichment (rows (db st))
    (rows (db (fold_left (process_row encode api) todo st))) /\
  id_seq (db (fold_left (process_row encode api) todo st)) = id_seq (db st).
Proof.
  revert st. induction todo as [|[i url] todo IH]; intros st.
  - split; [apply Forall2_R_refl, kept_by_enrichment_refl | done].
  - cbn [fold_left].
    destruct (IH (process_row encode api st (i, url))) as [H1 H2].
    destruct (process_row_kept st i url) as [H3 H4]. split; [| congruence].
    eapply Forall2_R_trans; [apply kept_by_enrichment_trans | done | done].
Qed.

Lemma passes_kept n st :
  Forall2 kept_by_enrichment (rows (db st))
    (rows (db (passes encode api n st))) /\
  id_seq (db (passes encode api n st)) = id_seq (db st).
Proof.
  revert st. induction n as [|n IH]; intros st.
  - split; [apply Forall2_R_refl, kept_by_enrichment_refl | done].
  - simpl. destruct (IH (enrich_pass encode api st)) as [H1 H2].
    destruct (attempts_kept (get_null_rows (db st) BATCH_SIZE) st) as [H3 H4].
    split; [| unfold enrich_pass in *; congruence].
    eapply Forall2_R_trans; [apply kept_by_enrichment_trans | done | done].
Qed.

(** When the loop returns, it has run some number of whole passes. *)
Lemma main_loop_passes fuel st st' :
  main_loop encode api fuel st = Some st' ->
  exists n, st' = passes encode api n st /\
            get_null_rows (db st') BATCH_SIZE = [].
Proof.
  revert st. induction fuel as [|fuel IH]; intros st; [done |]. simpl.
  destruct (get_null_rows (db st) BATCH_SIZE) eqn:E.
  - intros [= <-]. by exists 0.
  - intros H. destruct (IH _ H) as (n & -> & Hn). by exists (S n).
Qed.

(** X5: the Enrichment Loop writes tweet_text, tweet_vector and
    tweet_format only.  After any sequence of attempts, and so when [main]
    returns, the table has the same records in the same places, each with
    the id, tweet_id, tweet_url, note_text, note_vector and created_at it
    had, and the sequence has not moved. *)
Theorem enrichment_keeps_loaded_columns :
  (forall todo st,
     Forall2 kept_by_enrichment (rows (db st))
       (rows (db (fold_left (process_row encode api) todo st))) /\
     id_seq (db (fold_left (process_row encode api) todo st))
     = id_seq (db st)) /\
  (forall fuel d st,
     main encode api fuel d = Some st ->
     Forall2 kept_by_enrichment (rows d) (rows (db st)) /\
     length (rows (db st)) = length (rows d) /\
     id_seq (db st) = id_seq d).
Proof.
  split; [apply attempts_kept |].
  intros fuel d st Hmain. apply main_loop_passes in Hmain as (n & -> & _).
  destruct (passes_kept n (start d)) as [H1 H2]. split_and!; [done | | done].
  symmetry. by eapply Forall2_length.
Qed.
End EnrichWrites.

Section NeverDeleted.
Variable encode : string -> vector.

Lemma kept_by_loader_identity a b : kept_by_loader a b -> same_identity a b.
Proof. intros (H1 & H2 & _). unfold same_identity, identity. congruence. Qed.

Lemma kept_by_enrichment_identity a b :
  kept_by_enrichment a b -> same_identity a b.
Proof. intros (H1 & H2 & _). unfold same_identity, identity. congruence. Qed.

Lemma step_extends d d' :
  step encode d d' -> extends same_identity (rows d) (rows d').
Proof.
  intros [now notes_df status_df d0 | api st k].
  - eapply extends_weaken; [apply kept_by_loader_identity |].
    apply main_extends.
  - exists (rows (Enrich.db
               (fold_left (Enrich.process_row encode api)
                  (firstn k (Enrich.get_null_rows (Enrich.db st)
                               Enrich.BATCH_SIZE)) st))), [].
    split; [by rewrite app_nil_r |].
    destruct (attempts_kept encode api
                (firstn k (Enrich.get_null_rows (Enrich.db st)
                             Enrich.BATCH_SIZE)) st) as [H _].
    induction H; constructor; [by apply kept_by_enrichment_identity | done].
Qed.

(** X6: no record is ever deleted or renumbered.  Through any sequence of
    loader runs and enrichment attempts the stored records stay in place
    with their id and tweet_id; the table only grows at its end. *)
Theorem records_never_deleted (d d' : database) :
  rtc (step encode) d d' ->
  extends same_identity (rows d) (rows d') /\
  length (rows d) <= length (rows d').
Proof.
  intros Hrtc.
  assert (H : extends same_identity (rows d) (rows d')).
  { induction Hrtc as [d|d1 d2 d3 Hstep _ IH].
    - apply extends_refl, same_identity_refl.
    - eapply extends_trans;
        [apply same_identity_refl | apply same_identity_trans
        | by apply step_extends | exact IH]. }
  split; [done |]. destruct H as (l1 & l2 & -> & H).
  rewrite length_app, <- (Forall2_length _ _ _ H). lia.
Qed.
End NeverDeleted.

Lemma records_never_deleted_witness :
  extends same_identity (rows sample_loaded)
    (rows (sample_attempted api_not_found)) /\
  length (rows sample_loaded) <= length (rows (sample_attempted api_not_found)).
Proof.
  apply (records_never_deleted sample_encode).
  eapply rtc_once. apply step_sample_attempted.
Defined.

Section EnrichFailures.
Import Enrich.
Variable encode : string -> vector.
Variable api : nat -> string -> http_reply.

Lemma fetch_tweet_details_None requests_get url :
  fetch_tweet_details requests_get url = None <->
  url = None \/
  exists u, url = Some u /\
    (isdigit (tweet_id_of_url u) = false \/
     requests_get (tweet_id_of_url u) = RequestFailed).
Proof.
  unfold fetch_tweet_details. destruct url as [u|]; [| by split; [left |]].
  destruct (isdigit (tweet_id_of_url u)) eqn:Hd; simpl.
  - destruct (requests_get (tweet_id_of_url u)) eqn:Hr.
    + split; [done |]. intros [? | (u' & [= <-] & [? | ?])]; congruence.
    + split; [| done]. intros _. right. exists u. split; [done | by right].
    + split; [done |]. intros [? | (u' & [= <-] & [? | ?])]; congruence.
  - split; [| done]. intros _. right. exists u. split; [done | by left].
Qed.

(** X7: an attempt that gets no answer changes nothing.  When the record
    has no URL, or its URL does not end in a decimal tweet id, or the
    request raises (network error, timeout, a status other than 404),
    [fetch_tweet_details] returns None and the attempt leaves the table
    and both result counters as they are; only the attempt counter moves.
    The record is not marked missing and stays eligible. *)
Theorem unanswered_attempt_changes_nothing
    (st : loop_state) (i : Z) (url : option string) :
  (url = None \/
   exists u, url = Some u /\
     (isdigit (tweet_id_of_url u) = false \/
      api (S (total_processed st)) (tweet_id_of_url u) = RequestFailed)) ->
  process_row encode api st (i, url)
  = {| db := db st;
       total_processed := S (total_processed st);
       total_success := total_success st;
       total_missing := total_missing st |} /\
  get_null_rows (db (process_row encode api st (i, url))) BATCH_SIZE
  = get_null_rows (db st) BATCH_SIZE.
Proof.
  intros H. apply fetch_tweet_details_None in H.
  unfold process_row. by rewrite H.
Qed.

Lemma stuck_row_attempts todo st r :
  NoDup (map row_id (rows (db st))) ->
  In r (rows (db st)) ->
  (forall n, fetch_tweet_details (api n) (tweet_url r) = None) ->
  (forall i url, In (i, url) todo -> i = row_id r -> url = tweet_url r) ->
  In r (rows (db (fold_left (process_row encode api) todo st))) /\
  NoDup (map row_id (rows (db (fold_left (process_row encode api) todo st)))).
Proof.
  revert st. induction todo as [|[i url] todo IH]; intros st Hnd Hr Hfail Hurl;
    [done |].
  cbn [fold_left]. apply IH; [| | done |].
  - destruct (process_row_db encode api st i url) as [-> | (g & Hg & ->)];
      [done |]. by rewrite (update_where_id_row_ids encode).
  - destruct (Z.eq_dec i (row_id r)) as [-> | Hne].
    + rewrite (Hurl (row_id r) url) by (done || by left).
      unfold process_row. by rewrite Hfail.
    + destruct (process_row_db encode api st i url) as [-> | (g & Hg & ->)];
        [done |].
      simpl. apply in_map_iff. exists r. split; [| done].
      by destruct (Z.eqb_spec (row_id r) i).
  - intros j url' Hj. apply Hurl. by right.
Qed.

Lemma stuck_row_loop fuel st r :
  NoDup (map row_id (rows (db st))) ->
  In r (rows (db st)) -> needs_enrichment r = true ->
  (forall n, fetch_tweet_details (api n) (tweet_url r) = None) ->
  main_loop encode api fuel st = None.
Proof.
  revert st. induction fuel as [|fuel IH]; intros st Hnd Hr Hneeds Hfail;
    [done |].
  simpl. destruct (get_null_rows (db st) BATCH_SIZE) as [|p todo] eqn:E.
  - exfalso. apply get_null_rows_nil in E. unfold pending in E.
    assert (Hin : In r (List.filter needs_enrichment (rows (db st))))
      by (by apply filter_In).
    destruct (List.filter needs_enrichment (rows (db st))); [done | done].
  - destruct (stuck_row_attempts (p :: todo) st r Hnd Hr Hfail) as [Hr' Hnd'].
    { intros i url Hin ->. rewrite <- E in Hin.
      apply get_null_rows_In in Hin as (r0 & Hr0 & _ & Hid & ->).
      by rewrite (NoDup_map_In_inj row_id (rows (db st)) r r0). }
    apply IH; unfold enrich_pass; rewrite ?E; done.
Qed.

(** X8: retries are unbounded.  If one record that needs enrichment never
    gets an answer (its URL has no decimal id, or the request for it always
    fails), the loop never reaches the empty work-selection: [main] does
    not return, however many passes it is given. *)
Theorem stuck_record_blocks_termination
    (d : database) (r : fact_check) :
  NoDup (map row_id (rows d)) ->
  In r (rows d) -> needs_enrichment r = true ->
  (forall n, fetch_tweet_details (api n) (tweet_url r) = None) ->
  forall fuel, main encode api fuel d = None.
Proof.
  intros Hnd Hr Hneeds Hfail fuel. by apply (stuck_row_loop fuel (start d) r).
Qed.
End EnrichFailures.

Lemma unanswered_attempt_changes_nothing_witness :
  Enrich.process_row sample_encode api_failing (Enrich.start sample_loaded)
    (1%Z, Some "https://twitter.com/i/web/status/42"%string)
  = {| Enrich.db := Enrich.db (Enrich.start sample_loaded);
       Enrich.total_processed := S (Enrich.total_processed
                                      (Enrich.start sample_loaded));
       Enrich.total_success := Enrich.total_success (Enrich.start sample_loaded);
       Enrich.total_missing := Enrich.total_missing (Enrich.start sample_loaded) |} /\
  Enrich.get_null_rows
    (Enrich.db (Enrich.process_row sample_encode api_failing
                  (Enrich.start sample_loaded)
                  (1%Z, Some "https://twitter.com/i/web/status/42"%string)))
    Enrich.BATCH_SIZE
  = Enrich.get_null_rows (Enrich.db (Enrich.start sample_loaded))
      Enrich.BATCH_SIZE.
Proof.
  apply (unanswered_attempt_changes_nothing sample_encode api_failing
           (Enrich.start sample_loaded) 1%Z
           (Some "https://twitter.com/i/web/status/42"%string)).
  right. exists "https://twitter.com/i/web/status/42"%string.
  split; [reflexivity | right; reflexivity].
Defined.

Lemma stuck_record_blocks_termination_witness :
  Enrich.main sample_encode api_failing 1000 sample_loaded = None.
Proof.
  apply (stuck_record_blocks_termination sample_encode api_failing
           sample_loaded sample_fresh_row).
  - apply (bool_decide_unpack _). by vm_compute.
  - vm_compute. left. reflexivity.
  - reflexivity.
  - intros n. vm_compute. reflexivity.
Defined.

Section EnrichCounters.
Import Enrich.
Variable encode : string -> vector.
Variable api : nat -> string -> http_reply.

Lemma setter_needs g r : setter encode g -> needs_enrichment (g r) = false.
Proof. by intros []. Qed.

Lemma filter_update_other i g l :
  ~ In i (map row_id l) ->
  map (fun r => if Z.eqb (row_id r) i then g r else r) l = l.
Proof.
  induction l as [|a l IH]; simpl; [done |]. intros Hn.
  destruct (Z.eqb_spec (row_id a) i) as [Heq|Hne]; [tauto |].
  f_equal. apply IH. tauto.
Qed.

(** Updating the one row with a given id, which needed enrichment, leaves
    one pending row less. *)
Lemma pending_update i g l r :
  setter encode g -> NoDup (map row_id l) -> In r l -> row_id r = i ->
  needs_enrichment r = true ->
  S (length (List.filter needs_enrichment
               (map (fun r => if Z.eqb (row_id r) i then g r else r) l)))
  = length (List.filter needs_enrichment l).
Proof.
  intros Hg. induction l as [|a l IH]; simpl; [done |].
  intros Hnd Hr Hid Hneeds. apply NoDup_cons in Hnd as [Ha Hnd].
  rewrite list_elem_of_In in Ha.
  destruct (Z.eqb_spec (row_id a) i) as [Heq|Hne].
  - assert (a = r) as ->.
    { destruct Hr as [-> | Hr]; [done |]. exfalso. apply Ha.
      apply in_map_iff. exists r. split; [congruence | done]. }
    rewrite (setter_needs g r Hg), Hneeds. simpl.
    rewrite filter_update_other; [done | congruence].
  - destruct Hr as [-> | Hr]; [done |].
    destruct (needs_enrichment a); simpl; by rewrite <- (IH Hnd Hr Hid Hneeds).
Qed.

Lemma process_row_counts st i url r :
  NoDup (map row_id (rows (db st))) ->
  In r (rows (db st)) -> row_id r = i -> needs_enrichment r = true ->
  let st' := process_row encode api st (i, url) in
  total_success st' + total_missing st' + pending (db st')
  = total_success st + total_missing st + pending (db st) /\
  total_processed st' - (total_success st' + total_missing st')
  >= total_processed st - (total_success st + total_missing st) /\
  total_processed st' = S (total_processed st).
Proof.
  intros Hnd Hr Hid Hneeds. cbn zeta. unfold process_row.
  destruct (fetch_tweet_details _ url) as [[text fmt]|] eqn:E;
    [| cbn [db total_success total_missing total_processed]; lia].
  destruct (String.eqb_spec text "MISSING") as [Heq|Hne];
    cbn [db total_success total_missing total_processed]; unfold pending.
  - pose proof (pending_update i set_missing _ r (setter_missing encode)
                  Hnd Hr Hid Hneeds) as Hp.
    simpl in Hp |- *. lia.
  - assert (Hg : setter encode (set_enriched text (encode text) fmt)).
    { constructor; [done |].
      apply fetch_tweet_details_Some in E
        as (u & _ & _ & [(_ & ? & _) | (data & _ & _ & ->)]);
        [done | apply (classify_format_cases encode)]. }
    pose proof (pending_update i _ _ r Hg Hnd Hr Hid Hneeds) as Hp.
    simpl in Hp |- *. lia.
Qed.

Lemma attempts_counts todo st :
  NoDup (map row_id (rows (db st))) ->
  NoDup (map fst todo) ->
  (forall i url, In (i, url) todo ->
     exists r, In r (rows (db st)) /\ row_id r = i /\
               needs_enrichment r = true) ->
  let st' := fold_left (process_row encode api) todo st in
  total_success st' + total_missing st' + pending (db st')
  = total_success st + total_missing st + pending (db st) /\
  total_processed st' - (total_success st' + total_missing st')
  >= total_processed st - (total_success st + total_missing st) /\
  total_processed st' = total_processed st + length todo /\
  NoDup (map row_id (rows (db st'))).
Proof.
  revert st. induction todo as [|[i url] todo IH]; intros st Hnd Htodo Hrows.
  - cbn. split_and!; [done | lia | lia | done].
  - simpl in Htodo. apply NoDup_cons in Htodo as [Hi Htodo].
    rewrite list_elem_of_In in Hi.
    destruct (Hrows i url (or_introl eq_refl)) as (r & Hr & Hid & Hneeds).
    pose proof (process_row_counts st i url r Hnd Hr Hid Hneeds)
      as (H1 & H2 & H3).
    cbn zeta in *. cbn [fold_left].
    set (st1 := process_row encode api st (i, url)) in *.
    assert (Hnd1 : NoDup (map row_id (rows (db st1)))).
    { subst st1.
      destruct (process_row_db encode api st i url) as [-> | (g & Hg & ->)];
        [done |]. by rewrite (update_where_id_row_ids encode). }
    destruct (IH st1 Hnd1 Htodo) as (H4 & H5 & H6 & H7).
    { intros j url' Hj.
      destruct (Hrows j url' (or_intror Hj)) as (r' & Hr' & Hid' & Hn').
      assert (Hji : j <> i).
      { intros ->. apply Hi. apply in_map_iff. by exists (i, url'). }
      exists r'. split; [| done]. subst st1.
      destruct (process_row_db encode api st i url) as [-> | (g & Hg & ->)];
        [done |].
      simpl. apply in_map_iff. exists r'. split; [| done].
      destruct (Z.eqb_spec (row_id r') i); [congruence | done]. }
    split_and!; [lia | lia | simpl; lia | done].
Qed.

Lemma main_loop_counts fuel st st' :
  NoDup (map row_id (rows (db st))) ->
  main_loop encode api fuel st = Some st' ->
  total_success st' + total_missing st' + pending (db st')
  = total_success st + total_missing st + pending (db st) /\
  total_processed st' - (total_success st' + total_missing st')
  >= total_processed st - (total_success st + total_missing st) /\
  pending (db st') = 0.
Proof.
  revert st. induction fuel as [|fuel IH]; intros st Hnd; [done |]. simpl.
  destruct (get_null_rows (db st) BATCH_SIZE) as [|p todo] eqn:E.
  - intros [= <-]. apply get_null_rows_nil in E. split_and!; [done | lia | done].
  - intros Hloop.
    destruct (attempts_counts (p :: todo) st Hnd) as (H1 & H2 & H3 & H4).
    { rewrite <- E. by apply get_null_rows_NoDup. }
    { intros i url Hin. rewrite <- E in Hin.
      apply get_null_rows_In in Hin as (r & Hr & Hn & -> & _). by exists r. }
    cbn zeta in *.
    destruct (IH (enrich_pass encode api st)) as (H5 & H6 & H7);
      [by unfold enrich_pass; rewrite E | done |].
    unfold enrich_pass in *. rewrite E in *. split_and!; [lia | lia | done].
Qed.

Lemma process_row_counted st row :
  total_success st + total_missing st <= total_processed st ->
  total_success (process_row encode api st row)
  + total_missing (process_row encode api st row)
  <= total_processed (process_row encode api st row).
Proof.
  destruct row as [i url]. intros H. unfold process_row.
  destruct (fetch_tweet_details _ url) as [[text fmt]|];
    [destruct (String.eqb text "MISSING") |]; simpl; lia.
Qed.

Lemma attempts_counted todo st :
  total_success st + total_missing st <= total_processed st ->
  total_success (fold_left (process_row encode api) todo st)
  + total_missing (fold_left (process_row encode api) todo st)
  <= total_processed (fold_left (process_row encode api) todo st).
Proof.
  revert st. induction todo as [|row todo IH]; intros st H; [done |].
  simpl. apply IH. by apply process_row_counted.
Qed.

Lemma passes_counted n st :
  total_success st + total_missing st <= total_processed st ->
  total_success (passes encode api n st)
  + total_missing (passes encode api n st)
  <= total_processed (passes encode api n st).
Proof.
  revert st. induction n as [|n IH]; intros st H; [done |].
  simpl. apply IH. by apply attempts_counted.
Qed.

(** X9: the summary the loop prints adds up.  On a table with unique ids,
    when [main] returns, the number of records it enriched plus the number
    it marked missing is the number of records that needed enrichment when
    it started; no record needs enrichment any more, and the two numbers
    together do not exceed the number of attempts it counted. *)
Theorem summary_counts_add_up (fuel : nat) (d : database) (st : loop_state) :
  NoDup (map row_id (rows d)) ->
  main encode api fuel d = Some st ->
  total_success st + total_missing st = pending d /\
  pending (db st) = 0 /\
  total_success st + total_missing st <= total_processed st.
Proof.
  intros Hnd Hmain.
  destruct (main_loop_counts fuel (start d) st Hnd Hmain) as (H1 & H2 & H3).
  assert (Hp : total_success st + total_missing st <= total_processed st).
  { apply main_loop_passes in Hmain as (n & -> & _).
    apply passes_counted. simpl. lia. }
  simpl in H1. split_and!; [lia | done | lia].
Qed.
End EnrichCounters.

Lemma summary_counts_add_up_witness :
  let st := passes sample_encode api_not_found 1 (Enrich.start sample_loaded) in
  Enrich.total_success st + Enrich.total_missing st = pending sample_loaded /\
  pending (Enrich.db st) = 0 /\
  Enrich.total_success st + Enrich.total_missing st
  <= Enrich.total_processed st.
Proof.
  apply (summary_counts_add_up sample_encode api_not_found 2 sample_loaded).
  - apply (bool_decide_unpack _). by vm_compute.
  - vm_compute. reflexivity.
Defined.

(** ** From the loader's URL to the content API *)

Section UrlRoundTrip.
Import Enrich.

Lemma digit_not_char (a c : ascii) :
  is_ascii_digit a = true -> is_ascii_digit c = false -> Ascii.eqb a c = false.
Proof.
  intros Ha Hc. destruct (Ascii.eqb_spec a c) as [-> | ?]; [congruence | done].
Qed.

Lemma last_field_digits (c : ascii) (cur s : string) :
  is_ascii_digit c = false -> all_digits s = true ->
  last_field c cur s = cur +:+ s.
Proof.
  intros Hc. revert cur. induction s as [|a s IH]; intros cur Hs; simpl.
  - clear. induction cur as [|x cur IH]; [done |].
    change (String x cur = String x (cur +:+ EmptyString)). by rewrite <- IH.
  - simpl in Hs. apply andb_true_iff in Hs as [Ha Hs].
    rewrite (digit_not_char a c Ha Hc), IH by done.
    by rewrite string_app_assoc.
Qed.

Lemma last_field_after (c : ascii) (cur p s : string) :
  last_field c cur (p +:+ String c s) = last_field c EmptyString s.
Proof.
  revert cur. induction p as [|a p IH]; intros cur.
  - change (EmptyString +:+ String c s) with (String c s). simpl.
    by rewrite Ascii.eqb_refl.
  - change (String a p +:+ String c s) with (String a (p +:+ String c s)).
    simpl. destruct (Ascii.eqb a c); apply IH.
Qed.

Lemma first_field_digits (c : ascii) (s : string) :
  is_ascii_digit c = false -> all_digits s = true -> first_field c s = s.
Proof.
  intros Hc. induction s as [|a s IH]; intros Hs; simpl; [done |].
  simpl in Hs. apply andb_true_iff in Hs as [Ha Hs].
  by rewrite (digit_not_char a c Ha Hc), IH.
Qed.

Lemma pretty_N_char_digit x : is_ascii_digit (pretty_N_char x) = true.
Proof. unfold pretty_N_char. by repeat case_match. Qed.

Lemma pretty_N_go_digits x s :
  all_digits s = true -> all_digits (pretty_N_go x s) = true.
Proof.
  revert s. induction (N.lt_wf_0 x) as [x _ IH]; intros s Hs.
  destruct (decide (x = 0)%N) as [-> | Hx]; [by rewrite pretty_N_go_0 |].
  rewrite pretty_N_go_step by lia. apply IH; [apply N.div_lt; lia |].
  simpl. by rewrite pretty_N_char_digit.
Qed.

Lemma pretty_N_go_nonempty x s : s <> EmptyString -> pretty_N_go x s <> EmptyString.
Proof.
  revert s. induction (N.lt_wf_0 x) as [x _ IH]; intros s Hs.
  destruct (decide (x = 0)%N) as [-> | Hx]; [by rewrite pretty_N_go_0 |].
  rewrite pretty_N_go_step by lia. apply IH; [apply N.div_lt; lia | done].
Qed.

(** The decimal text of a natural number is a non-empty run of digits. *)
Lemma pretty_N_isdigit (x : N) : isdigit (pretty x) = true.
Proof.
  unfold pretty, pretty_N. destruct (decide (x = 0)%N) as [-> | Hx]; [done |].
  rewrite pretty_N_go_step by lia.
  pose proof (pretty_N_go_nonempty (x `div` 10)
                (String (pretty_N_char (x `mod` 10)) EmptyString)) as Hne.
  pose proof (pretty_N_go_digits (x `div` 10)
                (String (pretty_N_char (x `mod` 10)) EmptyString)) as Hd.
  unfold isdigit. destruct (pretty_N_go _ _); [by destruct Hne |].
  apply Hd. simpl. by rewrite pretty_N_char_digit.
Qed.

Lemma isdigit_all_digits s : isdigit s = true -> all_digits s = true.
Proof. by destruct s. Qed.

Lemma pretty_Z_isdigit (tid : Z) : (0 <= tid)%Z -> isdigit (pretty tid) = true.
Proof.
  destruct tid as [|p|p]; [done | | lia]. intros _.
  apply (pretty_N_isdigit (Npos p)).
Qed.

Lemma tweet_id_of_url_digits (s : string) :
  all_digits s = true ->
  tweet_id_of_url ("https://twitter.com/i/web/status/" +:+ s) = s.
Proof.
  intros Hs. unfold tweet_id_of_url.
  change ("https://twitter.com/i/web/status/" +:+ s)
    with ("https://twitter.com/i/web/status" +:+ String "/" s).
  rewrite last_field_after, last_field_digits by done.
  by apply first_field_digits.
Qed.

(** X10: the URL the loader stores leads the Enrichment Loop back to the
    tweet.  For a tweetId that is not negative, the id the loop cuts out of
    the stored URL is the decimal text of the tweetId, it passes the digit
    test, and the attempt returns what the content API says about that id:
    it fails only when the request fails. *)
Theorem loader_url_round_trip
    (tid : Z) (requests_get : string -> http_reply) :
  (0 <= tid)%Z ->
  tweet_id_of_url (Ingest.tweet_url_of tid) = pretty tid /\
  isdigit (tweet_id_of_url (Ingest.tweet_url_of tid)) = true /\
  fetch_tweet_details requests_get (Some (Ingest.tweet_url_of tid))
  = match requests_get (pretty tid) with
    | NotFound => Some ("MISSING"%string, "Unknown"%string)
    | RequestFailed => None
    | Success data =>
        Some (default ""%string (json_text data), classify_format data)
    end.
Proof.
  intros Htid. pose proof (pretty_Z_isdigit tid Htid) as Hd.
  assert (E : tweet_id_of_url (Ingest.tweet_url_of tid) = pretty tid)
    by (apply tweet_id_of_url_digits, isdigit_all_digits, Hd).
  split_and!; [done | by rewrite E |].
  unfold fetch_tweet_details. rewrite E, Hd. done.
Qed.

(** X11: a negative tweetId makes a record that can never be enriched.  The
    URL built from it ends in a minus sign and digits, which fails the
    digit test, so every attempt on it returns None without a request. *)
Theorem negative_tweet_id_never_fetched
    (tid : Z) (requests_get : string -> http_reply) :
  (tid < 0)%Z ->
  isdigit (tweet_id_of_url (Ingest.tweet_url_of tid)) = false /\
  fetch_tweet_details requests_get (Some (Ingest.tweet_url_of tid)) = None.
Proof.
  intros Htid. destruct tid as [|p|p]; [lia | lia |].
  assert (E : tweet_id_of_url (Ingest.tweet_url_of (Z.neg p))
              = String "-" (pretty (Npos p))).
  { pose proof (isdigit_all_digits _ (pretty_N_isdigit (Npos p))) as Hd.
    unfold tweet_id_of_url, Ingest.tweet_url_of.
    change ("https://twitter.com/i/web/status/" +:+ pretty (Z.neg p))
      with ("https://twitter.com/i/web/status"
            +:+ String "/" (String "-" (pretty (Npos p)))).
    rewrite last_field_after.
    change (last_field "/" EmptyString (String "-" (pretty (N.pos p))))
      with (last_field "/" "-" (pretty (N.pos p))).
    rewrite last_field_digits by done.
    change (first_field "?" ("-" +:+ pretty (N.pos p)))
      with (String "-" (first_field "?" (pretty (N.pos p)))).
    by rewrite first_field_digits. }
  assert (Hd : isdigit (tweet_id_of_url (Ingest.tweet_url_of (Z.neg p))) = false)
    by (by rewrite E).
  split; [done |]. unfold fetch_tweet_details. by rewrite Hd.
Qed.
End UrlRoundTrip.

Lemma loader_url_round_trip_witness :
  Enrich.tweet_id_of_url (Ingest.tweet_url_of 42) = pretty 42%Z /\
  Enrich.isdigit (Enrich.tweet_id_of_url (Ingest.tweet_url_of 42)) = true /\
  Enrich.fetch_tweet_details (api_not_found 1) (Some (Ingest.tweet_url_of 42))
  = match api_not_found 1 (pretty 42%Z) with
    | Enrich.NotFound => Some ("MISSING"%string, "Unknown"%string)
    | Enrich.RequestFailed => None
    | Enrich.Success data =>
        Some (default ""%string (Enrich.json_text data),
              Enrich.classify_format data)
    end.
Proof. apply (loader_url_round_trip 42 (api_not_found 1)). lia. Defined.

Lemma negative_tweet_id_never_fetched_witness :
  Enrich.isdigit (Enrich.tweet_id_of_url (Ingest.tweet_url_of (-7))) = false /\
  Enrich.fetch_tweet_details (api_not_found 1)
    (Some (Ingest.tweet_url_of (-7))) = None.
Proof. apply (negative_tweet_id_never_fetched (-7) (api_not_found 1)). lia. Defined.

(** ** Query Service: statistics, empty results, matches first *)

Section Stats.
Import Query.
Variable encode : string -> vector.

Lemma row_accounted r :
  row_ok encode r ->
  Nat.b2n (Enrich.needs_enrichment r) + Nat.b2n (counted_enriched r)
  + Nat.b2n (has_sentinel_text r) = 1.
Proof.
  unfold Enrich.needs_enrichment, counted_enriched, has_sentinel_text.
  intros [(Ht & _ & Hf) | [(Ht & _ & Hf) | (t & f & Ht & _ & Hf & _)]];
    rewrite Ht, ?Hf; simpl; [done | done |].
  by destruct (String.eqb t MISSING_OR_DELETED).
Qed.

Lemma length_three_way {A} (p q s : A -> bool) (l : list A) :
  (forall x, In x l -> Nat.b2n (p x) + Nat.b2n (q x) + Nat.b2n (s x) = 1) ->
  length l = length (List.filter p l) + length (List.filter q l)
             + length (List.filter s l).
Proof.
  induction l as [|x l IH]; intros H; [done |]. simpl.
  pose proof (H x (or_introl eq_refl)) as Hx.
  rewrite IH by (intros y Hy; apply H; by right).
  destruct (p x), (q x), (s x); simpl in *; lia.
Qed.

(** X12: the two numbers of [/api/stats] account for every record.  On a
    reachable table, [total] is the records that still need enrichment,
    plus [enriched], plus the records whose stored text is the sentinel
    string; and every record counted in [enriched] has a tweet_vector, so
    it can be found by claim search. *)
Theorem get_stats_accounts_for_every_record (d : database) :
  reachable encode d ->
  fst (get_stats d)
  = pending d + snd (get_stats d)
    + length (List.filter has_sentinel_text (rows d)) /\
  snd (get_stats d) <= fst (get_stats d) /\
  (forall r, In r (rows d) -> counted_enriched r = true ->
             tweet_vector r <> None).
Proof.
  intros Hreach. apply reachable_invariant in Hreach as [_ Hok].
  assert (H : fst (get_stats d)
              = pending d + snd (get_stats d)
                + length (List.filter has_sentinel_text (rows d))).
  { unfold get_stats, pending. cbn [fst snd]. apply length_three_way.
    intros r Hr. by apply row_accounted, Hok. }
  split_and!; [done | lia |].
  intros r Hr Hc. destruct (row_ok_vector encode r (Hok r Hr)) as (_ & Hv & _).
  apply Hv. unfold counted_enriched in Hc.
  destruct (tweet_text r) as [t|]; [| done]. exists t. split; [done |].
  intros ->. by rewrite String.eqb_refl in Hc.
Qed.
End Stats.

Lemma get_stats_accounts_for_every_record_witness :
  fst (Query.get_stats (sample_attempted (api_text "hello")))
  = pending (sample_attempted (api_text "hello"))
    + snd (Query.get_stats (sample_attempted (api_text "hello")))
    + length (List.filter has_sentinel_text
                (rows (sample_attempted (api_text "hello")))) /\
  snd (Query.get_stats (sample_attempted (api_text "hello")))
  <= fst (Query.get_stats (sample_attempted (api_text "hello"))) /\
  (forall r, In r (rows (sample_attempted (api_text "hello"))) ->
             Query.counted_enriched r = true -> tweet_vector r <> None).
Proof.
  apply (get_stats_accounts_for_every_record sample_encode).
  apply reachable_sample_attempted.
Defined.

Example sample_stats :
  Query.get_stats (sample_attempted (api_text "hello")) = (2, 1) /\
  Query.get_stats (sample_attempted api_not_found) = (2, 0).
Proof. vm_compute. split; reflexivity. Qed.

Section SearchEmpty.
Import Query.
Variable encode : string -> vector.
Variable cosine_distance : vector -> vector -> float.

Lemma insert_sorted_not_nil {A K} (le : K -> K -> bool) (key : A -> K) x l :
  insert_sorted le key x l <> [].
Proof. destruct l; simpl; [done |]. by destruct (le _ _). Qed.

Lemma order_by_nil {A K} (le : K -> K -> bool) (key : A -> K) l :
  order_by le key l = [] <-> l = [].
Proof.
  destruct l as [|x l]; [done |]. simpl. split; [| done].
  intros H. by apply insert_sorted_not_nil in H.
Qed.

Lemma map_nil_iff {A B} (f : A -> B) (l : list A) : map f l = [] <-> l = [].
Proof. by destruct l. Qed.

Lemma firstn_S_nil {A} k (l : list A) : firstn (S k) l = [] <-> l = [].
Proof. by destruct l. Qed.

(** X13: claim search finds something exactly when some record has a
    tweet_vector.  On a table where no record has been enriched, such as
    one the loader has just filled, [/api/search] returns an empty list for
    every query. *)
Theorem search_empty_iff_nothing_enriched (d : database) (q : string) :
  search encode cosine_distance d q = [] <->
  forall r, In r (rows d) -> tweet_vector r = None.
Proof.
  unfold search, search_query, CLAIM_LIMIT.
  rewrite map_nil_iff, firstn_S_nil, order_by_nil. split.
  - intros H r Hr. destruct (tweet_vector r) as [v|] eqn:E; [| done].
    assert (Hin : (r, cosine_distance v (encode q)) ∈
              omap (fun r => match tweet_vector r with
                             | Some v => Some (r, cosine_distance v (encode q))
                             | None => None
                             end) (rows d)).
    { apply list_elem_of_omap. exists r. rewrite list_elem_of_In.
      split; [done | by rewrite E]. }
    rewrite H in Hin. by apply elem_of_nil in Hin.
  - intros H. induction (rows d) as [|r l IH]; [done |]. simpl.
    rewrite (H r (or_introl eq_refl)). apply IH. intros r' Hr'. apply H.
    by right.
Qed.
End SearchEmpty.

Section MatchesFirst.
Import Query.
Variable encode : string -> vector.
Variable cosine_distance : vector -> vector -> float.

Lemma SFcompare_refl x : x <> S754_nan -> SFcompare x x = Some Eq.
Proof.
  destruct x as [s|s| |s m e]; simpl; try done; try (by destruct s).
  intros _. destruct s; rewrite Z.compare_refl;
    change (Pos.compare_cont Eq m m) with (Pos.compare m m);
    by rewrite Pos.compare_refl.
Qed.

Lemma is_nan_true x : PrimFloat.is_nan x = true -> Prim2SF x = S754_nan.
Proof.
  unfold PrimFloat.is_nan. rewrite FloatAxioms.eqb_spec. unfold SFeqb.
  intros H.
  assert (Prim2SF x = S754_nan \/ Prim2SF x <> S754_nan) as [E | E]
    by (destruct (Prim2SF x); (by left) || (by right)); [done |].
  by rewrite (SFcompare_refl _ E) in H.
Qed.

Lemma SFltb_not_nan x y : SFltb x y = true -> x <> S754_nan /\ y <> S754_nan.
Proof. unfold SFltb. destruct x, y; simpl; by try done. Qed.

Lemma SFleb_ltb_trans x y z :
  SFleb x y = true -> SFltb y z = true -> SFltb x z = true.
Proof.
  unfold SFleb, SFltb.
  destruct x as [sx|sx| |sx mx ex], y as [sy|sy| |sy my ey],
           z as [sz|sz| |sz mz ez]; simpl; try done;
    try (by destruct sx); try (by destruct sy); try (by destruct sz);
    try (by destruct sx, sy); try (by destruct sy, sz);
    try (by destruct sx, sz); try (by destruct sx, sy, sz).
  change (Pos.compare_cont Eq) with Pos.compare.
  destruct sx, sy, sz; simpl; try done;
    destruct (Z.compare_spec ex ey); simpl; try done;
    destruct (Z.compare_spec ey ez); simpl; try done;
    destruct (Z.compare_spec ex ez); simpl; try done; try lia; subst;
    destruct (Pos.compare_spec mx my); simpl; try done;
    destruct (Pos.compare_spec my mz); simpl; try done;
    destruct (Pos.compare_spec mx mz); simpl; try done; lia.
Qed.

(** A distance that sorts before one below the threshold is below it. *)
Lemma float8_le_ltb a b t :
  float8_le a b = true -> (b <? t)%float = true -> (a <? t)%float = true.
Proof.
  unfold float8_le. rewrite !FloatAxioms.ltb_spec. intros Hle Hlt.
  destruct (SFltb_not_nan _ _ Hlt) as [Hb _].
  destruct (PrimFloat.is_nan b) eqn:Eb; [by apply is_nan_true in Eb |].
  destruct (PrimFloat.is_nan a) eqn:Ea; [done |].
  rewrite FloatAxioms.leb_spec in Hle. by eapply SFleb_ltb_trans.
Qed.

Lemma StronglySorted_lookup {A} (R : A -> A -> Prop) (l : list A) i j a b :
  StronglySorted R l -> i < j -> l !! i = Some a -> l !! j = Some b -> R a b.
Proof.
  intros H. revert i j. induction H as [|x l Hl IH Hx]; intros i j Hij Hi Hj;
    [done |].
  destruct j as [|j]; [lia |]. simpl in Hj. destruct i as [|i].
  - injection Hi as ->.
    apply (proj1 (List.Forall_forall _ _) Hx).
    apply list_elem_of_In, list_elem_of_lookup. by exists j.
  - simpl in Hi. apply (IH i j); [lia | done | done].
Qed.

Lemma search_sorted d q :
  StronglySorted (fun a b => float8_le (distance a) (distance b) = true)
    (search encode cosine_distance d q).
Proof.
  unfold search. apply StronglySorted_map.
  apply (StronglySorted_weaken
           (fun a b : fact_check * float => float8_le (snd a) (snd b) = true)).
  - by intros [r x] [r' y].
  - apply StronglySorted_firstn, order_by_sorted;
      [apply float8_le_total | apply float8_le_trans].
Qed.

Lemma search_is_match d q h :
  In h (search encode cosine_distance d q) ->
  is_match h = (distance h <? SIMILARITY_THRESHOLD)%float.
Proof.
  unfold search. intros Hh. by apply in_map_iff in Hh as ([r x] & <- & _).
Qed.

(** X14: in the reply of [/api/search] the matches come first.  If a hit
    is flagged is_match, so is every hit before it; after the first hit
    that is not a match there is none. *)
Theorem matches_come_first
    (d : database) (q : string) (i j : nat) (hi hj : search_hit) :
  i <= j ->
  search encode cosine_distance d q !! i = Some hi ->
  search encode cosine_distance d q !! j = Some hj ->
  is_match hj = true -> is_match hi = true.
Proof.
  intros Hij Hi Hj Hm.
  destruct (decide (i = j)) as [-> | Hne]; [congruence |].
  assert (Hin : forall k h, search encode cosine_distance d q !! k = Some h ->
                  In h (search encode cosine_distance d q)).
  { intros k h Hk. apply list_elem_of_In, list_elem_of_lookup. by exists k. }
  rewrite (search_is_match d q hi (Hin _ _ Hi)).
  rewrite (search_is_match d q hj (Hin _ _ Hj)) in Hm.
  eapply float8_le_ltb; [| exact Hm].
  apply (StronglySorted_lookup _ _ i j hi hj (search_sorted d q));
    [lia | done | done].
Qed.
End MatchesFirst.

Lemma matches_come_first_witness :
  Query.is_match sample_hit2 = true.
Proof.
  apply (matches_come_first sample_encode sample_distance
           sample_enriched_all "q" 0 1 sample_hit2 sample_hit).
  - lia.
  - vm_compute. reflexivity.
  - vm_compute. reflexivity.
  - vm_compute. reflexivity.
Defined.

(** ** Note search: what the command line shows *)

Section NoteVectors.
Variable encode : string -> vector.

Lemma upsert_note_vector i now v l :
  (forall r, In r l -> note_vector r <> None) ->
  forall r, In r (Ingest.upsert i now v l) -> note_vector r <> None.
Proof.
  induction l as [|a l IH]; intros Hl r; simpl.
  - by intros [<- | []].
  - destruct (Z.eqb (tweet_id a) (Ingest.v_tweet_id v)).
    + intros [<- | Hr]; [done | apply Hl; by right].
    + intros [<- | Hr]; [apply Hl; by left |].
      apply IH; [| done]. intros r' Hr'. apply Hl. by right.
Qed.

Lemma upsert_list_note_vector ivs l :
  (forall r, In r l -> note_vector r <> None) ->
  forall r, In r (upsert_list ivs l) -> note_vector r <> None.
Proof.
  revert l. induction ivs as [|[[i t] v] ivs IH]; intros l Hl; [done |].
  simpl. apply IH. by apply upsert_note_vector.
Qed.

Lemma step_note_vector d d' :
  step encode d d' ->
  (forall r, In r (rows d) -> note_vector r <> None) ->
  forall r, In r (rows d') -> note_vector r <> None.
Proof.
  intros [now notes_df status_df d0 | api st k] Hd.
  - unfold Ingest.main, Ingest.batch_loader.
    destruct (load_batches_result encode now 0
                (Ingest.chunks Ingest.BATCH_SIZE
                   (Ingest.filter_and_dedup notes_df status_df)) d0)
      as (ivs & -> & _).
    by apply upsert_list_note_vector.
  - destruct (attempts_kept encode api
                (firstn k (Enrich.get_null_rows (Enrich.db st)
                             Enrich.BATCH_SIZE)) st) as [H _].
    intros r' Hr'. apply list_elem_of_In, list_elem_of_lookup in Hr' as [n Hn].
    destruct (Forall2_lookup_r _ _ _ _ _ H Hn) as (r & Hr & (_ & _ & _ & _ & Hv & _)).
    rewrite Hv. apply Hd. apply list_elem_of_In, list_elem_of_lookup. by exists n.
Qed.

(** Every record of a reachable table has its note embedded. *)
Lemma reachable_note_vector d r :
  reachable encode d -> In r (rows d) -> note_vector r <> None.
Proof.
  intros Hreach. revert r.
  apply (rtc_ind_r (R := step encode)
           (fun d => forall r, In r (rows d) -> note_vector r <> None)
           empty_db); [by intros r [] | | exact Hreach].
  intros d1 d2 _ Hstep IH. by apply (step_note_vector d1 d2).
Qed.
End NoteVectors.

Section Display.
Import Query.
Variable encode : string -> vector.
Variable cosine_distance : vector -> vector -> float.

Lemma relevant_from_total i results :
  (forall n, In n results -> snd n <> None) ->
  is_Some (relevant_from i results).
Proof.
  revert i. induction results as [|[[t u] [dist|]] results IH]; intros i H.
  - by eexists.
  - simpl. destruct (IH (S i)) as [rest ->];
      [intros n Hn; apply H; by right |].
    simpl. destruct (_ <? _)%float; by eexists.
  - exfalso. by apply (H (t, u, None)); [left |].
Qed.

Lemma ltb_asym a b : (a <? b)%float = true -> (b <? a)%float = false.
Proof.
  rewrite !FloatAxioms.ltb_spec. unfold SFltb.
  rewrite (SFcompare_antisym (Prim2SF a) (Prim2SF b)).
  by destruct (SFcompare (Prim2SF a) (Prim2SF b)) as [[| |]|].
Qed.

(** X15: on a reachable table the command-line search never stumbles over
    a NULL distance: every record has its note embedded, so
    [display_results] does not raise on what [search_notes] returns.  It
    reports no matches only when [search_notes] returned nothing; when the
    best distance is below 0.5 the list of relevant results starts with
    result number 1, and otherwise the best result is shown as the closest
    topic. *)
Theorem display_results_on_reachable
    (d : database) (embedding : vector) (top_k : nat) :
  reachable encode d ->
  let results := search_notes cosine_distance d embedding top_k in
  display_results results <> TypeError /\
  (display_results results = NoMatches <-> results = []) /\
  (forall note_text tweet_url best rest,
     results = (note_text, tweet_url, Some best) :: rest ->
     if (best <? NOTE_SIMILARITY_THRESHOLD)%float
     then exists shown,
            display_results results
            = Relevant ((1, ((1 - best) * 100)%float, note_text, tweet_url)
                        :: shown)
     else display_results results = ClosestTopic note_text tweet_url).
Proof.
  intros Hreach results.
  assert (Hsome : forall n, In n results -> snd n <> None).
  { intros n Hn. subst results. unfold search_notes in Hn.
    apply In_firstn_In, order_by_In, in_map_iff in Hn as (r & <- & Hr).
    simpl. pose proof (reachable_note_vector encode d r Hreach Hr).
    by destruct (note_vector r). }
  clearbody results. split_and!.
  - unfold display_results. destruct results as [|[[t u] [best|]] rest]; [done | |].
    + destruct (best <? NOTE_SIMILARITY_THRESHOLD)%float; [| done].
      by destruct (relevant_from_total 1 _ Hsome) as [shown ->].
    + exfalso. by apply (Hsome (t, u, None)); [left |].
  - unfold display_results. destruct results as [|[[t u] [best|]] rest]; [done | |].
    + split; [| done]. destruct (best <? NOTE_SIMILARITY_THRESHOLD)%float; [| done].
      by destruct (relevant_from 1 _).
    + done.
  - intros t u best rest ->. unfold display_results.
    destruct (best <? NOTE_SIMILARITY_THRESHOLD)%float eqn:Hb; [| done].
    simpl. destruct (relevant_from_total 2 rest) as [shown ->].
    { intros n Hn. apply Hsome. by right. }
    simpl. rewrite (ltb_asym _ _ Hb). by exists shown.
Qed.
End Display.

Lemma display_results_on_reachable_witness :
  let results := Query.search_notes sample_distance sample_loaded
                   (sample_encode "q") Query.TOP_K in
  Query.display_results results <> Query.TypeError /\
  (Query.display_results results = Query.NoMatches <-> results = []) /\
  (forall note_text tweet_url best rest,
     results = (note_text, tweet_url, Some best) :: rest ->
     if (best <? Query.NOTE_SIMILARITY_THRESHOLD)%float
     then exists shown,
            Query.display_results results
            = Query.Relevant
                ((1, ((1 - best) * 100)%float, note_text, tweet_url) :: shown)
     else Query.display_results results
          = Query.ClosestTopic note_text tweet_url).
Proof.
  apply (display_results_on_reachable sample_encode sample_distance
           sample_loaded (sample_encode "q") Query.TOP_K).
  apply reachable_sample_loaded.
Defined.

(** ** Source Data Fetcher: staged files, clean-up, content *)

Section FetcherStaging.
Import Fetcher.
Variable remote : string -> option blob.

(** X16: files already staged are not fetched again.  When both canonical
    files of the most recent day are in the staging directory,
    [download_latest_data] asks the archive for nothing, leaves the
    directory as it is and returns the two paths. *)
Theorem staged_day_needs_no_request (date_of : nat -> ymd) (w : world) :
  is_Some (files w !! local_tsv_path_of (date_of 0) "notes-00000") ->
  is_Some (files w !! local_tsv_path_of (date_of 0) "noteStatusHistory-00000") ->
  download_latest_data remote date_of w
  = (Returns (Some (canonical_paths (date_of 0))), w).
Proof.
  intros [a Ha] [b Hb]. unfold download_latest_data. cbn [seq].
  rewrite try_days_cons, fetch_datasets_both. cbn zeta.
  unfold fetch_dataset. rewrite Ha. cbn [fst snd]. by rewrite Hb.
Qed.



(** X18: a ready dataset holds what the archive served.  For a dataset
    that was not staged, a successful attempt leaves at the canonical path
    the data of the ZIP's TSV member, when that member is at the top level
    of the archive (of several members of that name, the last), or, when
    the ZIP cannot be downloaded, the body of the dated file, or else of
    the legacy file. *)
Theorem fetch_dataset_stages_served_content
    (d : ymd) (base_name subdir : string) (w : world) :
  files w !! local_tsv_path_of d base_name = None ->
  (forall members name,
     remote (zip_url_of d base_name subdir) = Some (Zip members) ->
     first_tsv members = Some name -> top_level name = true) ->
  fst (fetch_dataset remote d base_name subdir w) = Returns true ->
  files (snd (fetch_dataset remote d base_name subdir w))
    !! local_tsv_path_of d base_name
  = staged_content remote d base_name subdir /\
  is_Some (staged_content remote d base_name subdir).
Proof.
  intros Htsv Htop.
  pose proof (dated_paths_differ d base_name) as Hne.
  assert (Hzip : files w !! local_zip_path_of d base_name = Some Dir \/
                 files w !! local_zip_path_of d base_name <> Some Dir)
    by (destruct (files w !! local_zip_path_of d base_name) as [[?|]|];
        [by right | by left | by right]).
  destruct Hzip as [Hdir | Hzip].
  { unfold fetch_dataset, download_file. by rewrite Htsv, Hdir. }
  unfold staged_content.
  destruct (remote (zip_url_of d base_name subdir)) as [b|] eqn:Hremote.
  - rewrite (fetch_dataset_zip remote d base_name subdir w b) by done.
    cbn zeta. cbn [fst snd files].
    destruct b as [data|members].
    { unfold extract_tsv. by rewrite lookup_insert_eq. }
    destruct (first_tsv members) as [name|] eqn:Hfirst.
    2:{ unfold extract_tsv. rewrite lookup_insert_eq.
        destruct (List.filter _ members) as [|[n data] rest] eqn:Hf; [done |].
        assert (first_tsv members = Some n)
          by (apply first_tsv_filter; by eexists _, _).
        congruence. }
    assert (Htsv0 : <[local_zip_path_of d base_name := File (Zip members)]>
                      (files w) !! local_tsv_path_of d base_name = None)
      by (by rewrite lookup_insert_ne).
    destruct (extract_tsv_top_level (local_zip_path_of d base_name)
                (local_tsv_path_of d base_name)
                (<[local_zip_path_of d base_name := File (Zip members)]>
                   (files w)) members name (lookup_insert_eq _ _ _) Htsv0
                Hfirst (Htop _ _ eq_refl Hfirst)) as (content & -> & ->).
    destruct content as [data| |written]; [| done |].
    2:{ by destruct (_ !! path_join DATA_DIR name) as [[?|]|]. }
    destruct (_ !! path_join DATA_DIR name) as [[?|]|]; cbn zeta;
      try done;
      (destruct (decide (path_join DATA_DIR name
                         = local_tsv_path_of d base_name)); [done |];
       cbn [fst snd]; intros _;
       rewrite lookup_delete_ne, lookup_insert_eq by done;
       split; [done | by eexists]).
  - rewrite (fetch_dataset_plain remote d base_name subdir w) by done.
    cbn zeta.
    destruct (remote (tsv_url_of d base_name subdir)) as [b|].
    { cbn [fst snd files]. intros _. rewrite lookup_insert_eq.
      split; [done | by eexists]. }
    destruct (remote (old_tsv_url_of d base_name)) as [b|];
      cbn [fst snd files]; [| done].
    intros _. rewrite lookup_insert_eq. cbn [fmap option_fmap option_map].
    split; [done | by eexists].
Qed.

(** X19: a ZIP that holds its TSV, at its top level, under the dated name
    the script is about to give it cannot be used.  The script removes the
    file at the canonical path before renaming the extracted file onto it;
    when both are the same path the rename fails, the dataset fails the
    day, and neither file is left (a damaged member apart, which is left
    half written). *)
Theorem zip_member_named_like_target_fails
    (d : ymd) (base_name subdir : string) (w : world)
    (members : list (string * member_data)) (internal_name : string)
    (data : member_data) (others : list (string * member_data)) :
  files w !! local_tsv_path_of d base_name = None ->
  files w !! local_zip_path_of d base_name <> Some Dir ->
  remote (zip_url_of d base_name subdir) = Some (Zip members) ->
  List.filter (fun m => endswith (fst m) ".tsv") members
  = (internal_name, data) :: others ->
  top_level internal_name = true ->
  (forall written,
     getinfo members internal_name <> Some (ReadError written)) ->
  path_join DATA_DIR internal_name = local_tsv_path_of d base_name ->
  fst (fetch_dataset remote d base_name subdir w) = Returns false /\
  files (snd (fetch_dataset remote d base_name subdir w))
    !! local_tsv_path_of d base_name = None /\
  requested (snd (fetch_dataset remote d base_name subdir w))
  = requested w ++ [zip_url_of d base_name subdir].
Proof.
  intros Htsv Hzip Hremote Hmem Htop Hread Hname.
  pose proof (dated_paths_differ d base_name) as Hne.
  rewrite (fetch_dataset_zip remote d base_name subdir w _ Htsv Hzip Hremote).
  cbn zeta. cbn [fst snd files requested].
  assert (Hfirst : first_tsv members = Some internal_name)
    by (apply first_tsv_filter; by eexists _, _).
  assert (Htsv0 : <[local_zip_path_of d base_name := File (Zip members)]>
                    (files w) !! local_tsv_path_of d base_name = None)
    by (by rewrite lookup_insert_ne).
  destruct (extract_tsv_top_level (local_zip_path_of d base_name)
              (local_tsv_path_of d base_name)
              (<[local_zip_path_of d base_name := File (Zip members)]>
                 (files w)) members internal_name (lookup_insert_eq _ _ _)
              Htsv0 Hfirst Htop) as (content & Hcontent & ->).
  rewrite Hname, lookup_insert_ne, Htsv by done.
  destruct content as [data'| |written]; [| | by destruct (Hread written)].
  - cbn zeta. rewrite decide_True by done. cbn [fst snd].
    split_and!; [done | | done].
    rewrite lookup_delete_ne by done. apply lookup_delete_eq.
  - cbn [fst snd]. split_and!; [done | | done].
    by rewrite lookup_delete_ne, lookup_insert_ne.
Qed.
End FetcherStaging.

Lemma staged_day_needs_no_request_witness :
  Fetcher.download_latest_data remote_legacy (fun _ => sample_day) sample_staged
  = (Fetcher.Returns (Some (canonical_paths sample_day)), sample_staged).
Proof.
  apply (staged_day_needs_no_request remote_legacy (fun _ => sample_day)
           sample_staged).
  - vm_compute. by eexists.
  - vm_compute. by eexists.
Defined.


(** The attempt of the witness fails: the archive's file is extracted into
    the staging directory and stays there, and what is to be renamed is
    looked for in the working directory. *)
Example member_outside_staging_fails :
  let r := Fetcher.fetch_dataset remote_outside sample_day "notes-00000"
             "notes" sample_world in
  fst r = Fetcher.Returns false /\
  map_to_list (Fetcher.files (snd r))
  = [("data/notes-00000.tsv"%string,
      Fetcher.File (Fetcher.Bytes "noteId,tweetId"))].
Proof. vm_compute. split; reflexivity. Qed.

(** An absolute member name: the file is extracted below the staging
    directory, and what is to be renamed is looked for from the root. *)
Example absolute_member_fails :
  let r := Fetcher.fetch_dataset remote_absolute sample_day "notes-00000"
             "notes" sample_world in
  fst r = Fetcher.Returns false /\
  Fetcher.files (snd r) !! "data/abs/notes-00000.tsv"%string
  = Some (Fetcher.File (Fetcher.Bytes "noteId,tweetId")) /\
  Fetcher.files (snd r) !! Fetcher.local_tsv_path_of sample_day "notes-00000"
  = None.
Proof. vm_compute. split_and!; reflexivity. Qed.

(** The name of the staged file behind a ".": the member is extracted to
    the canonical path, removed there, and not found for the renaming. *)
Example dot_target_member_fails :
  let r := Fetcher.fetch_dataset remote_dot_target sample_day "notes-00000"
             "notes" sample_world in
  fst r = Fetcher.Returns false /\ Fetcher.files (snd r) = ∅.
Proof. vm_compute. split; reflexivity. Qed.

(** With a file of that name in the working directory, that file is what
    gets staged, and the archive's file is left behind. *)
Example member_outside_staging_takes_local_file :
  let r := Fetcher.fetch_dataset remote_outside sample_day "notes-00000"
             "notes" sample_local_file in
  fst r = Fetcher.Returns true /\
  Fetcher.files (snd r) !! Fetcher.local_tsv_path_of sample_day "notes-00000"
  = Some (Fetcher.File (Fetcher.Bytes "local")) /\
  Fetcher.files (snd r) !! "data/notes-00000.tsv"%string
  = Some (Fetcher.File (Fetcher.Bytes "noteId,tweetId")) /\
  Fetcher.files (snd r) !! "notes-00000.tsv"%string = None.
Proof. vm_compute. split_and!; reflexivity. Qed.

(** A TSV in a folder that has the canonical path: the attempt fails and
    leaves that folder, which the next attempt takes for the staged file. *)
Example folder_named_like_target_is_left :
  let r := Fetcher.fetch_dataset remote_in_folder sample_day "notes-00000"
             "notes" sample_world in
  fst r = Fetcher.Returns false /\
  Fetcher.files (snd r) !! Fetcher.local_tsv_path_of sample_day "notes-00000"
  = Some Fetcher.Dir /\
  Fetcher.fetch_dataset remote_in_folder sample_day "notes-00000" "notes"
    (snd r)
  = (Fetcher.Returns true, snd r).
Proof. vm_compute. split_and!; reflexivity. Qed.

(** A directory where the ZIP is to be written: the script raises. *)
Example directory_at_zip_path_raises :
  fst (Fetcher.download_latest_data remote_good_zip (fun _ => sample_day)
         {| Fetcher.files :=
              <[Fetcher.local_zip_path_of sample_day "notes-00000"
                  := Fetcher.Dir]> ∅;
            Fetcher.requested := [] |})
  = Fetcher.Raises.
Proof. vm_compute. reflexivity. Qed.

Lemma fetch_dataset_stages_served_content_witness :
  Fetcher.files
    (snd (Fetcher.fetch_dataset remote_two_members sample_day "notes-00000"
            "notes" sample_world))
    !! Fetcher.local_tsv_path_of sample_day "notes-00000"
  = staged_content remote_two_members sample_day "notes-00000" "notes" /\
  is_Some (staged_content remote_two_members sample_day "notes-00000" "notes").
Proof.
  apply (fetch_dataset_stages_served_content remote_two_members sample_day
           "notes-00000" "notes" sample_world).
  - vm_compute. reflexivity.
  - intros members name Hremote Hfirst.
    vm_compute in Hremote. injection Hremote as <-.
    vm_compute in Hfirst. injection Hfirst as <-.
    vm_compute. reflexivity.
  - vm_compute. reflexivity.
Defined.

Example last_member_of_a_name_is_staged :
  staged_content remote_two_members sample_day "notes-00000" "notes"
  = Some (Fetcher.File (Fetcher.Bytes "second")).
Proof. vm_compute. reflexivity. Qed.

Example good_zip_is_staged :
  Fetcher.fetch_dataset remote_good_zip sample_day "notes-00000" "notes"
    sample_world
  = (Fetcher.Returns true,
     {| Fetcher.files :=
          <[Fetcher.local_tsv_path_of sample_day "notes-00000"
              := Fetcher.File (Fetcher.Bytes "noteId,tweetId")]> ∅;
        Fetcher.requested :=
          [Fetcher.zip_url_of sample_day "notes-00000" "notes"] |}).
Proof. vm_compute. reflexivity. Qed.

Lemma zip_member_named_like_target_fails_witness :
  fst (Fetcher.fetch_dataset remote_named_like_target sample_day "notes-00000"
         "notes" sample_world) = Fetcher.Returns false /\
  Fetcher.files
    (snd (Fetcher.fetch_dataset remote_named_like_target sample_day
            "notes-00000" "notes" sample_world))
    !! Fetcher.local_tsv_path_of sample_day "notes-00000" = None /\
  Fetcher.requested
    (snd (Fetcher.fetch_dataset remote_named_like_target sample_day
            "notes-00000" "notes" sample_world))
  = Fetcher.requested sample_world
    ++ [Fetcher.zip_url_of sample_day "notes-00000" "notes"].
Proof.
  apply (zip_member_named_like_target_fails remote_named_like_target
           sample_day "notes-00000" "notes" sample_world
           [("2026-11-03_notes-00000.tsv"%string,
             Fetcher.Data "noteId,tweetId")]
           "2026-11-03_notes-00000.tsv" (Fetcher.Data "noteId,tweetId") []).
  - vm_compute. reflexivity.
  - vm_compute. discriminate.
  - vm_compute. reflexivity.
  - vm_compute. reflexivity.
  - vm_compute. reflexivity.
  - intros written. vm_compute. discriminate.
  - vm_compute. reflexivity.
Defined.

(** Damaged notes under the name of the staged file: the attempt fails and
    leaves what was copied at the canonical path, which the next attempt
    takes for the staged file. *)
Example damaged_member_is_left :
  let r := Fetcher.fetch_dataset remote_damaged sample_day "notes-00000"
             "notes" sample_world in
  fst r = Fetcher.Returns false /\
  Fetcher.files (snd r) !! Fetcher.local_tsv_path_of sample_day "notes-00000"
  = Some (Fetcher.File (Fetcher.Bytes "noteId")) /\
  Fetcher.fetch_dataset remote_damaged sample_day "notes-00000" "notes"
    (snd r)
  = (Fetcher.Returns true, snd r).
Proof. vm_compute. split_and!; reflexivity. Qed.

(** ** Filter: a status file without repeated notes *)

Section JoinFacts.
Import Ingest.

Lemma filter_key_at_most_one {A} (f : A -> Z) (x : Z) (l : list A) :
  NoDup (map f l) ->
  length (List.filter (fun s => Z.eqb (f s) x) l) <= 1.
Proof.
  induction l as [|a l IH]; simpl; [lia |]. intros Hnd.
  apply NoDup_cons in Hnd as [Ha Hnd]. specialize (IH Hnd).
  destruct (Z.eqb_spec (f a) x) as [Heq|Hne]; [| done]. simpl.
  destruct (List.filter (fun s => Z.eqb (f s) x) l) as [|b l'] eqn:E;
    [simpl; lia |].
  exfalso. apply Ha. rewrite list_elem_of_In, in_map_iff. exists b.
  assert (Hb : In b (List.filter (fun s => Z.eqb (f s) x) l))
    by (rewrite E; by left).
  apply filter_In in Hb as [Hb Hfb]. apply Z.eqb_eq in Hfb.
  split; [congruence | done].
Qed.

(** X20: when no note has two helpful status rows, the inner join is a
    plain filter: [load_and_filter_notes] returns exactly the notes with a
    helpful status, each once, in file order, so the count it prints is the
    number of helpful notes. *)
Theorem join_is_filter_on_unique_status
    (notes_df : list note) (status_df : list note_status) :
  NoDup (map status_noteId (List.filter is_helpful status_df)) ->
  load_and_filter_notes notes_df status_df = survivors notes_df status_df /\
  length (load_and_filter_notes notes_df status_df) <= length notes_df.
Proof.
  intros Hnd.
  assert (E : load_and_filter_notes notes_df status_df
              = survivors notes_df status_df).
  { unfold load_and_filter_notes, survivors.
    induction notes_df as [|n l IH]; [done |]. simpl.
    rewrite has_helpful_status_filter, IH.
    pose proof (filter_key_at_most_one status_noteId (noteId n) _ Hnd) as Hle.
    destruct (List.filter _ (List.filter is_helpful status_df)) as [|s [|s' ?]];
      simpl in *; [done | done | lia]. }
  split; [done |]. rewrite E. unfold survivors. apply filter_length_le.
Qed.
End JoinFacts.

Lemma join_is_filter_on_unique_status_witness :
  Ingest.load_and_filter_notes sample_notes sample_status
  = survivors sample_notes sample_status /\
  length (Ingest.load_and_filter_notes sample_notes sample_status)
  <= length sample_notes.
Proof.
  apply (join_is_filter_on_unique_status sample_notes sample_status).
  apply (bool_decide_unpack _). by vm_compute.
Defined.

(** ** Keyword filters *)

Section KeywordFacts.
Import Keywords.
Variable encode : string -> vector.

Lemma by_keyword_upsert_eq i now kw vec l :
  exists r, by_keyword kw (upsert_keyword i now kw vec l) = Some r /\
            keyword_vector r = Some vec.
Proof.
  unfold by_keyword. induction l as [|a l IH]; simpl.
  - rewrite String.eqb_refl. by eexists.
  - destruct (String.eqb_spec (keyword a) kw) as [Heq|Hne]; simpl.
    + rewrite Heq, String.eqb_refl. by eexists.
    + destruct (String.eqb_spec (keyword a) kw); [done | exact IH].
Qed.

Lemma by_keyword_upsert_ne i now kw vec l kw' :
  kw' <> kw ->
  by_keyword kw' (upsert_keyword i now kw vec l) = by_keyword kw' l.
Proof.
  intros Hne. unfold by_keyword. induction l as [|a l IH]; simpl.
  - destruct (String.eqb_spec kw kw'); [congruence | done].
  - destruct (String.eqb_spec (keyword a) kw) as [Heq|Hne']; simpl.
    + destruct (String.eqb_spec (keyword a) kw'); [congruence | done].
    + destruct (String.eqb_spec (keyword a) kw'); [done | exact IH].
Qed.

Lemma upsert_keyword_keeps_synced i now kw l kw' :
  keyword_synced encode kw' l ->
  keyword_synced encode kw' (upsert_keyword i now kw (encode kw) l).
Proof.
  intros (r & Hr & Hv). destruct (String.eqb_spec kw' kw) as [-> | Hne].
  - apply by_keyword_upsert_eq.
  - exists r. by rewrite by_keyword_upsert_ne.
Qed.

Lemma upsert_keyword_synced_id i now kw l :
  keyword_synced encode kw l -> upsert_keyword i now kw (encode kw) l = l.
Proof.
  intros (r & Hr & Hv). unfold by_keyword in Hr.
  induction l as [|a l IH]; simpl in *; [done |].
  destruct (String.eqb_spec (keyword a) kw) as [Heq|Hne].
  - injection Hr as ->. f_equal. destruct r; simpl in *. congruence.
  - f_equal. by apply IH.
Qed.

Lemma insert_keywords_synced now k kws t kw :
  In kw kws \/ keyword_synced encode kw (kf_rows t) ->
  keyword_synced encode kw (kf_rows (insert_keywords encode now k kws t)).
Proof.
  revert k t. induction kws as [|kw0 kws IH]; intros k t H.
  - by destruct H as [[] | H].
  - cbn [insert_keywords]. apply IH. cbn [kf_rows].
    destruct H as [[-> | Hin] | Hs].
    + right. apply by_keyword_upsert_eq.
    + by left.
    + right. by apply upsert_keyword_keeps_synced.
Qed.

Lemma insert_keywords_id now k kws t :
  (forall kw, In kw kws -> keyword_synced encode kw (kf_rows t)) ->
  kf_rows (insert_keywords encode now k kws t) = kf_rows t.
Proof.
  revert k t. induction kws as [|kw0 kws IH]; intros k t H; [done |].
  cbn [insert_keywords]. rewrite IH; cbn [kf_rows].
  - apply upsert_keyword_synced_id, H. by left.
  - intros kw Hkw. rewrite upsert_keyword_synced_id by (apply H; by left).
    apply H. by right.
Qed.

Lemma upsert_keyword_keywords i now kw vec l :
  map keyword (upsert_keyword i now kw vec l)
  = if existsb (fun r => String.eqb (keyword r) kw) l
    then map keyword l else map keyword l ++ [kw].
Proof.
  induction l as [|a l IH]; simpl; [done |].
  destruct (String.eqb (keyword a) kw); simpl; [done |].
  rewrite IH. by destruct (existsb _ l).
Qed.

Lemma upsert_keyword_NoDup i now kw vec l :
  NoDup (map keyword l) -> NoDup (map keyword (upsert_keyword i now kw vec l)).
Proof.
  intros Hnd. rewrite upsert_keyword_keywords.
  destruct (existsb _ l) eqn:E; [done |].
  apply NoDup_app. split_and!; [done | | apply NoDup_singleton].
  intros x Hx Hx'. apply list_elem_of_In in Hx' as [<- | []].
  apply list_elem_of_In, in_map_iff in Hx as (r & Hr & Hin).
  assert (existsb (fun r => String.eqb (keyword r) kw) l = true); [| congruence].
  apply existsb_exists. exists r. split; [done |]. by apply String.eqb_eq.
Qed.

Lemma insert_keywords_NoDup now k kws t :
  NoDup (map keyword (kf_rows t)) ->
  NoDup (map keyword (kf_rows (insert_keywords encode now k kws t))).
Proof.
  revert k t. induction kws as [|kw0 kws IH]; intros k t H; [done |].
  cbn [insert_keywords]. apply IH. cbn [kf_rows]. by apply upsert_keyword_NoDup.
Qed.

(** X21: [init_keywords.py] can be run again.  After [main], on whatever
    table it found, each of the keywords has a row with the embedding of
    the keyword; a second run changes no row (it only draws new values
    from the sequence); and keywords stay unique. *)
Theorem keywords_main_idempotent
    (now1 now2 : nat -> Z) (t : keyword_table) :
  let t1 := main encode now1 t in
  kf_rows (main encode now2 t1) = kf_rows t1 /\
  (forall kw, In kw KEYWORDS -> keyword_synced encode kw (kf_rows t1)) /\
  (NoDup (map keyword (kf_rows t)) -> NoDup (map keyword (kf_rows t1))) /\
  kf_seq (main encode now2 t1) = (kf_seq t + 4)%Z.
Proof.
  cbn zeta. unfold main.
  assert (Hs : forall kw, In kw KEYWORDS ->
            keyword_synced encode kw
              (kf_rows (insert_keywords encode now1 0 KEYWORDS t))).
  { intros kw Hkw. apply insert_keywords_synced. by left. }
  split_and!.
  - by apply insert_keywords_id.
  - done.
  - apply insert_keywords_NoDup.
  - unfold KEYWORDS. cbn [insert_keywords kf_seq]. lia.
Qed.
End KeywordFacts.

Example keywords_first_run :
  map Keywords.keyword
    (Keywords.kf_rows (Keywords.main sample_encode (fun _ => 0%Z) empty_keywords))
  = Keywords.KEYWORDS.
Proof. vm_compute. reflexivity. Qed.

(** ** Resolved records *)

Section ResolvedFinal.
Variable encode : string -> vector.

Lemma resolved_step d d' r :
  invariant encode d -> step encode d d' ->
  In r (rows d) -> Enrich.needs_enrichment r = false ->
  exists r', In r' (rows d') /\ row_id r' = row_id r /\
    tweet_id r' = tweet_id r /\ tweet_text r' = tweet_text r /\
    tweet_vector r' = tweet_vector r /\ tweet_format r' = tweet_format r.
Proof.
  intros [[Hids _ _ _] _] Hstep Hr Hres.
  destruct Hstep as [now notes_df status_df d | api st k].
  - unfold Ingest.main, Ingest.batch_loader.
    destruct (load_batches_result encode now 0
                (Ingest.chunks Ingest.BATCH_SIZE
                   (Ingest.filter_and_dedup notes_df status_df)) d)
      as (ivs & -> & _).
    by apply upsert_list_keeps_row.
  - exists r. split_and!; try done.
    apply attempts_keep_others; [done |]. intros Hin.
    assert (Hsel : In (row_id r)
                     (map fst (Enrich.get_null_rows (Enrich.db st)
                                 Enrich.BATCH_SIZE))).
    { apply in_map_iff in Hin as (p & Hp & Hin). apply in_map_iff.
      exists p. split; [done |]. by eapply In_firstn_In. }
    apply selected_needs_enrichment in Hsel; [congruence | done | done].
Qed.

(** X22: finished work is never redone.  A record of a reachable table
    that no longer needs enrichment, enriched or marked missing, keeps its
    tweet_text, tweet_vector and tweet_format through every later run of
    the loader and every later attempt of the loop, and is never selected
    again. *)
Theorem resolved_records_are_final
    (d d' : database) (r : fact_check) (limit : nat) :
  reachable encode d -> In r (rows d) ->
  Enrich.needs_enrichment r = false ->
  rtc (step encode) d d' ->
  (exists r', In r' (rows d') /\ row_id r' = row_id r /\
     tweet_id r' = tweet_id r /\ tweet_text r' = tweet_text r /\
     tweet_vector r' = tweet_vector r /\ tweet_format r' = tweet_format r) /\
  ~ In (row_id r) (map fst (Enrich.get_null_rows d' limit)).
Proof.
  intros Hreach Hr Hres Hrtc. apply reachable_invariant in Hreach.
  assert (Hlater : invariant encode d' /\
            exists r', In r' (rows d') /\ Enrich.needs_enrichment r' = false /\
              row_id r' = row_id r /\ tweet_id r' = tweet_id r /\
              tweet_text r' = tweet_text r /\ tweet_vector r' = tweet_vector r /\
              tweet_format r' = tweet_format r).
  { clear limit. revert r Hr Hres Hreach.
    induction Hrtc as [d|d1 d2 d3 Hstep _ IH]; intros r Hr Hres Hinv.
    - split; [done |]. by exists r.
    - destruct (resolved_step d1 d2 r Hinv Hstep Hr Hres)
        as (r2 & Hr2 & Hid & Htid & Ht & Hv & Hf).
      assert (Hres2 : Enrich.needs_enrichment r2 = false).
      { unfold Enrich.needs_enrichment in *. by rewrite Ht, Hf. }
      destruct (IH r2 Hr2 Hres2 (invariant_step encode _ _ Hinv Hstep))
        as (Hinv3 & r3 & Hr3 & Hres3 & Hid3 & Htid3 & Ht3 & Hv3 & Hf3).
      split; [done |]. exists r3. split_and!; congruence || done. }
  destruct Hlater as ([[Hids _ _ _] _] & r' & Hr' & Hres' & Hid & Hrest).
  split; [by exists r' |].
  rewrite <- Hid. intros Hsel.
  apply selected_needs_enrichment in Hsel; [congruence | done | done].
Qed.
End ResolvedFinal.

Lemma resolved_records_are_final_witness :
  (exists r', In r' (rows sample_enriched_all) /\
     row_id r' = row_id sample_enriched_row /\
     tweet_id r' = tweet_id sample_enriched_row /\
     tweet_text r' = tweet_text sample_enriched_row /\
     tweet_vector r' = tweet_vector sample_enriched_row /\
     tweet_format r' = tweet_format sample_enriched_row) /\
  ~ In (row_id sample_enriched_row)
       (map fst (Enrich.get_null_rows sample_enriched_all Enrich.BATCH_SIZE)).
Proof.
  apply (resolved_records_are_final sample_encode
           (sample_attempted (api_text "hello")) sample_enriched_all
           sample_enriched_row Enrich.BATCH_SIZE).
  - apply reachable_sample_attempted.
  - vm_compute. left. reflexivity.
  - reflexivity.
  - eapply rtc_once.
    exact (step_enrich sample_encode (api_text "hello")
             (Enrich.mk_loop_state (sample_attempted (api_text "hello")) 0 0 0)
             Enrich.BATCH_SIZE).
Defined.
